(** * Chroma Shot: the simulation core of [components/Game.tsx]

    A shallow embedding of the per-frame simulation of the arcade shooter
    (object pools, particle ring buffer, aim assist, spawn director, physics,
    combat resolver), of the listeners and display values of the component,
    of the handoff to the application shell ([App.tsx]) with the
    achievements of [constants.ts], and of the music sequencer of
    [services/sound.ts], together with the properties of its specification
    (C1 to C10) and further properties read off the code (X1 to X30).

    Conventions of the embedding.
    - A JavaScript [number] that carries a measure (position, velocity, time,
      score, health) is a real number [R]; counters that the code only ever
      increments by one (streak, level, the session statistics) are [Z].
      Rounding of IEEE doubles is not modelled, and neither is [NaN]: the
      [isNaN] guards of the source are always false on reals.
    - [Math.random()] is an oracle [random : nat -> R]; the world records how
      many values have been drawn, and every draw of the source is a draw of
      the model, in the order of evaluation of the source.
    - The mutable objects behind [gameStateRef], [sessionStatsRef] and the
      other refs form one record [World] threaded through a state monad.
    - The React state that the listeners read or write is part of the
      world: the tutorial step and the pulse of the shooter. The two
      deferred effects, the [setTimeout] that hands the session over and the
      [setTimeout] that ends the pulse of the shooter, are recorded in the
      world as pending timers; a listener reports whether it has called
      [preventDefault].
    - Calls into the collaborators that own no simulation state
      ([playSound], [onTutorialComplete], the React setters that copy the
      state of the simulation for the renderer, such as [setScore],
      [setStreak], [setShake] and [setTargets], the drawing, and
      [requestAnimationFrame]) are left out. *)

From Stdlib Require Import Reals Lra Lia ZArith String Recdef.
From stdpp Require Import base option list.

Local Open Scope R_scope.

(** ** Numbers *)

Module JsMath.

Definition ltb (a b : R) : bool := if Rlt_dec a b then true else false.
Definition leb (a b : R) : bool := if Rle_dec a b then true else false.
Definition eqb (a b : R) : bool := if Req_dec_T a b then true else false.

(** [Math.floor] *)
Definition floor (x : R) : Z := Zfloor x.

(** [Math.atan2(y, x)], with the value 0 at the origin as in ECMAScript. *)
Definition atan2 (y x : R) : R :=
  if ltb 0 x then atan (y / x)
  else if ltb x 0 then
    (if leb 0 y then atan (y / x) + PI else atan (y / x) - PI)
  else if ltb 0 y then PI / 2
  else if ltb y 0 then - (PI / 2)
  else 0.

(** [Math.hypot(a, b)] *)
Definition hypot (a b : R) : R := sqrt (a * a + b * b).

End JsMath.

(** ** Data model ([types.ts]) *)

Inductive ColorType := RED | BLUE | GREEN | YELLOW.

Inductive TargetType :=
  NORMAL | SPLIT | TOUGH | STATIONARY | COLOR_SHIFT | SINE_WAVE | BOSS.

Inductive TargetShape := CIRCLE | SQUARE | TRIANGLE | DIAMOND | STAR.

Inductive Difficulty := EASY | MEDIUM | HARD.

Inductive Theme := light | dark.

Inductive ParticleType := BURST | DEBRIS | TRAIL | RING | SPARK.

#[global] Instance ColorType_eq_dec : EqDecision ColorType.
Proof. solve_decision. Defined.
#[global] Instance TargetType_eq_dec : EqDecision TargetType.
Proof. solve_decision. Defined.
#[global] Instance Difficulty_eq_dec : EqDecision Difficulty.
Proof. solve_decision. Defined.
#[global] Instance Theme_eq_dec : EqDecision Theme.
Proof. solve_decision. Defined.
#[global] Instance ParticleType_eq_dec : EqDecision ParticleType.
Proof. solve_decision. Defined.

(** The [id] strings of the entities are template strings; they are kept as
    terms that record their parts (the time stamp of [Date.now()] in the
    boss, minion and extra-slot ids is dropped). *)
Inductive EntityId :=
| PoolId (i : nat)             (* `pool-${i}` *)
| PoolExtraId                  (* `pool-extra-${Date.now()}` *)
| ParticlePoolId (i : nat)     (* `p-pool-${i}` *)
| ShotId (now r : R)           (* `shot-${now}-${Math.random()}` *)
| TutorialTargetId             (* 'tutorial-target' *)
| BossId                       (* `boss-${Date.now()}` *)
| MinionId (k : nat)           (* `minion-${Date.now()}-${k}` *)
| RandomId (r : R).            (* Math.random().toString() *)

Record Projectile := mkProjectile {
  pj_id : EntityId;
  pj_x : R;
  pj_y : R;
  pj_vx : R;
  pj_vy : R;
  pj_color : ColorType;
  pj_radius : R;
  pj_active : bool
}.

Record Target := mkTarget {
  id : EntityId;
  x : R;
  y : R;
  vx : R;
  vy : R;
  color : ColorType;
  radius : R;
  rotation : R;
  rotationSpeed : R;
  type : TargetType;
  shape : TargetShape;
  health : R;
  maxHealth : option R;
  colorShiftTimer : option R;
  initialY : option R;
  timeOffset : option R;
  summonTimer : option R
}.

Record Particle := mkParticle {
  pt_id : EntityId;
  pt_x : R;
  pt_y : R;
  pt_vx : R;
  pt_vy : R;
  pt_life : R;
  pt_color : string;
  pt_size : R;
  pt_type : ParticleType;
  pt_active : bool;
  pt_rotation : option R
}.

(** [Partial<Particle>], the argument of [spawnParticle]: the fields a call
    leaves out are [None]. No call passes an [id]. *)
Record PartialParticle := mkPartial {
  c_x : option R;
  c_y : option R;
  c_vx : option R;
  c_vy : option R;
  c_life : option R;
  c_color : option string;
  c_size : option R;
  c_type : option ParticleType;
  c_active : option bool;
  c_rotation : option R
}.

Record GameDimensions := mkDimensions { width : R; height : R }.

Record GameStats := mkStats {
  totalScore : Z;
  highScore : Z;
  gamesPlayed : Z;
  shotsFired : Z;
  targetsHit : Z;
  targetsMissed : Z;
  highestStreak : Z;
  toughKills : Z;
  splitKills : Z;
  stationaryKills : Z;
  colorShiftKills : Z;
  sineWaveKills : Z;
  bossKills : Z;
  highestLevel : Z;
  hardModeGames : Z
}.

(** ** Constants ([constants.ts]) *)

Definition COLORS (c : ColorType) : string :=
  match c with
  | RED => "#ef4444"
  | BLUE => "#3b82f6"
  | GREEN => "#22c55e"
  | YELLOW => "#eab308"
  end.

Definition COLOR_KEYS : list ColorType := [RED; BLUE; GREEN; YELLOW].

Definition TARGET_SCORES (t : TargetType) : R :=
  match t with
  | NORMAL => 10
  | SPLIT => 20
  | TOUGH => 30
  | STATIONARY => 15
  | COLOR_SHIFT => 25
  | SINE_WAVE => 25
  | BOSS => 250
  end.

Module GAME_CONFIG.
Definition TARGET_RADIUS : R := 32.
Definition BOSS_RADIUS : R := 60.
Definition PROJECTILE_RADIUS : R := 12.
Definition SHOOTER_RADIUS : R := 20.
Definition SPAWN_INTERVAL_START : R := 1600.
Definition SPAWN_INTERVAL_MIN : R := 600.
Definition TARGET_SPEED_BASE : R := 1.5.
Definition PROJECTILE_SPEED : R := 10.
Definition MAX_TARGETS : R := 12.
Definition CONTROLS_HEIGHT : R := 100.
Definition POINTS_PER_LEVEL : R := 300.
End GAME_CONFIG.

Record DifficultySettings := mkSettings {
  ds_speedMultiplier : R;
  spawnIntervalMultiplier : R;
  maxTargets : R;
  scoreMultiplier : R;
  bossHealthMulti : R
}.

Definition DIFFICULTY_SETTINGS (d : Difficulty) : DifficultySettings :=
  match d with
  | EASY => mkSettings 0.7 1.3 8 1 0.8
  | MEDIUM => mkSettings 1.0 1.0 12 1.5 1.0
  | HARD => mkSettings 1.5 0.7 16 2 1.5
  end.

(** ** The mutable state

    [GameState] is the object behind [gameStateRef]. *)

Record GameState := mkGameState {
  projectilePool : list Projectile;
  particlePool : list Particle;
  particleCursor : nat;
  targets : list Target;
  currentColor : ColorType;
  score : R;
  level : Z;
  scoreSinceLastBoss : R;
  bossActive : bool;
  streak : Z;
  speedMultiplier : R;
  baseSpawnInterval : R;
  nextSpawnDelay : R;
  isGameOver : bool;
  isEnding : bool;
  shakeTimer : R;
  time : R;
  lastScoreMilestone : Z
}.

(** Assignments to the fields of [gameStateRef.current]. *)
Definition set_projectilePool (v : list Projectile) (s : GameState) : GameState :=
  mkGameState v (particlePool s) (particleCursor s) (targets s) (currentColor s) (score s) (level s) (scoreSinceLastBoss s) (bossActive s) (streak s) (speedMultiplier s) (baseSpawnInterval s) (nextSpawnDelay s) (isGameOver s) (isEnding s) (shakeTimer s) (time s) (lastScoreMilestone s).
Definition set_particlePool (v : list Particle) (s : GameState) : GameState :=
  mkGameState (projectilePool s) v (particleCursor s) (targets s) (currentColor s) (score s) (level s) (scoreSinceLastBoss s) (bossActive s) (streak s) (speedMultiplier s) (baseSpawnInterval s) (nextSpawnDelay s) (isGameOver s) (isEnding s) (shakeTimer s) (time s) (lastScoreMilestone s).
Definition set_particleCursor (v : nat) (s : GameState) : GameState :=
  mkGameState (projectilePool s) (particlePool s) v (targets s) (currentColor s) (score s) (level s) (scoreSinceLastBoss s) (bossActive s) (streak s) (speedMultiplier s) (baseSpawnInterval s) (nextSpawnDelay s) (isGameOver s) (isEnding s) (shakeTimer s) (time s) (lastScoreMilestone s).
Definition set_targets (v : list Target) (s : GameState) : GameState :=
  mkGameState (projectilePool s) (particlePool s) (particleCursor s) v (currentColor s) (score s) (level s) (scoreSinceLastBoss s) (bossActive s) (streak s) (speedMultiplier s) (baseSpawnInterval s) (nextSpawnDelay s) (isGameOver s) (isEnding s) (shakeTimer s) (time s) (lastScoreMilestone s).
Definition set_currentColor (v : ColorType) (s : GameState) : GameState :=
  mkGameState (projectilePool s) (particlePool s) (particleCursor s) (targets s) v (score s) (level s) (scoreSinceLastBoss s) (bossActive s) (streak s) (speedMultiplier s) (baseSpawnInterval s) (nextSpawnDelay s) (isGameOver s) (isEnding s) (shakeTimer s) (time s) (lastScoreMilestone s).
Definition set_score (v : R) (s : GameState) : GameState :=
  mkGameState (projectilePool s) (particlePool s) (particleCursor s) (targets s) (currentColor s) v (level s) (scoreSinceLastBoss s) (bossActive s) (streak s) (speedMultiplier s) (baseSpawnInterval s) (nextSpawnDelay s) (isGameOver s) (isEnding s) (shakeTimer s) (time s) (lastScoreMilestone s).
Definition set_level (v : Z) (s : GameState) : GameState :=
  mkGameState (projectilePool s) (particlePool s) (particleCursor s) (targets s) (currentColor s) (score s) v (scoreSinceLastBoss s) (bossActive s) (streak s) (speedMultiplier s) (baseSpawnInterval s) (nextSpawnDelay s) (isGameOver s) (isEnding s) (shakeTimer s) (time s) (lastScoreMilestone s).
Definition set_scoreSinceLastBoss (v : R) (s : GameState) : GameState :=
  mkGameState (projectilePool s) (particlePool s) (particleCursor s) (targets s) (currentColor s) (score s) (level s) v (bossActive s) (streak s) (speedMultiplier s) (baseSpawnInterval s) (nextSpawnDelay s) (isGameOver s) (isEnding s) (shakeTimer s) (time s) (lastScoreMilestone s).
Definition set_bossActive (v : bool) (s : GameState) : GameState :=
  mkGameState (projectilePool s) (particlePool s) (particleCursor s) (targets s) (currentColor s) (score s) (level s) (scoreSinceLastBoss s) v (streak s) (speedMultiplier s) (baseSpawnInterval s) (nextSpawnDelay s) (isGameOver s) (isEnding s) (shakeTimer s) (time s) (lastScoreMilestone s).
Definition set_streak (v : Z) (s : GameState) : GameState :=
  mkGameState (projectilePool s) (particlePool s) (particleCursor s) (targets s) (currentColor s) (score s) (level s) (scoreSinceLastBoss s) (bossActive s) v (speedMultiplier s) (baseSpawnInterval s) (nextSpawnDelay s) (isGameOver s) (isEnding s) (shakeTimer s) (time s) (lastScoreMilestone s).
Definition set_speedMultiplier (v : R) (s : GameState) : GameState :=
  mkGameState (projectilePool s) (particlePool s) (particleCursor s) (targets s) (currentColor s) (score s) (level s) (scoreSinceLastBoss s) (bossActive s) (streak s) v (baseSpawnInterval s) (nextSpawnDelay s) (isGameOver s) (isEnding s) (shakeTimer s) (time s) (lastScoreMilestone s).
Definition set_baseSpawnInterval (v : R) (s : GameState) : GameState :=
  mkGameState (projectilePool s) (particlePool s) (particleCursor s) (targets s) (currentColor s) (score s) (level s) (scoreSinceLastBoss s) (bossActive s) (streak s) (speedMultiplier s) v (nextSpawnDelay s) (isGameOver s) (isEnding s) (shakeTimer s) (time s) (lastScoreMilestone s).
Definition set_nextSpawnDelay (v : R) (s : GameState) : GameState :=
  mkGameState (projectilePool s) (particlePool s) (particleCursor s) (targets s) (currentColor s) (score s) (level s) (scoreSinceLastBoss s) (bossActive s) (streak s) (speedMultiplier s) (baseSpawnInterval s) v (isGameOver s) (isEnding s) (shakeTimer s) (time s) (lastScoreMilestone s).
Definition set_isEnding (v : bool) (s : GameState) : GameState :=
  mkGameState (projectilePool s) (particlePool s) (particleCursor s) (targets s) (currentColor s) (score s) (level s) (scoreSinceLastBoss s) (bossActive s) (streak s) (speedMultiplier s) (baseSpawnInterval s) (nextSpawnDelay s) (isGameOver s) v (shakeTimer s) (time s) (lastScoreMilestone s).
Definition set_shakeTimer (v : R) (s : GameState) : GameState :=
  mkGameState (projectilePool s) (particlePool s) (particleCursor s) (targets s) (currentColor s) (score s) (level s) (scoreSinceLastBoss s) (bossActive s) (streak s) (speedMultiplier s) (baseSpawnInterval s) (nextSpawnDelay s) (isGameOver s) (isEnding s) v (time s) (lastScoreMilestone s).
Definition set_time (v : R) (s : GameState) : GameState :=
  mkGameState (projectilePool s) (particlePool s) (particleCursor s) (targets s) (currentColor s) (score s) (level s) (scoreSinceLastBoss s) (bossActive s) (streak s) (speedMultiplier s) (baseSpawnInterval s) (nextSpawnDelay s) (isGameOver s) (isEnding s) (shakeTimer s) v (lastScoreMilestone s).
Definition set_lastScoreMilestone (v : Z) (s : GameState) : GameState :=
  mkGameState (projectilePool s) (particlePool s) (particleCursor s) (targets s) (currentColor s) (score s) (level s) (scoreSinceLastBoss s) (bossActive s) (streak s) (speedMultiplier s) (baseSpawnInterval s) (nextSpawnDelay s) (isGameOver s) (isEnding s) (shakeTimer s) (time s) v.

(** Assignments to the fields of [sessionStatsRef.current]. *)
Definition set_totalScore (v : Z) (s : GameStats) : GameStats :=
  mkStats v (highScore s) (gamesPlayed s) (shotsFired s) (targetsHit s) (targetsMissed s) (highestStreak s) (toughKills s) (splitKills s) (stationaryKills s) (colorShiftKills s) (sineWaveKills s) (bossKills s) (highestLevel s) (hardModeGames s).
Definition set_shotsFired (v : Z) (s : GameStats) : GameStats :=
  mkStats (totalScore s) (highScore s) (gamesPlayed s) v (targetsHit s) (targetsMissed s) (highestStreak s) (toughKills s) (splitKills s) (stationaryKills s) (colorShiftKills s) (sineWaveKills s) (bossKills s) (highestLevel s) (hardModeGames s).
Definition set_targetsHit (v : Z) (s : GameStats) : GameStats :=
  mkStats (totalScore s) (highScore s) (gamesPlayed s) (shotsFired s) v (targetsMissed s) (highestStreak s) (toughKills s) (splitKills s) (stationaryKills s) (colorShiftKills s) (sineWaveKills s) (bossKills s) (highestLevel s) (hardModeGames s).
Definition set_targetsMissed (v : Z) (s : GameStats) : GameStats :=
  mkStats (totalScore s) (highScore s) (gamesPlayed s) (shotsFired s) (targetsHit s) v (highestStreak s) (toughKills s) (splitKills s) (stationaryKills s) (colorShiftKills s) (sineWaveKills s) (bossKills s) (highestLevel s) (hardModeGames s).
Definition set_highestStreak (v : Z) (s : GameStats) : GameStats :=
  mkStats (totalScore s) (highScore s) (gamesPlayed s) (shotsFired s) (targetsHit s) (targetsMissed s) v (toughKills s) (splitKills s) (stationaryKills s) (colorShiftKills s) (sineWaveKills s) (bossKills s) (highestLevel s) (hardModeGames s).
Definition set_toughKills (v : Z) (s : GameStats) : GameStats :=
  mkStats (totalScore s) (highScore s) (gamesPlayed s) (shotsFired s) (targetsHit s) (targetsMissed s) (highestStreak s) v (splitKills s) (stationaryKills s) (colorShiftKills s) (sineWaveKills s) (bossKills s) (highestLevel s) (hardModeGames s).
Definition set_splitKills (v : Z) (s : GameStats) : GameStats :=
  mkStats (totalScore s) (highScore s) (gamesPlayed s) (shotsFired s) (targetsHit s) (targetsMissed s) (highestStreak s) (toughKills s) v (stationaryKills s) (colorShiftKills s) (sineWaveKills s) (bossKills s) (highestLevel s) (hardModeGames s).
Definition set_stationaryKills (v : Z) (s : GameStats) : GameStats :=
  mkStats (totalScore s) (highScore s) (gamesPlayed s) (shotsFired s) (targetsHit s) (targetsMissed s) (highestStreak s) (toughKills s) (splitKills s) v (colorShiftKills s) (sineWaveKills s) (bossKills s) (highestLevel s) (hardModeGames s).
Definition set_colorShiftKills (v : Z) (s : GameStats) : GameStats :=
  mkStats (totalScore s) (highScore s) (gamesPlayed s) (shotsFired s) (targetsHit s) (targetsMissed s) (highestStreak s) (toughKills s) (splitKills s) (stationaryKills s) v (sineWaveKills s) (bossKills s) (highestLevel s) (hardModeGames s).
Definition set_sineWaveKills (v : Z) (s : GameStats) : GameStats :=
  mkStats (totalScore s) (highScore s) (gamesPlayed s) (shotsFired s) (targetsHit s) (targetsMissed s) (highestStreak s) (toughKills s) (splitKills s) (stationaryKills s) (colorShiftKills s) v (bossKills s) (highestLevel s) (hardModeGames s).
Definition set_bossKills (v : Z) (s : GameStats) : GameStats :=
  mkStats (totalScore s) (highScore s) (gamesPlayed s) (shotsFired s) (targetsHit s) (targetsMissed s) (highestStreak s) (toughKills s) (splitKills s) (stationaryKills s) (colorShiftKills s) (sineWaveKills s) v (highestLevel s) (hardModeGames s).
Definition set_highestLevel (v : Z) (s : GameStats) : GameStats :=
  mkStats (totalScore s) (highScore s) (gamesPlayed s) (shotsFired s) (targetsHit s) (targetsMissed s) (highestStreak s) (toughKills s) (splitKills s) (stationaryKills s) (colorShiftKills s) (sineWaveKills s) (bossKills s) v (hardModeGames s).

(** [World] gathers everything the component mutates: the two state objects,
    the refs ([spawnTimerRef], [lastTimeRef], [lastShotTimeRef],
    [dimensionsRef]), the React state the simulation reads back
    ([tutorialStep]), the number of values drawn from [Math.random], the
    delays of the pending [setTimeout] calls that will invoke [onGameOver],
    and the pulse of the shooter ([shooterPulse]) with the delays of the
    pending [setTimeout] calls that will lower it. *)
Record World := mkWorld {
  gameState : GameState;
  sessionStats : GameStats;
  spawnTimer : R;
  lastTime : R;
  lastShotTime : R;
  dimensions : GameDimensions;
  tutorialStep : Z;
  randomCount : nat;
  handoffTimers : list R;
  shooterPulse : bool;
  pulseTimers : list R
}.

Definition set_gameState (v : GameState) (w : World) : World :=
  mkWorld v (sessionStats w) (spawnTimer w) (lastTime w) (lastShotTime w) (dimensions w) (tutorialStep w) (randomCount w) (handoffTimers w) (shooterPulse w) (pulseTimers w).
Definition set_sessionStats (v : GameStats) (w : World) : World :=
  mkWorld (gameState w) v (spawnTimer w) (lastTime w) (lastShotTime w) (dimensions w) (tutorialStep w) (randomCount w) (handoffTimers w) (shooterPulse w) (pulseTimers w).
Definition set_spawnTimer (v : R) (w : World) : World :=
  mkWorld (gameState w) (sessionStats w) v (lastTime w) (lastShotTime w) (dimensions w) (tutorialStep w) (randomCount w) (handoffTimers w) (shooterPulse w) (pulseTimers w).
Definition set_lastTime (v : R) (w : World) : World :=
  mkWorld (gameState w) (sessionStats w) (spawnTimer w) v (lastShotTime w) (dimensions w) (tutorialStep w) (randomCount w) (handoffTimers w) (shooterPulse w) (pulseTimers w).
Definition set_lastShotTime (v : R) (w : World) : World :=
  mkWorld (gameState w) (sessionStats w) (spawnTimer w) (lastTime w) v (dimensions w) (tutorialStep w) (randomCount w) (handoffTimers w) (shooterPulse w) (pulseTimers w).
Definition set_dimensions (v : GameDimensions) (w : World) : World :=
  mkWorld (gameState w) (sessionStats w) (spawnTimer w) (lastTime w) (lastShotTime w) v (tutorialStep w) (randomCount w) (handoffTimers w) (shooterPulse w) (pulseTimers w).
Definition set_tutorialStep (v : Z) (w : World) : World :=
  mkWorld (gameState w) (sessionStats w) (spawnTimer w) (lastTime w) (lastShotTime w) (dimensions w) v (randomCount w) (handoffTimers w) (shooterPulse w) (pulseTimers w).
Definition set_randomCount (v : nat) (w : World) : World :=
  mkWorld (gameState w) (sessionStats w) (spawnTimer w) (lastTime w) (lastShotTime w) (dimensions w) (tutorialStep w) v (handoffTimers w) (shooterPulse w) (pulseTimers w).
Definition set_handoffTimers (v : list R) (w : World) : World :=
  mkWorld (gameState w) (sessionStats w) (spawnTimer w) (lastTime w) (lastShotTime w) (dimensions w) (tutorialStep w) (randomCount w) v (shooterPulse w) (pulseTimers w).
Definition set_shooterPulse (v : bool) (w : World) : World :=
  mkWorld (gameState w) (sessionStats w) (spawnTimer w) (lastTime w) (lastShotTime w) (dimensions w) (tutorialStep w) (randomCount w) (handoffTimers w) v (pulseTimers w).
Definition set_pulseTimers (v : list R) (w : World) : World :=
  mkWorld (gameState w) (sessionStats w) (spawnTimer w) (lastTime w) (lastShotTime w) (dimensions w) (tutorialStep w) (randomCount w) (handoffTimers w) (shooterPulse w) v.

(** Assignments to the fields of a target, a projectile and a particle. *)
Definition set_x (v : R) (t : Target) : Target :=
  mkTarget (id t) v (y t) (vx t) (vy t) (color t) (radius t) (rotation t) (rotationSpeed t) (type t) (shape t) (health t) (maxHealth t) (colorShiftTimer t) (initialY t) (timeOffset t) (summonTimer t).
Definition set_y (v : R) (t : Target) : Target :=
  mkTarget (id t) (x t) v (vx t) (vy t) (color t) (radius t) (rotation t) (rotationSpeed t) (type t) (shape t) (health t) (maxHealth t) (colorShiftTimer t) (initialY t) (timeOffset t) (summonTimer t).
Definition set_vx (v : R) (t : Target) : Target :=
  mkTarget (id t) (x t) (y t) v (vy t) (color t) (radius t) (rotation t) (rotationSpeed t) (type t) (shape t) (health t) (maxHealth t) (colorShiftTimer t) (initialY t) (timeOffset t) (summonTimer t).
Definition set_vy (v : R) (t : Target) : Target :=
  mkTarget (id t) (x t) (y t) (vx t) v (color t) (radius t) (rotation t) (rotationSpeed t) (type t) (shape t) (health t) (maxHealth t) (colorShiftTimer t) (initialY t) (timeOffset t) (summonTimer t).
Definition set_color (v : ColorType) (t : Target) : Target :=
  mkTarget (id t) (x t) (y t) (vx t) (vy t) v (radius t) (rotation t) (rotationSpeed t) (type t) (shape t) (health t) (maxHealth t) (colorShiftTimer t) (initialY t) (timeOffset t) (summonTimer t).
Definition set_rotation (v : R) (t : Target) : Target :=
  mkTarget (id t) (x t) (y t) (vx t) (vy t) (color t) (radius t) v (rotationSpeed t) (type t) (shape t) (health t) (maxHealth t) (colorShiftTimer t) (initialY t) (timeOffset t) (summonTimer t).
Definition set_rotationSpeed (v : R) (t : Target) : Target :=
  mkTarget (id t) (x t) (y t) (vx t) (vy t) (color t) (radius t) (rotation t) v (type t) (shape t) (health t) (maxHealth t) (colorShiftTimer t) (initialY t) (timeOffset t) (summonTimer t).
Definition set_health (v : R) (t : Target) : Target :=
  mkTarget (id t) (x t) (y t) (vx t) (vy t) (color t) (radius t) (rotation t) (rotationSpeed t) (type t) (shape t) v (maxHealth t) (colorShiftTimer t) (initialY t) (timeOffset t) (summonTimer t).
Definition set_colorShiftTimer (v : option R) (t : Target) : Target :=
  mkTarget (id t) (x t) (y t) (vx t) (vy t) (color t) (radius t) (rotation t) (rotationSpeed t) (type t) (shape t) (health t) (maxHealth t) v (initialY t) (timeOffset t) (summonTimer t).
Definition set_summonTimer (v : option R) (t : Target) : Target :=
  mkTarget (id t) (x t) (y t) (vx t) (vy t) (color t) (radius t) (rotation t) (rotationSpeed t) (type t) (shape t) (health t) (maxHealth t) (colorShiftTimer t) (initialY t) (timeOffset t) v.
Definition set_pj_id (v : EntityId) (p : Projectile) : Projectile :=
  mkProjectile v (pj_x p) (pj_y p) (pj_vx p) (pj_vy p) (pj_color p) (pj_radius p) (pj_active p).
Definition set_pj_x (v : R) (p : Projectile) : Projectile :=
  mkProjectile (pj_id p) v (pj_y p) (pj_vx p) (pj_vy p) (pj_color p) (pj_radius p) (pj_active p).
Definition set_pj_y (v : R) (p : Projectile) : Projectile :=
  mkProjectile (pj_id p) (pj_x p) v (pj_vx p) (pj_vy p) (pj_color p) (pj_radius p) (pj_active p).
Definition set_pj_vx (v : R) (p : Projectile) : Projectile :=
  mkProjectile (pj_id p) (pj_x p) (pj_y p) v (pj_vy p) (pj_color p) (pj_radius p) (pj_active p).
Definition set_pj_vy (v : R) (p : Projectile) : Projectile :=
  mkProjectile (pj_id p) (pj_x p) (pj_y p) (pj_vx p) v (pj_color p) (pj_radius p) (pj_active p).
Definition set_pj_color (v : ColorType) (p : Projectile) : Projectile :=
  mkProjectile (pj_id p) (pj_x p) (pj_y p) (pj_vx p) (pj_vy p) v (pj_radius p) (pj_active p).
Definition set_pj_active (v : bool) (p : Projectile) : Projectile :=
  mkProjectile (pj_id p) (pj_x p) (pj_y p) (pj_vx p) (pj_vy p) (pj_color p) (pj_radius p) v.
Definition set_pt_x (v : R) (p : Particle) : Particle :=
  mkParticle (pt_id p) v (pt_y p) (pt_vx p) (pt_vy p) (pt_life p) (pt_color p) (pt_size p) (pt_type p) (pt_active p) (pt_rotation p).
Definition set_pt_y (v : R) (p : Particle) : Particle :=
  mkParticle (pt_id p) (pt_x p) v (pt_vx p) (pt_vy p) (pt_life p) (pt_color p) (pt_size p) (pt_type p) (pt_active p) (pt_rotation p).
Definition set_pt_vx (v : R) (p : Particle) : Particle :=
  mkParticle (pt_id p) (pt_x p) (pt_y p) v (pt_vy p) (pt_life p) (pt_color p) (pt_size p) (pt_type p) (pt_active p) (pt_rotation p).
Definition set_pt_vy (v : R) (p : Particle) : Particle :=
  mkParticle (pt_id p) (pt_x p) (pt_y p) (pt_vx p) v (pt_life p) (pt_color p) (pt_size p) (pt_type p) (pt_active p) (pt_rotation p).
Definition set_pt_life (v : R) (p : Particle) : Particle :=
  mkParticle (pt_id p) (pt_x p) (pt_y p) (pt_vx p) (pt_vy p) v (pt_color p) (pt_size p) (pt_type p) (pt_active p) (pt_rotation p).
Definition set_pt_size (v : R) (p : Particle) : Particle :=
  mkParticle (pt_id p) (pt_x p) (pt_y p) (pt_vx p) (pt_vy p) (pt_life p) (pt_color p) v (pt_type p) (pt_active p) (pt_rotation p).
Definition set_pt_active (v : bool) (p : Particle) : Particle :=
  mkParticle (pt_id p) (pt_x p) (pt_y p) (pt_vx p) (pt_vy p) (pt_life p) (pt_color p) (pt_size p) (pt_type p) v (pt_rotation p).
Definition set_pt_rotation (v : option R) (p : Particle) : Particle :=
  mkParticle (pt_id p) (pt_x p) (pt_y p) (pt_vx p) (pt_vy p) (pt_life p) (pt_color p) (pt_size p) (pt_type p) (pt_active p) v.

(** ** The state monad of the component *)

Definition M (A : Type) : Type := World -> A * World.

Definition ret {A} (a : A) : M A := fun w => (a, w).

Definition bind {A B} (m : M A) (k : A -> M B) : M B :=
  fun w => let (a, w') := m w in k a w'.

Notation "'let*' x ':=' m 'in' k" := (bind m (fun x => k))
  (at level 10, x name, m at level 100, k at level 200).
Notation "'let*' ' p ':=' m 'in' k" := (bind m (fun p => k))
  (at level 10, p strict pattern, m at level 100, k at level 200).
Notation "m '>>' k" := (bind m (fun _ => k))
  (at level 60, right associativity).

Definition getW : M World := fun w => (w, w).
Definition modify (f : World -> World) : M unit := fun w => (tt, f w).
Definition modState (f : GameState -> GameState) : M unit :=
  modify (fun w => set_gameState (f (gameState w)) w).
Definition modStats (f : GameStats -> GameStats) : M unit :=
  modify (fun w => set_sessionStats (f (sessionStats w)) w).
Definition when (b : bool) (m : M unit) : M unit := if b then m else ret tt.
Definition exec {A} (m : M A) (w : World) : World := snd (m w).

(** [for (let i = from; i < from + n; i++) body(i)] *)
Fixpoint forFrom (from n : nat) (body : nat -> M unit) : M unit :=
  match n with
  | O => ret tt
  | S n' => body from >> forFrom (S from) n' body
  end.

Definition forN (n : nat) (body : nat -> M unit) : M unit := forFrom 0 n body.

(** [for (const a of l) body(a)] over a list that the body does not change. *)
Fixpoint forOf {A} (l : list A) (body : A -> M unit) : M unit :=
  match l with
  | [] => ret tt
  | a :: l' => body a >> forOf l' body
  end.

(** The props of the component that the simulation reads, and the oracle
    of [Math.random]: [random n] is the value of the draw number [n]. *)
Class GameProps := {
  difficulty : Difficulty;
  theme : Theme;
  initialTutorial : bool;
  random : nat -> R
}.

Section Game.

Context `{props : GameProps}.

Definition diffSettings : DifficultySettings := DIFFICULTY_SETTINGS difficulty.

(** [Math.random()] *)
Definition Math_random : M R :=
  fun w => (random (randomCount w), set_randomCount (S (randomCount w)) w).

(** *** Initial state: the refs at mount, after the pool initialisation
    effect has run (50 projectile slots, 600 particle slots). *)

Definition initialProjectile (i : nat) : Projectile :=
  mkProjectile (PoolId i) 0 0 0 0 RED GAME_CONFIG.PROJECTILE_RADIUS false.

Definition initialParticle (i : nat) : Particle :=
  mkParticle (ParticlePoolId i) 0 0 0 0 0 "#fff" 0 BURST false None.

Definition initialStats : GameStats :=
  mkStats 0 0 1 0 0 0 0 0 0 0 0 0 0 1
          (if decide (difficulty = HARD) then 1 else 0)%Z.

Definition initialGameState : GameState :=
  {| projectilePool := map initialProjectile (seq 0 50);
     particlePool := map initialParticle (seq 0 600);
     particleCursor := 0;
     targets := [];
     currentColor := RED;
     score := 0;
     level := 1;
     scoreSinceLastBoss := 0;
     bossActive := false;
     streak := 0;
     speedMultiplier := 1;
     baseSpawnInterval :=
       GAME_CONFIG.SPAWN_INTERVAL_START * spawnIntervalMultiplier diffSettings;
     nextSpawnDelay := 0;
     isGameOver := false;
     isEnding := false;
     shakeTimer := 0;
     time := 0;
     lastScoreMilestone := 0 |}.

Definition initialWorld : World :=
  {| gameState := initialGameState;
     sessionStats := initialStats;
     spawnTimer :=
       GAME_CONFIG.SPAWN_INTERVAL_START * spawnIntervalMultiplier diffSettings + 100;
     lastTime := 0;
     lastShotTime := 0;
     dimensions := mkDimensions 0 0;
     tutorialStep := if initialTutorial then 1 else 0;
     randomCount := 0;
     handoffTimers := [];
     shooterPulse := false;
     pulseTimers := [] |}.

(** *** [handleColorSelect] *)

Definition tutorialTarget (c : ColorType) (d : GameDimensions) : Target :=
  {| id := TutorialTargetId;
     x := width d / 2;
     y := height d / 3;
     vx := 0; vy := 0;
     color := c;
     radius := GAME_CONFIG.TARGET_RADIUS;
     rotation := 0; rotationSpeed := 1.5;
     type := STATIONARY;
     shape := CIRCLE;
     health := 1;
     maxHealth := None; colorShiftTimer := None; initialY := None;
     timeOffset := None; summonTimer := None |}.

Definition handleColorSelect (c : ColorType) : M unit :=
  modState (set_currentColor c) >>
  let* w := getW in
  if (tutorialStep w =? 1)%Z then
    modify (set_tutorialStep 2) >>
    modState (fun s => set_targets (targets s ++ [tutorialTarget c (dimensions w)]) s)
  else ret tt.

(** *** [spawnParticle]: the ring buffer of particles *)

(** [Object.assign(p, config); p.active = true;
     if (config.rotation === undefined) p.rotation = 0] *)
Definition assignParticle (p : Particle) (config : PartialParticle) : Particle :=
  {| pt_id := pt_id p;
     pt_x := default (pt_x p) (c_x config);
     pt_y := default (pt_y p) (c_y config);
     pt_vx := default (pt_vx p) (c_vx config);
     pt_vy := default (pt_vy p) (c_vy config);
     pt_life := default (pt_life p) (c_life config);
     pt_color := default (pt_color p) (c_color config);
     pt_size := default (pt_size p) (c_size config);
     pt_type := default (pt_type p) (c_type config);
     pt_active := true;
     pt_rotation := Some (default 0 (c_rotation config)) |}.

Definition spawnParticle (config : PartialParticle) : M unit :=
  let* w := getW in
  let state := gameState w in
  if (length (particlePool state) =? 0)%nat then ret tt
  else
    let idx := particleCursor state in
    let p := particlePool state !! idx in
    modState (set_particleCursor ((idx + 1) mod length (particlePool state))) >>
    match p with
    | Some p =>
        modState (fun s =>
          set_particlePool (<[idx := assignParticle p config]> (particlePool s)) s)
    | None => ret tt
    end.

(** The object literals passed to [spawnParticle]. *)
Definition particleConfig (px py pvx pvy plife : R) (pcolor : string)
    (psize : R) (ptype : ParticleType) : PartialParticle :=
  mkPartial (Some px) (Some py) (Some pvx) (Some pvy) (Some plife)
            (Some pcolor) (Some psize) (Some ptype) None None.

Definition particleConfigActive (px py pvx pvy plife : R) (pcolor : string)
    (psize : R) (ptype : ParticleType) : PartialParticle :=
  mkPartial (Some px) (Some py) (Some pvx) (Some pvy) (Some plife)
            (Some pcolor) (Some psize) (Some ptype) (Some true) None.

(** *** [getAimAssistVector] *)

Record AimVector := mkAim { av_vx : R; av_vy : R; assisted : bool }.

Definition ASSIST_CONE_ANGLE : R := 15 * (PI / 180).
Definition ASSIST_STRENGTH : R := 0.3.

(** The variables of the search loop; [minAngleDiff = None] is [Infinity]. *)
Record AimSearch := mkSearch {
  bestTarget : option Target;
  minAngleDiff : option R;
  perfectVx : R;
  perfectVy : R
}.

(** The angular deviation of target [t] from the aim direction. *)
Definition angleDiffTo (startX startY baseAngle : R) (t : Target) : R :=
  let dx := x t - startX in
  let dy := y t - startY in
  let angleToTarget := JsMath.atan2 dy dx in
  let angleDiff := Rabs (angleToTarget - baseAngle) in
  if JsMath.ltb PI angleDiff then 2 * PI - angleDiff else angleDiff.

Definition belowMin (a : R) (m : option R) : bool :=
  match m with
  | None => true
  | Some m => JsMath.ltb a m
  end.

(** One iteration of [for (const t of targets)]. *)
Definition aimStep (cur : ColorType) (startX startY baseAngle speed : R)
    (acc : AimSearch) (t : Target) : AimSearch :=
  if negb (bool_decide (color t = cur)) then acc
  else
    let dx := x t - startX in
    let dy := y t - startY in
    let dist := sqrt (dx * dx + dy * dy) in
    if JsMath.leb dist 0.1 then acc
    else
      let angleDiff := angleDiffTo startX startY baseAngle t in
      if JsMath.ltb angleDiff ASSIST_CONE_ANGLE && belowMin angleDiff (minAngleDiff acc)
      then mkSearch (Some t) (Some angleDiff) ((dx / dist) * speed) ((dy / dist) * speed)
      else acc.

Definition getAimAssistVector (cur : ColorType)
    (startX startY baseVx baseVy : R) (ts : list Target) : AimVector :=
  let baseAngle := JsMath.atan2 baseVy baseVx in
  let speed := sqrt (baseVx * baseVx + baseVy * baseVy) in
  if JsMath.ltb speed 0.1 then mkAim baseVx baseVy false
  else
    let found :=
      fold_left (aimStep cur startX startY baseAngle speed) ts
                (mkSearch None None 0 0) in
    match bestTarget found with
    | Some _ =>
        let newVx := baseVx + (perfectVx found - baseVx) * ASSIST_STRENGTH in
        let newVy := baseVy + (perfectVy found - baseVy) * ASSIST_STRENGTH in
        let newSpeed := sqrt (newVx * newVx + newVy * newVy) in
        if JsMath.ltb 0 newSpeed
        then mkAim ((newVx / newSpeed) * speed) ((newVy / newSpeed) * speed) true
        else mkAim baseVx baseVy false
    | None => mkAim baseVx baseVy false
    end.

(** *** [shoot] *)

(** The slot [shoot] pushes when every slot of the pool is in flight. *)
Definition extraProjectile : Projectile :=
  mkProjectile PoolExtraId 0 0 0 0 RED GAME_CONFIG.PROJECTILE_RADIUS false.

Definition muzzleFlash (shooterX shooterY : R) : M unit :=
  forN 3 (fun _ =>
    let* r1 := Math_random in
    let* r2 := Math_random in
    let* r3 := Math_random in
    let* r4 := Math_random in
    spawnParticle
      (particleConfig shooterX (shooterY - GAME_CONFIG.SHOOTER_RADIUS)
         ((r1 - 0.5) * 3) (-1 - r2 * 2) (0.2 + r3 * 0.1)
         (if decide (theme = dark) then "#ffffff"%string else "#334155"%string)
         (8 + r4 * 8) BURST)).

(** [setShooterPulse(true); setTimeout(() => setShooterPulse(false), 150)] *)
Definition pulseShooter : M unit :=
  modify (set_shooterPulse true) >>
  modify (fun w => set_pulseTimers (pulseTimers w ++ [150]) w).

(** [shoot(targetX, targetY)], called when [Date.now()] is [now]. *)
Definition shoot (now targetX targetY : R) : M unit :=
  let* w := getW in
  let state := gameState w in
  if (tutorialStep w =? 1)%Z then ret tt
  else if JsMath.ltb (now - lastShotTime w) 150 then ret tt
  else if isGameOver state || isEnding state then ret tt
  else
    let width := width (dimensions w) in
    let height := height (dimensions w) in
    if JsMath.eqb width 0 || JsMath.eqb height 0 then ret tt
    else if JsMath.ltb (height - GAME_CONFIG.CONTROLS_HEIGHT) targetY then ret tt
    else
      let shooterX := width / 2 in
      let shooterY := height - GAME_CONFIG.CONTROLS_HEIGHT - 20 in
      pulseShooter >>
      let dx := targetX - shooterX in
      let dy := targetY - shooterY in
      let distance := sqrt (dx * dx + dy * dy) in
      if JsMath.ltb distance 1 then ret tt
      else
        let speed := GAME_CONFIG.PROJECTILE_SPEED in
        let rawVx := (dx / distance) * speed in
        let rawVy := (dy / distance) * speed in
        let aim :=
          getAimAssistVector (currentColor state) shooterX shooterY rawVx rawVy
                             (targets state) in
        let pool := projectilePool state in
        let '(slot, pool) :=
          match list_find (fun p => pj_active p = false) pool with
          | Some (i, _) => (i, pool)
          | None => (length pool, pool ++ [extraProjectile])
          end in
        let* r := Math_random in
        modState (set_projectilePool
          (alter (fun p =>
             mkProjectile (ShotId now r) shooterX shooterY (av_vx aim) (av_vy aim)
                          (currentColor state) (pj_radius p) true) slot pool)) >>
        modStats (fun st => set_shotsFired (shotsFired st + 1) st) >>
        muzzleFlash shooterX shooterY >>
        modify (set_lastShotTime now) >>
        when (tutorialStep w =? 2)%Z (modify (set_tutorialStep 0)).

(** *** [spawnHitParticles] *)

(** The [type] argument: a target type or the string ['MISS']. *)
Inductive HitKind := HitOf (t : TargetType) | MISS.

#[global] Instance HitKind_eq_dec : EqDecision HitKind.
Proof. solve_decision. Defined.

Definition sparks (n : nat) (px py spread life : R) (pcolor : string) (size : R) : M unit :=
  forN n (fun _ =>
    let* r1 := Math_random in
    let* r2 := Math_random in
    spawnParticle
      (particleConfig px py ((r1 - 0.5) * spread) ((r2 - 0.5) * spread)
                      life pcolor size SPARK)).

(** The [count], [speedBase], [sizeBase] and [color] variables after the
    branch on [type]. *)
Definition hitCount (kind : HitKind) (accuracy : R) : Z :=
  match kind with
  | MISS => 20
  | HitOf BOSS => 80
  | HitOf TOUGH => 25
  | HitOf SPLIT => 30
  | HitOf _ => 12 + JsMath.floor (accuracy * 15)
  end.

Definition hitSpeedBase (kind : HitKind) (accuracy : R) : R :=
  match kind with
  | MISS => 5
  | HitOf BOSS => 15
  | HitOf TOUGH => 9
  | HitOf _ => 4 + accuracy * 3
  end.

Definition hitSizeBase (kind : HitKind) : R :=
  match kind with
  | HitOf BOSS => 10
  | _ => 5
  end.

Definition hitColor (kind : HitKind) (pcolor : string) : string :=
  match kind with
  | MISS => if decide (theme = dark) then "#94a3b8" else "#475569"
  | HitOf _ => pcolor
  end.

(** The particles a branch on [type] spawns itself. *)
Definition hitExtras (px py : R) (pcolor : string) (kind : HitKind) : M unit :=
  match kind with
  | MISS =>
      forN 8 (fun _ =>
        let* r1 := Math_random in
        let* r2 := Math_random in
        let* r3 := Math_random in
        let* r4 := Math_random in
        spawnParticle
          (particleConfig px py ((r1 - 0.5) * 6) (-2 - r2 * 5) (0.8 + r3 * 0.5)
                          (hitColor MISS pcolor) (4 + r4 * 4) DEBRIS))
  | HitOf BOSS =>
      spawnParticle (particleConfigActive px py 0 0 1.2 pcolor 250 RING) >>
      spawnParticle (particleConfigActive px py 0 0 1.0 "#fff"%string 180 RING)
  | HitOf TOUGH => sparks 10 px py 15 0.3 "#ffff00"%string 3
  | HitOf SPLIT =>
      spawnParticle
        (particleConfigActive px py 0 0 0.8 pcolor
                              (GAME_CONFIG.TARGET_RADIUS * 2.5) RING)
  | HitOf _ => ret tt
  end.

Definition spawnHitParticles (px py : R) (pcolor : string) (kind : HitKind)
    (accuracy : R) : M unit :=
  let count := hitCount kind accuracy in
  let speedBase := hitSpeedBase kind accuracy in
  let sizeBase := hitSizeBase kind in
  hitExtras px py pcolor kind >>
  forN (Z.to_nat count) (fun _ =>
    let* r1 := Math_random in
    let angle := r1 * PI * 2 in
    let* r2 := Math_random in
    let speed := r2 * speedBase + speedBase * 0.2 in
    let* r3 := Math_random in
    let pColor := if JsMath.ltb 0.8 r3 then "#ffffff"%string else hitColor kind pcolor in
    let* r4 := Math_random in
    let* r5 := Math_random in
    spawnParticle
      (particleConfig px py (cos angle * speed) (sin angle * speed)
                      (0.4 + r4 * 0.4) pColor (r5 * sizeBase + 2) BURST)) >>
  when (JsMath.ltb 0.8 accuracy && negb (bool_decide (kind = MISS)))
       (sparks 8 px py 20 0.25 "#ffffff"%string 2).

(** *** [animate], part 1: the particles *)

(** [timeFactor] of a frame that took [deltaTime] milliseconds. *)
Definition timeFactorOf (deltaTime : R) : R := Rmin (deltaTime / 16.667) 4.

Definition advanceParticle (timeFactor : R) (p : Particle) : Particle :=
  match pt_type p with
  | TRAIL =>
      set_pt_life (pt_life p - 0.1 * timeFactor) (set_pt_size (pt_size p * 0.75) p)
  | DEBRIS =>
      let p := set_pt_vy (pt_vy p + 0.4 * timeFactor) p in
      let p := set_pt_x (pt_x p + pt_vx p * timeFactor) p in
      let p := set_pt_y (pt_y p + pt_vy p * timeFactor) p in
      let p := set_pt_life (pt_life p - 0.015 * timeFactor) p in
      set_pt_rotation (Some (default 0 (pt_rotation p) + 5)) p
  | RING =>
      set_pt_life (pt_life p - 0.05 * timeFactor)
                  (set_pt_size (pt_size p + 15 * timeFactor) p)
  | SPARK =>
      let p := set_pt_x (pt_x p + pt_vx p * timeFactor) p in
      let p := set_pt_y (pt_y p + pt_vy p * timeFactor) p in
      set_pt_life (pt_life p - 0.05 * timeFactor) p
  | BURST =>
      let p := set_pt_vx (pt_vx p * 0.92) p in
      let p := set_pt_vy (pt_vy p * 0.92) p in
      let p := set_pt_x (pt_x p + pt_vx p * timeFactor) p in
      let p := set_pt_y (pt_y p + pt_vy p * timeFactor) p in
      let p := set_pt_life (pt_life p - 0.03 * timeFactor) p in
      set_pt_size (pt_size p * 0.95) p
  end.

(** The body of [for (const p of state.particlePool)]. *)
Definition updateParticle (timeFactor : R) (p : Particle) : Particle :=
  if negb (pt_active p) then p
  else
    let p := advanceParticle timeFactor p in
    if JsMath.leb (pt_life p) 0.01 || JsMath.ltb (pt_size p) 0.5
    then set_pt_active false p
    else p.

Definition updateParticles (timeFactor : R) : M unit :=
  modState (fun s => set_particlePool (map (updateParticle timeFactor) (particlePool s)) s).

(** [if (state.shakeTimer > 0) state.shakeTimer -= deltaTime] *)
Definition shakeTick (deltaTime : R) : M unit :=
  modState (fun s =>
    set_shakeTimer
      (if JsMath.ltb 0 (shakeTimer s) then shakeTimer s - deltaTime else shakeTimer s) s).

(** *** [animate], part 2: the spawn director *)

(** [COLOR_KEYS[i]], and the same for the other arrays indexed by
    [Math.floor(Math.random() * length)]. The oracle of [Math.random] ranges
    over the interval from 0 to 1, so the index is within the array; the
    default only makes the lookup total. *)
Definition pick {A} (d : A) (l : list A) (r : R) : A :=
  default d (l !! Z.to_nat (JsMath.floor (r * INR (length l)))).

(** [state.targets.filter(t => Math.random() > 0.6)] *)
Fixpoint thinTargets (ts : list Target) : M (list Target) :=
  match ts with
  | [] => ret []
  | t :: ts' =>
      let* r := Math_random in
      let* rest := thinTargets ts' in
      ret (if JsMath.ltb 0.6 r then t :: rest else rest)
  end.

Definition bossTarget (width vx0 : R) (bossColor : ColorType) (lvl : Z) : Target :=
  {| id := BossId;
     x := width / 2;
     y := -120;
     vx := vx0;
     vy := 3;
     color := bossColor;
     radius := GAME_CONFIG.BOSS_RADIUS;
     rotation := 0; rotationSpeed := 1;
     type := BOSS;
     shape := STAR;
     health := 10 + IZR lvl * 5 * bossHealthMulti diffSettings;
     maxHealth := Some (10 + IZR lvl * 5 * bossHealthMulti diffSettings);
     colorShiftTimer := Some 0;
     initialY := None; timeOffset := None;
     summonTimer := Some 4000 |}.

Definition pointsForNextLevel (state : GameState) : R :=
  GAME_CONFIG.POINTS_PER_LEVEL + IZR (level state) * 100.

(** The [// Boss Trigger] block. *)
Definition bossTrigger (width : R) : M unit :=
  let* w := getW in
  let state := gameState w in
  if negb (bossActive state)
     && JsMath.ltb (pointsForNextLevel state) (scoreSinceLastBoss state)
  then
    modState (set_bossActive true) >>
    modState (set_scoreSinceLastBoss 0) >>
    let* kept := thinTargets (targets state) in
    modState (set_targets kept) >>
    let* r1 := Math_random in
    let bossColor := pick RED COLOR_KEYS r1 in
    let* r2 := Math_random in
    modState (fun s =>
      set_targets (targets s ++ [bossTarget width ((r2 - 0.5) * 2) bossColor (level s)]) s)
  else ret tt.

(** [calculatedMax] and [currentMaxTargets]. *)
Definition calculatedMax (state : GameState) : Z :=
  JsMath.floor (maxTargets diffSettings * (1 + (speedMultiplier state - 1) * 0.5)).

Definition currentMaxTargets (state : GameState) : Z :=
  Z.min (calculatedMax state) 24.

Definition availableShapes (lvl : Z) : list TargetShape :=
  [CIRCLE] ++ (if (2 <=? lvl)%Z then [SQUARE] else [])
           ++ (if (3 <=? lvl)%Z then [TRIANGLE] else [])
           ++ (if (4 <=? lvl)%Z then [DIAMOND] else []).

Definition specialChance : R :=
  match difficulty with
  | EASY => 0.15
  | MEDIUM => 0.35
  | HARD => 0.6
  end.

Definition typeOfRoll (typeRoll : R) : TargetType :=
  if JsMath.ltb typeRoll 0.25 then TOUGH
  else if JsMath.ltb typeRoll 0.45 then SPLIT
  else if JsMath.ltb typeRoll 0.65 then STATIONARY
  else if JsMath.ltb typeRoll 0.85 then COLOR_SHIFT
  else SINE_WAVE.

(** The body of [if (validPosition)]: rolls the kind of the target and
    pushes it. *)
Definition spawnTarget (randomColor : ColorType) (startX startY playableHeight : R)
  : M unit :=
  let* w := getW in
  let state := gameState w in
  let radius := GAME_CONFIG.TARGET_RADIUS in
  let* ra := Math_random in
  let angle := ra * PI * 2 in
  let speed :=
    GAME_CONFIG.TARGET_SPEED_BASE * speedMultiplier state * ds_speedMultiplier diffSettings in
  let* rs := Math_random in
  let targetShape := pick CIRCLE (availableShapes (level state)) rs in
  let* roll := Math_random in
  let* targetType :=
    if (JsMath.leb 15 (score state) || negb (bool_decide (difficulty = EASY)))
       && JsMath.ltb roll specialChance
    then (let* typeRoll := Math_random in ret (typeOfRoll typeRoll))
    else ret NORMAL in
  let vx0 := cos angle * speed in
  let vy0 := sin angle * speed in
  let* '(targetHealth, vx1, vy1, startY1) :=
    match targetType with
    | TOUGH => ret (3, vx0 * 0.8, vy0 * 0.8, startY)
    | STATIONARY => ret (1, 0, 0, startY)
    | SINE_WAVE =>
        let* rd := Math_random in
        ret (1, (if JsMath.ltb 0.5 rd then 1 else -1) * speed * 1.2, 0,
             Rmax (radius + 70) (Rmin (playableHeight - radius - 70) startY))
    | _ => ret (1, vx0, vy0, startY)
    end in
  let* rid := Math_random in
  let* rrot := Math_random in
  let* rspd := Math_random in
  let* roff := Math_random in
  modState (fun s =>
    set_targets
      (targets s ++
        [ {| id := RandomId rid;
             x := startX; y := startY1; vx := vx1; vy := vy1;
             color := randomColor;
             radius := radius;
             rotation := rrot * 360;
             rotationSpeed := (rspd - 0.5) * 2;
             type := targetType;
             shape := targetShape;
             health := targetHealth;
             maxHealth := None;
             colorShiftTimer := Some 0;
             initialY := Some startY1;
             timeOffset := Some (roff * 1000);
             summonTimer := None |} ]) s).

(** The body of [if (state.targets.length < currentMaxTargets && ...)]. *)
Definition trySpawn (width playableHeight : R) : M unit :=
  let* w := getW in
  let state := gameState w in
  let radius := GAME_CONFIG.TARGET_RADIUS in
  let* rc := Math_random in
  let randomColor := pick RED COLOR_KEYS rc in
  let* rx := Math_random in
  let startX := rx * (width - radius * 2) + radius in
  let* ry := Math_random in
  let startY := ry * (playableHeight * 0.6) + radius in
  let validPosition :=
    forallb (fun t =>
      negb (JsMath.ltb (JsMath.hypot (x t - startX) (y t - startY)) (radius * 2 + 40)))
      (targets state) in
  if validPosition then spawnTarget randomColor startX startY playableHeight
  else ret tt.

(** The spawn timer and the ordinary spawn. *)
Definition ordinarySpawn (deltaTime width playableHeight : R) : M unit :=
  modify (fun w => set_spawnTimer (spawnTimer w + deltaTime) w) >>
  let* w := getW in
  let state := gameState w in
  let effectiveSpawnDelay :=
    if bossActive state then nextSpawnDelay state * 4 else nextSpawnDelay state in
  if JsMath.ltb effectiveSpawnDelay (spawnTimer w) then
    modify (set_spawnTimer 0) >>
    let* r := Math_random in
    let intervalRandomness := 0.6 + r * 0.8 in
    modState (set_nextSpawnDelay (baseSpawnInterval state * intervalRandomness)) >>
    if (Z.of_nat (length (targets state)) <? currentMaxTargets state)%Z
       && (negb (bossActive state) || (length (targets state) <? 3)%nat)
    then trySpawn width playableHeight
    else ret tt
  else ret tt.

(** [// 2. Spawning Logic] *)
Definition spawning (deltaTime width playableHeight : R) : M unit :=
  bossTrigger width >> ordinarySpawn deltaTime width playableHeight.

(** *** [animate], part 3: target behaviour and motion *)

(** [COLOR_KEYS.filter(c => c !== target.color)] then a random pick. *)
Definition shiftColor (t : Target) (r : R) : Target :=
  let remainingColors := filter (fun c => c <> color t) COLOR_KEYS in
  set_color (pick RED remainingColors r) t.

Definition minion (k : nat) (mX mY vx0 vy0 : R) (c : ColorType) : Target :=
  {| id := MinionId k;
     x := mX; y := mY; vx := vx0; vy := vy0;
     color := c;
     radius := GAME_CONFIG.TARGET_RADIUS * 0.8;
     rotation := 0; rotationSpeed := 2;
     type := NORMAL; shape := CIRCLE; health := 1;
     maxHealth := None; colorShiftTimer := None; initialY := None;
     timeOffset := None; summonTimer := None |}.

(** The colour-shift ability shared by the boss and the COLOR_SHIFT
    targets: advances the timer and, past 2500 ms, changes colour. *)
Definition colorShiftAbility (deltaTime : R) (target : Target) : M Target :=
  let target :=
    set_colorShiftTimer (Some (default 0 (colorShiftTimer target) + deltaTime)) target in
  if JsMath.ltb 2500 (default 0 (colorShiftTimer target)) then
    let target := set_colorShiftTimer (Some 0) target in
    let* r := Math_random in
    let target := shiftColor target r in
    spawnHitParticles (x target) (y target) "#ffffff"%string (HitOf COLOR_SHIFT) 0.5 >>
    ret target
  else ret target.

(** The summon ability of the boss: pushes two minions every 5000 ms. *)
Definition summonAbility (deltaTime : R) (target : Target) : M Target :=
  let target :=
    set_summonTimer (Some (default 0 (summonTimer target) - deltaTime)) target in
  if JsMath.leb (default 0 (summonTimer target)) 0 then
    let target := set_summonTimer (Some 5000) target in
    forN 2 (fun k =>
      let* r1 := Math_random in
      let angle := r1 * PI * 2 in
      let dist := radius target + 40 in
      let mX := x target + cos angle * dist in
      let mY := y target + sin angle * dist in
      let* r2 := Math_random in
      let* r3 := Math_random in
      modState (fun s =>
        set_targets
          (targets s ++ [minion k mX mY ((r2 - 0.5) * 3) ((r3 - 0.5) * 3) (color target)])
          s) >>
      spawnHitParticles mX mY (COLORS (color target)) (HitOf SPLIT) 0.5) >>
    ret target
  else ret target.

(** [if (target.maxHealth && target.health < target.maxHealth * 0.4)] *)
Definition enrage (target : Target) : Target :=
  match maxHealth target with
  | Some mh =>
      if negb (JsMath.eqb mh 0) && JsMath.ltb (health target) (mh * 0.4) then
        let target := set_rotationSpeed 5 target in
        let target :=
          if JsMath.ltb (Rabs (vx target)) 2 then set_vx (vx target * 1.01) target
          else target in
        if JsMath.ltb (Rabs (vy target)) 2 then set_vy (vy target * 1.01) target
        else target
      else target
  | None => target
  end.

(** [// Boss Constraints]: the boss keeps to the top of the arena. *)
Definition bossConstraints (playableHeight : R) (target : Target) : Target :=
  let target :=
    if JsMath.ltb (y target) (radius target) && JsMath.ltb (vy target) 0
    then set_vy (Rabs (vy target)) target
    else target in
  if JsMath.ltb (playableHeight * 0.6) (y target)
  then set_vy (- Rabs (vy target) * 1.2) target
  else target.

(** Motion integration at the end of the [forEach] callback. *)
Definition moveTarget (timeFactor time : R) (target : Target) : Target :=
  let target :=
    match type target, initialY target with
    | SINE_WAVE, Some iy =>
        let target := set_x (x target + vx target * timeFactor) target in
        set_y (iy + sin ((time + default 0 (timeOffset target)) * 0.004) * 60) target
    | _, _ =>
        let target := set_x (x target + vx target * timeFactor) target in
        set_y (y target + vy target * timeFactor) target
    end in
  set_rotation (rotation target + rotationSpeed target * timeFactor) target.

(** The callback of [state.targets.forEach], on the target at index [i]. The
    target object is updated in place; minions are pushed behind it. *)
Definition targetLogic (deltaTime timeFactor playableHeight : R) (i : nat) : M unit :=
  let* w := getW in
  match targets (gameState w) !! i with
  | None => ret tt
  | Some target =>
      let* target :=
        match type target with
        | BOSS =>
            let target := bossConstraints playableHeight target in
            let* target := colorShiftAbility deltaTime target in
            let* target := summonAbility deltaTime target in
            ret (enrage target)
        | COLOR_SHIFT => colorShiftAbility deltaTime target
        | _ => ret target
        end in
      let* w' := getW in
      let target := moveTarget timeFactor (time (gameState w')) target in
      modState (fun s => set_targets (<[i := target]> (targets s)) s)
  end.

(** [// 3. Physics & Logic]. [forEach] visits the indices that exist when it
    starts; the minions pushed during the traversal are not visited. *)
Definition physicsAndLogic (deltaTime timeFactor playableHeight : R) : M unit :=
  modState (fun s =>
    let scoreMilestone := JsMath.floor (score s / 20) in
    let reached := (lastScoreMilestone s <? scoreMilestone)%Z in
    set_speedMultiplier
      (if reached then Rmin 2.5 (speedMultiplier s + 0.05) else speedMultiplier s)
      (set_lastScoreMilestone
         (if reached then scoreMilestone else lastScoreMilestone s) s)) >>
  let* w := getW in
  forN (length (targets (gameState w))) (targetLogic deltaTime timeFactor playableHeight).

(** *** [animate], part 4: collisions and walls *)

Definition getMass (t : Target) : R :=
  if decide (type t = BOSS) then 100
  else if decide (type t = TOUGH) then 3 else 1.

(** [invM]: a STATIONARY target has infinite mass. *)
Definition invMass (t : Target) : R :=
  if decide (type t = STATIONARY) then 0 else 1 / getMass t.

Definition movable (t : Target) : bool := negb (bool_decide (type t = STATIONARY)).

(** The body of the loop over the pairs [i < j], on the two target objects. *)
Definition resolvePair (t1 t2 : Target) : Target * Target :=
  let dx := x t2 - x t1 in
  let dy := y t2 - y t1 in
  let distSq := dx * dx + dy * dy in
  let minDist := radius t1 + radius t2 in
  if JsMath.ltb distSq (minDist * minDist) then
    let dist := sqrt distSq in
    if JsMath.ltb dist 0.1 then (t1, t2)
    else
      let nx := dx / dist in
      let ny := dy / dist in
      let overlap := minDist - dist in
      let invM1 := invMass t1 in
      let invM2 := invMass t2 in
      let totalInvMass := invM1 + invM2 in
      if JsMath.ltb 0 totalInvMass then
        let correctionPercent := 0.8 in
        let moveX := nx * (overlap * correctionPercent) / totalInvMass in
        let moveY := ny * (overlap * correctionPercent) / totalInvMass in
        let dvx := vx t2 - vx t1 in
        let dvy := vy t2 - vy t1 in
        let t1 :=
          if movable t1
          then set_y (y t1 - moveY * invM1) (set_x (x t1 - moveX * invM1) t1)
          else t1 in
        let t2 :=
          if movable t2
          then set_y (y t2 + moveY * invM2) (set_x (x t2 + moveX * invM2) t2)
          else t2 in
        let velAlongNormal := dvx * nx + dvy * ny in
        if JsMath.ltb velAlongNormal 0 then
          let restitution := 0.9 in
          let j := - (1 + restitution) * velAlongNormal / totalInvMass in
          let impulseX := j * nx in
          let impulseY := j * ny in
          let t1 :=
            if movable t1
            then set_vy (vy t1 - impulseY * invM1) (set_vx (vx t1 - impulseX * invM1) t1)
            else t1 in
          let t2 :=
            if movable t2
            then set_vy (vy t2 + impulseY * invM2) (set_vx (vx t2 + impulseX * invM2) t2)
            else t2 in
          (t1, t2)
        else (t1, t2)
      else (t1, t2)
  else (t1, t2).

Definition collidePair (i j : nat) (ts : list Target) : list Target :=
  match ts !! i, ts !! j with
  | Some t1, Some t2 =>
      let '(t1', t2') := resolvePair t1 t2 in
      <[j := t2']> (<[i := t1']> ts)
  | _, _ => ts
  end.

(** [for (i = 0; i < n; i++) for (j = i + 1; j < n; j++)] *)
Definition collideAll (ts : list Target) : list Target :=
  let n := length ts in
  fold_left
    (fun ts i => fold_left (fun ts j => collidePair i j ts) (seq (S i) (n - S i)) ts)
    (seq 0 n) ts.

(** [// Wall Constraints] *)
Definition wallConstraint (width playableHeight : R) (target : Target) : Target :=
  let target :=
    if JsMath.ltb (x target - radius target) 0 then
      set_vx (Rabs (vx target) * 0.9) (set_x (radius target) target)
    else if JsMath.ltb width (x target + radius target) then
      set_vx (- Rabs (vx target) * 0.9) (set_x (width - radius target) target)
    else target in
  if negb (bool_decide (type target = SINE_WAVE)) && negb (bool_decide (type target = BOSS))
  then
    if JsMath.ltb (y target - radius target) 0 then
      set_vy (Rabs (vy target) * 0.9) (set_y (radius target) target)
    else if JsMath.ltb playableHeight (y target + radius target) then
      set_vy (- Rabs (vy target) * 0.9) (set_y (playableHeight - radius target) target)
    else target
  else target.

Definition physicsStep (width playableHeight : R) (ts : list Target) : list Target :=
  map (wallConstraint width playableHeight) (collideAll ts).

(** [// 4. Refined Collision Physics], with [physicsSteps = 2]. *)
Definition collisionPhysics (width playableHeight : R) : M unit :=
  modState (fun s =>
    set_targets
      (physicsStep width playableHeight (physicsStep width playableHeight (targets s))) s).

(** *** [animate], part 5: projectiles and hits *)

(** [dist < target.radius + 8] *)
Definition hitDistance (proj : Projectile) (target : Target) : R :=
  let dx := pj_x proj - x target in
  let dy := pj_y proj - y target in
  sqrt (dx * dx + dy * dy).

Definition inHitRange (proj : Projectile) (target : Target) : bool :=
  JsMath.ltb (hitDistance proj target) (radius target + 8).

(** [for (let i = n - 1; i >= 0; i--)] up to the first target in range. *)
Fixpoint findHit (proj : Projectile) (ts : list Target) (n : nat) : option nat :=
  match n with
  | O => None
  | S i =>
      match ts !! i with
      | Some target => if inHitRange proj target then Some i else findHit proj ts i
      | None => findHit proj ts i
      end
  end.

(** The combo multiplier, as the three successive [if]s of the source. *)
Definition streakMultiplier (s : Z) : R :=
  let multiplier := 1 in
  let multiplier := if (5 <? s)%Z then 1.5 else multiplier in
  let multiplier := if (10 <? s)%Z then 2 else multiplier in
  if (20 <? s)%Z then 3 else multiplier.

(** [TARGET_SCORES[target.type] || 10] *)
Definition baseScoreOf (ty : TargetType) : R :=
  if JsMath.eqb (TARGET_SCORES ty) 0 then 10 else TARGET_SCORES ty.

(** The block [if (target.type === TargetType.BOSS)] of a destruction. *)
Definition bossDefeated : M unit :=
  modState (fun s => set_level (level s + 1) s) >>
  modState (set_bossActive false) >>
  modState (set_scoreSinceLastBoss 0) >>
  modStats (fun st => set_bossKills (bossKills st + 1) st) >>
  (let* w := getW in
   modStats (fun st => set_highestLevel (Z.max (highestLevel st) (level (gameState w))) st)) >>
  modState (fun s => set_speedMultiplier (speedMultiplier s + 0.2) s) >>
  modState (fun s => set_baseSpawnInterval (Rmax 300 (baseSpawnInterval s - 50)) s).

(** [// Stats tracking] *)
Definition trackKill (ty : TargetType) (st : GameStats) : GameStats :=
  let st := set_targetsHit (targetsHit st + 1) st in
  let st := if decide (ty = TOUGH) then set_toughKills (toughKills st + 1) st else st in
  let st := if decide (ty = SPLIT) then set_splitKills (splitKills st + 1) st else st in
  let st :=
    if decide (ty = STATIONARY) then set_stationaryKills (stationaryKills st + 1) st else st in
  let st :=
    if decide (ty = COLOR_SHIFT) then set_colorShiftKills (colorShiftKills st + 1) st else st in
  if decide (ty = SINE_WAVE) then set_sineWaveKills (sineWaveKills st + 1) st else st.

(** A child of a destroyed SPLIT target; [k] is the loop index. *)
Definition splitChild (target : Target) (k : nat) (rid rspd : R) : Target :=
  let childRadius := radius target * 0.6 in
  let angleOffset := (if (k =? 0)%nat then 1 else -1) * (PI / 3) in
  let baseAngle := JsMath.atan2 (vy target) (vx target) in
  let newAngle := baseAngle + angleOffset in
  let speed := Rmax 4 (sqrt (vx target * vx target + vy target * vy target) * 1.5) in
  {| id := RandomId rid;
     x := x target + cos newAngle * 20;
     y := y target + sin newAngle * 20;
     vx := cos newAngle * speed; vy := sin newAngle * speed;
     color := color target; radius := childRadius;
     rotation := 0; rotationSpeed := (rspd - 0.5) * 8;
     type := NORMAL; shape := CIRCLE; health := 1;
     maxHealth := None; colorShiftTimer := None; initialY := None;
     timeOffset := None; summonTimer := None |}.

Definition splitChildren (target : Target) : M unit :=
  forN 2 (fun k =>
    let* rid := Math_random in
    let* rspd := Math_random in
    modState (fun s => set_targets (targets s ++ [splitChild target k rid rspd]) s)).

(** The block [if (destroy)]: the target at index [i] is removed. *)
Definition destroyTarget (i : nat) (target : Target) (accuracy : R) : M unit :=
  let* w := getW in
  let multiplier := streakMultiplier (streak (gameState w)) in
  let baseScore := baseScoreOf (type target) in
  modState (fun s =>
    set_score (score s + baseScore * scoreMultiplier diffSettings * multiplier) s) >>
  modState (fun s =>
    set_scoreSinceLastBoss
      (scoreSinceLastBoss s
       + (if decide (type target = BOSS) then 50 else baseScore * multiplier)) s) >>
  when (bool_decide (type target = BOSS)) bossDefeated >>
  modStats (trackKill (type target)) >>
  modState (fun s => set_targets (delete i (targets s)) s) >>
  spawnHitParticles (x target) (y target) (COLORS (color target)) (HitOf (type target))
                    (accuracy + 0.5) >>
  when (bool_decide (type target = SPLIT)) (splitChildren target).

(** The branch [// HIT]: the colours match. *)
Definition matchHit (proj : Projectile) (i : nat) (target : Target) (accuracy : R)
  : M unit :=
  modState (fun s => set_streak (streak s + 1) s) >>
  (let* w := getW in
   modStats (fun st =>
     set_highestStreak
       (if (highestStreak st <? streak (gameState w))%Z
        then streak (gameState w) else highestStreak st) st)) >>
  modState (set_shakeTimer 150) >>
  if (bool_decide (type target = TOUGH) || bool_decide (type target = BOSS))
     && JsMath.ltb 1 (health target)
  then
    modState (fun s =>
      set_targets (<[i := set_health (health target - 1) target]> (targets s)) s) >>
    modState (fun s =>
      set_score
        (score s + (if decide (type target = BOSS) then 10 else 5)
                   * scoreMultiplier diffSettings) s) >>
    modState (fun s => set_scoreSinceLastBoss (scoreSinceLastBoss s + 10) s) >>
    spawnHitParticles (pj_x proj) (pj_y proj)
                      (if decide (theme = dark) then "#ffffff" else "#000000")%string
                      (HitOf TOUGH) accuracy
  else destroyTarget i target accuracy.

(** The branch [// MISMATCH]: the session ends; [onGameOver] is scheduled
    1000 ms later. *)
Definition mismatchHit (proj : Projectile) : M unit :=
  modState (set_streak 0) >>
  modState (set_isEnding true) >>
  modState (set_shakeTimer 500) >>
  spawnHitParticles (pj_x proj) (pj_y proj) "#94a3b8"%string MISS 0.5 >>
  modStats (fun st => set_targetsMissed (targetsMissed st + 1) st) >>
  (let* w := getW in
   modStats (set_totalScore (JsMath.floor (score (gameState w))))) >>
  modify (fun w => set_handoffTimers (handoffTimers w ++ [1000]) w).

(** The body of [if (dist < target.radius + 8)], without the final
    deactivation of the projectile. *)
Definition resolveHit (proj : Projectile) (i : nat) (target : Target) : M unit :=
  let dist := hitDistance proj target in
  let accuracy := Rmax 0 (1 - dist / radius target) in
  if decide (pj_color proj = color target)
  then matchHit proj i target accuracy
  else mismatchHit proj.

Definition outOfArena (proj : Projectile) (width height : R) : bool :=
  JsMath.ltb (pj_x proj) (-50) || JsMath.ltb (width + 50) (pj_x proj)
  || JsMath.ltb (pj_y proj) (-50) || JsMath.ltb (height + 50) (pj_y proj).

Definition deactivate (slot : nat) : M unit :=
  modState (fun s =>
    set_projectilePool (alter (set_pj_active false) slot (projectilePool s)) s).

(** The scan of the targets for the projectile [proj] of slot [slot]: the
    first target in range from the end of the list is hit and the
    projectile is spent; without a hit the projectile is dropped once it has
    left the arena. *)
Definition hitOrLeave (proj : Projectile) (slot : nat) (width height : R) : M unit :=
  let* w := getW in
  let ts := targets (gameState w) in
  match findHit proj ts (length ts) with
  | Some i =>
      match ts !! i with
      | Some target => resolveHit proj i target >> deactivate slot
      | None => ret tt
      end
  | None => when (outOfArena proj width height) (deactivate slot)
  end.

(** The body of [for (const proj of state.projectilePool)], on the slot
    [slot] of the pool. *)
Definition projectileStep (timeFactor width height : R) (slot : nat) : M unit :=
  let* w := getW in
  match projectilePool (gameState w) !! slot with
  | None => ret tt
  | Some proj =>
      if negb (pj_active proj) then ret tt
      else
        let proj := set_pj_x (pj_x proj + pj_vx proj * timeFactor) proj in
        let proj := set_pj_y (pj_y proj + pj_vy proj * timeFactor) proj in
        modState (fun s => set_projectilePool (<[slot := proj]> (projectilePool s)) s) >>
        let* r := Math_random in
        when (JsMath.ltb 0.6 r)
             (spawnParticle
                (particleConfig (pj_x proj) (pj_y proj) 0 0 0.25 (COLORS (pj_color proj))
                                (pj_radius proj * 0.6) TRAIL)) >>
        hitOrLeave proj slot width height
  end.

(** [// 5. Projectile Update] *)
Definition projectileUpdate (timeFactor width height : R) : M unit :=
  let* w := getW in
  forN (length (projectilePool (gameState w))) (projectileStep timeFactor width height).

(** *** [animate] *)

Definition animate (t : R) : M unit :=
  let* w0 := getW in
  when (JsMath.eqb (lastTime w0) 0) (modify (set_lastTime t)) >>
  let* w1 := getW in
  let deltaTime := t - lastTime w1 in
  modify (set_lastTime t) >>
  let timeFactor := timeFactorOf deltaTime in
  if isGameOver (gameState w1) && negb (isEnding (gameState w1)) then ret tt
  else
    updateParticles timeFactor >>
    if isEnding (gameState w1) then shakeTick deltaTime
    else
      let isTutorial := (0 <? tutorialStep w1)%Z in
      when (negb isTutorial) (modState (fun s => set_time (time s + deltaTime) s)) >>
      let width := width (dimensions w1) in
      let height := height (dimensions w1) in
      if JsMath.eqb width 0 || JsMath.eqb height 0 then ret tt
      else
        shakeTick deltaTime >>
        let playableHeight := height - GAME_CONFIG.CONTROLS_HEIGHT in
        when (negb isTutorial) (spawning deltaTime width playableHeight) >>
        when (negb isTutorial) (physicsAndLogic deltaTime timeFactor playableHeight) >>
        collisionPhysics width playableHeight >>
        projectileUpdate timeFactor width height.

(** *** The other entry points *)

(** The resize observer stores the size of the container. *)
Definition updateDimensions (d : GameDimensions) : M unit := modify (set_dimensions d).

(** The [Skip Tutorial] button. *)
Definition skipTutorial : M unit := modify (set_tutorialStep 0).

(** The callback of the timer that [shoot] sets, [setShooterPulse(false)],
    for the oldest of the pending timers: their delays are equal, so they
    expire in the order in which they were set. *)
Definition pulseTimeout : M unit :=
  let* w := getW in
  match pulseTimers w with
  | [] => ret tt
  | _ :: rest => modify (set_pulseTimers rest) >> modify (set_shooterPulse false)
  end.

(** What the callback of the [setTimeout] of a mismatch passes to
    [onGameOver] when it fires in world [w]. *)
Definition onGameOverArgs (w : World) : Z * GameStats :=
  (JsMath.floor (score (gameState w)), sessionStats w).

(** The events of a session. *)
Inductive Event :=
| Animate (t : R)
| Shoot (now targetX targetY : R)
| ColorSelect (c : ColorType)
| Resize (d : GameDimensions)
| SkipTutorial
| PulseTimeout.

Definition handle (e : Event) : M unit :=
  match e with
  | Animate t => animate t
  | Shoot now tx ty => shoot now tx ty
  | ColorSelect c => handleColorSelect c
  | Resize d => updateDimensions d
  | SkipTutorial => skipTutorial
  | PulseTimeout => pulseTimeout
  end.

(** The world after a sequence of events. *)
Definition run (es : list Event) (w : World) : World :=
  fold_left (fun w e => exec (handle e) w) es w.

(** The worlds a session can be in. *)
Definition reachable (w : World) : Prop := exists es, w = run es initialWorld.

(** *** The wheel, the mouse and the touch

    The listeners that the component registers beside the animation frame.
    [selectedColor], the React state read by the wheel listener, is written
    together with [currentColor] by [handleColorSelect] and nowhere else, so
    the model reads [currentColor]. [lastScrollTimeRef] is passed in and
    returned. *)




(** [handleMouseDown] *)
Definition handleMouseDown (now clientX clientY : R) : M unit :=
  let* w := getW in
  let height := height (dimensions w) in
  if negb (JsMath.eqb height 0) && JsMath.ltb (height - GAME_CONFIG.CONTROLS_HEIGHT) clientY
  then ret tt
  else shoot now clientX clientY.

(** [handleTouch], on an event that is [cancelable] or not and on the list
    [e.touches] of the positions of its touches. The result tells whether
    the listener has called [e.preventDefault()]. *)
Definition handleTouch (now : R) (cancelable : bool) (touches : list (R * R)) : M bool :=
  match touches with
  | [] => ret false
  | (clientX, clientY) :: _ =>
      let* w := getW in
      let height := height (dimensions w) in
      if negb (JsMath.eqb height 0)
         && JsMath.ltb (height - GAME_CONFIG.CONTROLS_HEIGHT) clientY
      then ret false
      else
        let defaultPrevented := cancelable in
        shoot now clientX clientY >> ret defaultPrevented
  end.

(** *** The heads-up display *)

(** [currentMultiplier], the combo badge, from the streak on display. *)
Definition currentMultiplier (streak : Z) : R :=
  if (20 <? streak)%Z then 3
  else if (10 <? streak)%Z then 2
  else if (5 <? streak)%Z then 1.5
  else 1.

(** The argument of [setLevelProgress] after a change of the score. *)
Definition levelProgress (state : GameState) : R :=
  let threshold := GAME_CONFIG.POINTS_PER_LEVEL + IZR (level state) * 100 in
  Rmin 100 ((scoreSinceLastBoss state / threshold) * 100).

(** ** Notions of the specification *)

(** [clamp(v, lo, hi)], as the specification writes the time scaling. *)
Definition clamp (v lo hi : R) : R := Rmax lo (Rmin v hi).

(** A world that differs from [w] in the particle pool, the particle cursor
    and the number of random draws only: what the visual effects change. *)
Definition withParticles (pool : list Particle) (cur n : nat) (w : World) : World :=
  set_randomCount n
    (set_gameState (set_particleCursor cur (set_particlePool pool (gameState w))) w).

(** A computation that touches nothing but the particles and the oracle,
    and keeps the ring buffer in shape. *)
Definition visualOnly {A} (m : M A) : Prop :=
  forall w, exists a pool cur n,
    m w = (a, withParticles pool cur n w)
    /\ length pool = length (particlePool (gameState w))
    /\ (particleCursor (gameState w) < length pool -> cur < length pool)%nat.


(** The number of BOSS targets in a list. *)
Definition bossCount (ts : list Target) : nat :=
  length (filter (fun t => type t = BOSS) ts).

(** The invariant of a session: at most one boss, none while the
    boss-active flag is down, and a particle ring of 600 slots with the
    cursor inside it. *)
Definition SessionInv (w : World) : Prop :=
  (bossCount (targets (gameState w)) <= 1)%nat
  /\ (bossActive (gameState w) = false -> bossCount (targets (gameState w)) = 0%nat)
  /\ length (particlePool (gameState w)) = 600%nat
  /\ (particleCursor (gameState w) < 600)%nat.

(** [m] meets the relational specification [R] with results in [P]: from
    every world, the result satisfies [P] and the final world is related to
    the initial one. *)
Definition rspec (R : World -> World -> Prop) {A} (P : A -> Prop) (m : M A) : Prop :=
  forall w, P (m w).1 /\ R w (m w).2.

(** The ring buffer keeps its length and the cursor stays inside. *)
Definition ringKept (w w' : World) : Prop :=
  length (particlePool (gameState w')) = length (particlePool (gameState w))
  /\ (particleCursor (gameState w) < length (particlePool (gameState w)) ->
      particleCursor (gameState w') < length (particlePool (gameState w')))%nat.

(** [w'] extends [w]: same boss-active flag, the targets of [w] followed by
    targets that are not bosses, and the ring buffer kept. *)
Definition extends (w w' : World) : Prop :=
  bossActive (gameState w') = bossActive (gameState w)
  /\ (exists extra,
        targets (gameState w') = targets (gameState w) ++ extra
        /\ Forall (fun t => type t <> BOSS) extra)
  /\ ringKept w w'.

(** [w'] shows the same number of bosses and the same flag as [w]. *)
Definition sameView (w w' : World) : Prop :=
  bossActive (gameState w') = bossActive (gameState w)
  /\ bossCount (targets (gameState w')) = bossCount (targets (gameState w))
  /\ ringKept w w'.

(** [SessionInv] is carried from [w] to [w']. *)
Definition keepsInv (w w' : World) : Prop := SessionInv w -> SessionInv w'.

Definition anyResult {A} : A -> Prop := fun _ => True.


(** The particles that are alive: what the renderer receives. *)
Definition activeParticles (w : World) : list Particle :=
  filter (fun p => pt_active p = true) (particlePool (gameState w)).

(** The world after the calls [spawnParticle(c)] for the [c] of a list, in
    order. *)
Definition spawnAll (configs : list PartialParticle) (w : World) : World :=
  exec (forOf configs spawnParticle) w.


(** From [w] to [w'] the list of targets got at most [k] longer and no
    shorter, and the speed multiplier, which fixes the density cap, is the
    same. *)
Definition grows (k : nat) (w w' : World) : Prop :=
  speedMultiplier (gameState w') = speedMultiplier (gameState w)
  /\ (length (targets (gameState w)) <= length (targets (gameState w'))
      <= length (targets (gameState w)) + k)%nat.

(** The guard of the ordinary spawn, read in the state [s]. *)
Definition spawnAllowed `{GameProps} (s : GameState) : bool :=
  (Z.of_nat (length (targets s)) <? currentMaxTargets s)%Z
  && (negb (bossActive s) || (length (targets s) <? 3)%nat).


(** The position of the shooter in an arena of the given size. *)
Definition shooterX (d : GameDimensions) : R := width d / 2.
Definition shooterY (d : GameDimensions) : R := height d - GAME_CONFIG.CONTROLS_HEIGHT - 20.

(** [shoot] goes ahead in world [w] for a click at [(tx, ty)] at time
    [now]: the tutorial does not wait for a colour, 150 ms have passed since
    the last shot, the session is running, the arena has a size, the click
    is above the control bar and at least one pixel from the shooter. *)
Definition canShoot (now tx ty : R) (w : World) : Prop :=
  tutorialStep w <> 1%Z
  /\ 150 <= now - lastShotTime w
  /\ isGameOver (gameState w) = false
  /\ isEnding (gameState w) = false
  /\ width (dimensions w) <> 0
  /\ height (dimensions w) <> 0
  /\ ty <= height (dimensions w) - GAME_CONFIG.CONTROLS_HEIGHT
  /\ 1 <= sqrt ((tx - shooterX (dimensions w)) * (tx - shooterX (dimensions w))
                + (ty - shooterY (dimensions w)) * (ty - shooterY (dimensions w))).

(** The slot [shoot] takes: the first inactive one, or a new one behind
    the pool. *)
Definition shotSlot (pool : list Projectile) : nat * list Projectile :=
  match list_find (fun p => pj_active p = false) pool with
  | Some (i, _) => (i, pool)
  | None => (length pool, pool ++ [extraProjectile])
  end.

(** The raw velocity of a shot from the shooter toward [(tx, ty)]. *)
Definition rawVelocity (d : GameDimensions) (tx ty : R) : R * R :=
  let dx := tx - shooterX d in
  let dy := ty - shooterY d in
  let distance := sqrt (dx * dx + dy * dy) in
  ((dx / distance) * GAME_CONFIG.PROJECTILE_SPEED,
   (dy / distance) * GAME_CONFIG.PROJECTILE_SPEED).


(** *** Notions for the aim assist *)

(** The distance from the shot origin to a target. *)
Definition targetDistance (startX startY : R) (t : Target) : R :=
  sqrt ((x t - startX) * (x t - startX) + (y t - startY) * (y t - startY)).

(** The targets the search loop considers: of the selected colour, more
    than 0.1 away from the origin, and inside the cone. *)
Definition candidate (cur : ColorType) (startX startY baseAngle : R) (t : Target) : Prop :=
  color t = cur
  /\ 0.1 < targetDistance startX startY t
  /\ angleDiffTo startX startY baseAngle t < ASSIST_CONE_ANGLE.

(** The targets the specification speaks of: of the selected colour and
    inside the cone, whatever their distance. *)
Definition inCone (cur : ColorType) (startX startY baseAngle : R) (t : Target) : Prop :=
  color t = cur /\ angleDiffTo startX startY baseAngle t < ASSIST_CONE_ANGLE.

(** [b] is the element of [ts] that satisfies [P] with the least measure
    [d], the first one among equals. *)
Definition firstBest (P : Target -> Prop) (d : Target -> R) (ts : list Target)
    (b : Target) : Prop :=
  exists l1 l2,
    ts = l1 ++ b :: l2
    /\ P b
    /\ (forall t, In t l1 -> P t -> d b < d t)
    /\ (forall t, In t l2 -> P t -> d b <= d t).

(** The raw velocity blended by 0.3 toward the velocity that would hit
    [b], and scaled back to the raw speed. *)
Definition blendToward (startX startY baseVx baseVy : R) (b : Target) : AimVector :=
  let speed := sqrt (baseVx * baseVx + baseVy * baseVy) in
  let dx := x b - startX in
  let dy := y b - startY in
  let dist := sqrt (dx * dx + dy * dy) in
  let perfectVx := (dx / dist) * speed in
  let perfectVy := (dy / dist) * speed in
  let newVx := baseVx + (perfectVx - baseVx) * ASSIST_STRENGTH in
  let newVy := baseVy + (perfectVy - baseVy) * ASSIST_STRENGTH in
  let newSpeed := sqrt (newVx * newVx + newVy * newVy) in
  mkAim ((newVx / newSpeed) * speed) ((newVy / newSpeed) * speed) true.

(** The magnitude of an aim vector. *)
Definition aimSpeed (a : AimVector) : R := sqrt (av_vx a * av_vx a + av_vy a * av_vy a).


(** *** Notions for the collisions *)

(** The distance between the centres of two targets. *)
Definition centreDistance (t1 t2 : Target) : R :=
  sqrt ((x t2 - x t1) * (x t2 - x t1) + (y t2 - y t1) * (y t2 - y t1)).

(** The two targets overlap, their centres are at least 0.1 apart and one
    of them at least can be moved: the case in which the pair is resolved. *)
Definition colliding (t1 t2 : Target) : Prop :=
  centreDistance t1 t2 < radius t1 + radius t2
  /\ 0.1 <= centreDistance t1 t2
  /\ (type t1 <> STATIONARY \/ type t2 <> STATIONARY).

(** The velocity of [b] relative to [a] along the line from the centre of
    [t1] to the centre of [t2]. *)
Definition closingSpeed (t1 t2 a b : Target) : R :=
  (vx b - vx a) * ((x t2 - x t1) / centreDistance t1 t2)
  + (vy b - vy a) * ((y t2 - y t1) / centreDistance t1 t2).

(** The momentum of a pair of targets, with the masses of the collision
    code. *)
Definition momentum (t1 t2 : Target) : R * R :=
  (getMass t1 * vx t1 + getMass t2 * vx t2, getMass t1 * vy t1 + getMass t2 * vy t2).

(** A target lies inside the walls of an arena. *)
Definition insideWalls (width playableHeight : R) (t : Target) : Prop :=
  radius t <= x t <= width - radius t
  /\ (type t <> SINE_WAVE -> type t <> BOSS -> radius t <= y t <= playableHeight - radius t).


(** *** Notions for the course of a session *)

(** The counters of [st'] are those of [st] or larger; the two counters
    that a session never writes are the same. *)
Definition statsGrow (st st' : GameStats) : Prop :=
  (shotsFired st <= shotsFired st')%Z
  /\ (targetsHit st <= targetsHit st')%Z
  /\ (targetsMissed st <= targetsMissed st')%Z
  /\ (highestStreak st <= highestStreak st')%Z
  /\ (toughKills st <= toughKills st')%Z
  /\ (splitKills st <= splitKills st')%Z
  /\ (stationaryKills st <= stationaryKills st')%Z
  /\ (colorShiftKills st <= colorShiftKills st')%Z
  /\ (sineWaveKills st <= sineWaveKills st')%Z
  /\ (bossKills st <= bossKills st')%Z
  /\ (highestLevel st <= highestLevel st')%Z
  /\ gamesPlayed st' = gamesPlayed st
  /\ hardModeGames st' = hardModeGames st
  /\ highScore st' = highScore st.

(** What never goes back in a session, from [w] to a later world [w']: the
    game-over flag is never written, the ending flag is never lowered, the
    projectile pool never shrinks, the level and the counters never fall,
    and scheduled handoffs stay scheduled. *)
Definition advances (w w' : World) : Prop :=
  isGameOver (gameState w') = isGameOver (gameState w)
  /\ (isEnding (gameState w) = true -> isEnding (gameState w') = true)
  /\ (length (projectilePool (gameState w)) <= length (projectilePool (gameState w')))%nat
  /\ (level (gameState w) <= level (gameState w'))%Z
  /\ statsGrow (sessionStats w) (sessionStats w')
  /\ (exists more, handoffTimers w' = handoffTimers w ++ more).


(** *** Notions for the particles *)

(** The life a particle of each kind loses per unit of the time factor. *)
Definition lifeRate (ty : ParticleType) : R :=
  match ty with
  | TRAIL => 0.1
  | DEBRIS => 0.015
  | RING => 0.05
  | SPARK => 0.05
  | BURST => 0.03
  end.


(** *** Notions for the boss fight *)




(** *** Notions for the streak *)





(** *** Notions for a frame in flight *)

(** A target that only a hit changes: at rest, without rotation, and of a
    kind without behaviour of its own. *)
Definition resting (t : Target) : Prop :=
  vx t = 0 /\ vy t = 0 /\ rotationSpeed t = 0
  /\ type t <> BOSS /\ type t <> COLOR_SHIFT /\ type t <> SINE_WAVE.

(** The projectile [proj] after the motion of a frame. *)
Definition movedBy (tf : R) (proj : Projectile) : Projectile :=
  let proj := set_pj_x (pj_x proj + pj_vx proj * tf) proj in
  set_pj_y (pj_y proj + pj_vy proj * tf) proj.

(** A frame at time [t] of a running session in which the projectile of
    slot 0 is all that moves: the tutorial is over, the arena has a size,
    no boss and no spawn is due, the one target is at rest inside the walls
    and no other projectile is in flight. *)
Definition quietFrame (t : R) (target : Target) (proj : Projectile) (w : World) : Prop :=
  tutorialStep w = 0%Z
  /\ isGameOver (gameState w) = false
  /\ isEnding (gameState w) = false
  /\ width (dimensions w) <> 0
  /\ height (dimensions w) <> 0
  /\ lastTime w <> 0
  /\ bossActive (gameState w) = false
  /\ scoreSinceLastBoss (gameState w) <= pointsForNextLevel (gameState w)
  /\ spawnTimer w + (t - lastTime w) <= nextSpawnDelay (gameState w)
  /\ targets (gameState w) = [target]
  /\ resting target
  /\ insideWalls (width (dimensions w)) (height (dimensions w) - GAME_CONFIG.CONTROLS_HEIGHT)
                 target
  /\ projectilePool (gameState w) !! 0%nat = Some proj
  /\ pj_active proj = true
  /\ (forall i p, i <> 0%nat -> projectilePool (gameState w) !! i = Some p ->
                  pj_active p = false).

(** The world [wm] of such a frame when the projectile of slot 0 has moved
    and the scan for its hit begins: apart from the slot, the clocks, the
    particles and the random draws, it is the world [w] at the start of the
    frame. *)
Definition scanBegins (t : R) (w wm : World) : Prop :=
  (exists proj,
     projectilePool (gameState w) !! 0%nat = Some proj
     /\ projectilePool (gameState wm)
        = <[0%nat := movedBy (timeFactorOf (t - lastTime w)) proj]>
            (projectilePool (gameState w)))
  /\ targets (gameState wm) = targets (gameState w)
  /\ currentColor (gameState wm) = currentColor (gameState w)
  /\ score (gameState wm) = score (gameState w)
  /\ level (gameState wm) = level (gameState w)
  /\ scoreSinceLastBoss (gameState wm) = scoreSinceLastBoss (gameState w)
  /\ bossActive (gameState wm) = bossActive (gameState w)
  /\ streak (gameState wm) = streak (gameState w)
  /\ nextSpawnDelay (gameState wm) = nextSpawnDelay (gameState w)
  /\ isGameOver (gameState wm) = isGameOver (gameState w)
  /\ isEnding (gameState wm) = isEnding (gameState w)
  /\ sessionStats wm = sessionStats w
  /\ lastShotTime wm = lastShotTime w
  /\ dimensions wm = dimensions w
  /\ tutorialStep wm = tutorialStep w
  /\ handoffTimers wm = handoffTimers w
  /\ lastTime wm = t
  /\ spawnTimer wm = spawnTimer w + (t - lastTime w).


(** [w'] has the projectile pool of [w]. *)
Definition samePool (w w' : World) : Prop :=
  projectilePool (gameState w') = projectilePool (gameState w).


(** *** Notions for the handoff *)

(** No projectile has hit a target of another colour in the session so
    far: the session is running, no miss is counted and no handoff is
    scheduled. *)
Definition noMismatchYet (w : World) : Prop :=
  isEnding (gameState w) = false
  /\ targetsMissed (sessionStats w) = 0%Z
  /\ handoffTimers w = [].

(** One handoff with a delay of 1000 ms is scheduled for each miss that is
    counted, and the session is ending exactly when there is one. *)
Definition HandoffInv (w : World) : Prop :=
  handoffTimers w = repeat 1000 (Z.to_nat (targetsMissed (sessionStats w)))
  /\ (0 <= targetsMissed (sessionStats w))%Z
  /\ (isEnding (gameState w) = true <-> (0 < targetsMissed (sessionStats w))%Z).

(** [w'] has the ending flag, the count of misses and the scheduled
    handoffs of [w]. *)
Definition sameHandoff (w w' : World) : Prop :=
  isEnding (gameState w') = isEnding (gameState w)
  /\ targetsMissed (sessionStats w') = targetsMissed (sessionStats w)
  /\ handoffTimers w' = handoffTimers w.

(** [HandoffInv] is carried from [w] to [w']. *)
Definition keepsHandoff (w w' : World) : Prop := HandoffInv w -> HandoffInv w'.

End Game.

(** ** The application shell ([App.tsx]) and the achievements
       ([constants.ts])

    [handleGameOver] is the [onGameOver] of the component. Its calls of the
    storage module ([utils/storage.ts], JSON text in [localStorage]), of
    [playSound] and of [setTimeout] for the toast are left out. *)

(** The enumeration [GameState] of [types.ts], the screen on display. *)
Inductive Screen := MENU | PLAYING | GAME_OVER.

Inductive Category := SCORE | COMBAT | MASTERY | DEDICATION.

(** An entry of [ACHIEVEMENT_DEFINITIONS]. *)
Record AchievementDef := mkAchievementDef {
  ach_id : string;
  ach_title : string;
  ach_icon : string;
  ach_category : Category;
  condition : GameStats -> bool;
  progress : GameStats -> R
}.

(** An achievement with its [isUnlocked]. *)
Record Achievement := mkAchievement {
  ach_def : AchievementDef;
  isUnlocked : bool
}.

Definition ACHIEVEMENT_DEFINITIONS : list AchievementDef :=
  [ mkAchievementDef "score_novice" "Color Cadet" "Star" SCORE
      (fun s => (1000 <=? totalScore s)%Z)
      (fun s => Rmin 100 ((IZR (totalScore s) / 1000) * 100));
    mkAchievementDef "score_pro" "Spectrum Striker" "Award" SCORE
      (fun s => (10000 <=? totalScore s)%Z)
      (fun s => Rmin 100 ((IZR (totalScore s) / 10000) * 100));
    mkAchievementDef "score_master" "Prism Paragon" "Crown" SCORE
      (fun s => (50000 <=? totalScore s)%Z)
      (fun s => Rmin 100 ((IZR (totalScore s) / 50000) * 100));
    mkAchievementDef "high_score_200" "Supernova" "Sun" SCORE
      (fun s => (200 <=? highScore s)%Z)
      (fun s => Rmin 100 ((IZR (highScore s) / 200) * 100));
    mkAchievementDef "streak_25" "Unstoppable" "Zap" MASTERY
      (fun s => (25 <=? highestStreak s)%Z)
      (fun s => Rmin 100 ((IZR (highestStreak s) / 25) * 100));
    mkAchievementDef "hits_1000" "Grand Artist" "Palette" MASTERY
      (fun s => (1000 <=? targetsHit s)%Z)
      (fun s => Rmin 100 ((IZR (targetsHit s) / 1000) * 100));
    mkAchievementDef "kill_tough_50" "Armor Piercing" "ShieldX" COMBAT
      (fun s => (50 <=? toughKills s)%Z)
      (fun s => Rmin 100 ((IZR (toughKills s) / 50) * 100));
    mkAchievementDef "kill_boss_1" "Giant Slayer" "Swords" COMBAT
      (fun s => (1 <=? bossKills s)%Z)
      (fun s => Rmin 100 ((IZR (bossKills s) / 1) * 100));
    mkAchievementDef "kill_boss_10" "Boss Hunter" "Skull" COMBAT
      (fun s => (10 <=? bossKills s)%Z)
      (fun s => Rmin 100 ((IZR (bossKills s) / 10) * 100));
    mkAchievementDef "kill_boss_50" "Titan Toppler" "Skull" COMBAT
      (fun s => (50 <=? bossKills s)%Z)
      (fun s => Rmin 100 ((IZR (bossKills s) / 50) * 100));
    mkAchievementDef "level_5" "Level Up!" "ChevronsUp" COMBAT
      (fun s => (5 <=? highestLevel s)%Z)
      (fun s => Rmin 100 ((IZR (highestLevel s) / 5) * 100));
    mkAchievementDef "level_10" "Ascension" "ChevronsUp" COMBAT
      (fun s => (10 <=? highestLevel s)%Z)
      (fun s => Rmin 100 ((IZR (highestLevel s) / 10) * 100));
    mkAchievementDef "games_50" "Addict" "Coffee" DEDICATION
      (fun s => (50 <=? gamesPlayed s)%Z)
      (fun s => Rmin 100 ((IZR (gamesPlayed s) / 50) * 100));
    mkAchievementDef "hard_mode_10" "Hardcore Hero" "Flame" DEDICATION
      (fun s => (10 <=? hardModeGames s)%Z)
      (fun s => Rmin 100 ((IZR (hardModeGames s) / 10) * 100)) ]%string.

(** [INITIAL_STATS] *)
Definition INITIAL_STATS : GameStats := mkStats 0 0 0 0 0 0 0 0 0 0 0 0 0 1 0.

(** The state of [App] that [handleGameOver] reads and writes. *)
Record App := mkApp {
  app_gameState : Screen;
  app_score : Z;
  app_stats : GameStats;
  app_achievements : list Achievement;
  app_toast : option (string * string)
}.

(** The hydration of the achievements at mount, from the list of the ids
    that were unlocked. *)
Definition hydrate (unlockedIds : list string) : list Achievement :=
  map (fun def => mkAchievement def (existsb (String.eqb (ach_id def)) unlockedIds))
      ACHIEVEMENT_DEFINITIONS.

(** [// Merge Stats] *)
Definition mergeStats (stats : GameStats) (finalScore : Z) (sessionStats : GameStats)
  : GameStats :=
  {| totalScore := totalScore stats + totalScore sessionStats;
     highScore := Z.max (highScore stats) finalScore;
     gamesPlayed := gamesPlayed stats + 1;
     shotsFired := shotsFired stats + shotsFired sessionStats;
     targetsHit := targetsHit stats + targetsHit sessionStats;
     targetsMissed := targetsMissed stats + targetsMissed sessionStats;
     highestStreak := Z.max (highestStreak stats) (highestStreak sessionStats);
     toughKills := toughKills stats + toughKills sessionStats;
     splitKills := splitKills stats + splitKills sessionStats;
     stationaryKills := stationaryKills stats + stationaryKills sessionStats;
     colorShiftKills := colorShiftKills stats + colorShiftKills sessionStats;
     sineWaveKills := sineWaveKills stats + sineWaveKills sessionStats;
     bossKills := bossKills stats + bossKills sessionStats;
     highestLevel := Z.max (highestLevel stats) (highestLevel sessionStats);
     hardModeGames := hardModeGames stats + hardModeGames sessionStats |}%Z.

(** The callback of [achievements.map] in [// Check Achievements]. *)
Definition checkAchievement (newStats : GameStats) (ach : Achievement) : Achievement :=
  if isUnlocked ach then ach
  else if condition (ach_def ach) newStats then mkAchievement (ach_def ach) true
  else ach.

(** The ids pushed to [newUnlockedIds], in the order of the list. *)
Definition newUnlockedIds (newStats : GameStats) (achs : list Achievement) : list string :=
  map (fun ach => ach_id (ach_def ach))
      (filter (fun ach => isUnlocked ach = false /\ condition (ach_def ach) newStats = true)
              achs).

Definition handleGameOver (finalScore : Z) (sessionStats : GameStats) (a : App) : App :=
  let newStats := mergeStats (app_stats a) finalScore sessionStats in
  let updatedAchievements := map (checkAchievement newStats) (app_achievements a) in
  let ids := newUnlockedIds newStats (app_achievements a) in
  let unlockedNow := (0 <? length ids)%nat in
  let lastUnlocked :=
    match ids with
    | first :: _ =>
        snd <$> list_find (fun ach => String.eqb (ach_id (ach_def ach)) first = true)
                          updatedAchievements
    | [] => None
    end in
  {| app_gameState := GAME_OVER;
     app_score := finalScore;
     app_stats := newStats;
     app_achievements :=
       if unlockedNow then updatedAchievements else app_achievements a;
     app_toast :=
       match lastUnlocked with
       | Some ach =>
           if unlockedNow
           then Some (ach_title (ach_def ach), ach_icon (ach_def ach))
           else app_toast a
       | None => app_toast a
       end |}.

(** ** Example sessions

    Closed instances of the props and a few worlds, used to state the
    properties at concrete inputs. *)

(** Props with the given difficulty, the dark theme, no tutorial, and an
    oracle that always draws 0. *)
Definition exampleProps (d : Difficulty) : GameProps :=
  {| difficulty := d; theme := dark; initialTutorial := false; random := fun _ => 0 |}.

(** A plain target at rest, of the given kind, colour and position, with
    the standard radius 32. *)
Definition targetAt (ty : TargetType) (c : ColorType) (px py : R) : Target :=
  {| id := RandomId 0;
     x := px; y := py; vx := 0; vy := 0;
     color := c;
     radius := GAME_CONFIG.TARGET_RADIUS;
     rotation := 0; rotationSpeed := 0;
     type := ty; shape := CIRCLE; health := 1;
     maxHealth := None; colorShiftTimer := Some 0; initialY := Some py;
     timeOffset := Some 0; summonTimer := None |}.

(** An active projectile of the given colour at the given position, flying
    straight up at the speed of a shot. *)
Definition shotAt (c : ColorType) (px py : R) : Projectile :=
  mkProjectile (ShotId 0 0) px py 0 (-10) c GAME_CONFIG.PROJECTILE_RADIUS true.

(** The initial world of difficulty [d] in an arena of 400 by 800, with the
    given list of targets. *)
Definition arenaWorld (d : Difficulty) (ts : list Target) : World :=
  let w := set_dimensions (mkDimensions 400 800) (@initialWorld (exampleProps d)) in
  set_gameState (set_targets ts (gameState w)) w.

(** The scenario of the specification: MEDIUM difficulty, one STATIONARY
    RED target at (200, 300). *)
Definition scenarioWorld : World := arenaWorld MEDIUM [targetAt STATIONARY RED 200 300].


(** EASY difficulty with eight targets, as many as the density cap allows;
    the last one is a SPLIT target. *)
Definition crowdedWorld : World :=
  arenaWorld EASY
    (map (fun k => targetAt NORMAL BLUE (40 + 40 * INR k) 100) (seq 0 7)
     ++ [targetAt SPLIT RED 200 300]).

(** The projectile in flight at height [py] after the shot of the scenario. *)
Definition scenarioShot (py : R) : Projectile :=
  mkProjectile (ShotId 1000 0) 200 py 0 (-10) RED GAME_CONFIG.PROJECTILE_RADIUS true.


(** The arena of difficulty MEDIUM with the given targets in a running
    session: the last frame was at time 1000, a target has just been spawned
    and the next one is due 960 ms later. *)
Definition quietWorld (ts : list Target) : World :=
  let w := arenaWorld MEDIUM ts in
  set_lastTime 1000
    (set_spawnTimer 0 (set_gameState (set_nextSpawnDelay 960 (gameState w)) w)).




(** A running session with one BLUE target at (200, 300) and a RED
    projectile in flight at (200, 345), straight below it. *)
Definition mismatchWorld : World :=
  let w := quietWorld [targetAt NORMAL BLUE 200 300] in
  set_gameState
    (set_projectilePool (<[0%nat := shotAt RED 200 345]> (projectilePool (gameState w)))
                        (gameState w)) w.

(** The scenario after a mismatch: the session is ending. *)
Definition endingWorld : World :=
  set_gameState (set_isEnding true (gameState scenarioWorld)) scenarioWorld.

(** An empty arena in which the boss is due: the boss progress is 1000. *)
Definition bossDueWorld : World :=
  set_gameState (set_scoreSinceLastBoss 1000 (gameState (arenaWorld MEDIUM [])))
                (arenaWorld MEDIUM []).

(** The arena right after the boss trigger has fired in [bossDueWorld]. *)
Definition bossFightWorld : World :=
  exec (bossTrigger (props := exampleProps MEDIUM) 400) bossDueWorld.

(** Two NORMAL targets of radius 32 whose centres are 50 apart. *)
Definition leftTarget : Target := targetAt NORMAL RED 100 300.
Definition rightTarget : Target := targetAt TOUGH BLUE 150 300.

(** The application before the first game, with no achievement unlocked. *)
Definition freshApp : App := mkApp MENU 0 INITIAL_STATS (hydrate []) None.

(** The first entry of the table of achievements. *)
Definition firstAchievement : AchievementDef :=
  hd (mkAchievementDef "" "" "" SCORE (fun _ => false) (fun _ => 0))
     ACHIEVEMENT_DEFINITIONS.

(** * The music sequencer ([services/sound.ts])

    The module-level object [MusicManager] and the audio context form one
    record. Of the audio context the model keeps whether it exists
    ([masterGain] is created together with it) and the calls of
    [scheduleNote], each with its beat number and its start time; the
    oscillators and gains that a call builds are left out. Of the browser it
    keeps the timers of [scheduler] that are pending, by their handles; a
    handle is a positive number, so that the test [if (MusicManager.timerID)]
    is a test for [null]. The clock [audioCtx.currentTime] does not advance
    within one task: it is an argument of each entry point. The constant
    fields [tempo], [lookahead] and [scheduleAheadTime] are definitions. *)

Module Sound.

Record MusicManager := mkMusicManager {
  isPlaying : bool;
  nextNoteTime : R;
  current16thNote : Z;
  timerID : option nat;
  audioCtx : bool;
  notes : list (Z * R);
  pending : list nat;
  timeouts : nat
}.

Definition tempo : R := 115.
Definition lookahead : R := 25.
Definition scheduleAheadTime : R := 0.1.

Definition initialMusic : MusicManager :=
  mkMusicManager false 0 0%Z None false [] [] 0%nat.

Definition set_isPlaying (b : bool) (m : MusicManager) : MusicManager :=
  mkMusicManager b (nextNoteTime m) (current16thNote m) (timerID m) (audioCtx m)
    (notes m) (pending m) (timeouts m).
Definition set_nextNoteTime (t : R) (m : MusicManager) : MusicManager :=
  mkMusicManager (isPlaying m) t (current16thNote m) (timerID m) (audioCtx m)
    (notes m) (pending m) (timeouts m).
Definition set_current16thNote (n : Z) (m : MusicManager) : MusicManager :=
  mkMusicManager (isPlaying m) (nextNoteTime m) n (timerID m) (audioCtx m)
    (notes m) (pending m) (timeouts m).
Definition set_timerID (h : option nat) (m : MusicManager) : MusicManager :=
  mkMusicManager (isPlaying m) (nextNoteTime m) (current16thNote m) h (audioCtx m)
    (notes m) (pending m) (timeouts m).
Definition set_audioCtx (b : bool) (m : MusicManager) : MusicManager :=
  mkMusicManager (isPlaying m) (nextNoteTime m) (current16thNote m) (timerID m) b
    (notes m) (pending m) (timeouts m).
Definition set_notes (l : list (Z * R)) (m : MusicManager) : MusicManager :=
  mkMusicManager (isPlaying m) (nextNoteTime m) (current16thNote m) (timerID m)
    (audioCtx m) l (pending m) (timeouts m).

(** [window.setTimeout(scheduler, lookahead)] and [window.clearTimeout] *)
Definition setTimeout (m : MusicManager) : nat * MusicManager :=
  let h := S (timeouts m) in
  (h, mkMusicManager (isPlaying m) (nextNoteTime m) (current16thNote m) (timerID m)
        (audioCtx m) (notes m) (pending m ++ [h]) h).

Definition clearTimeout (h : nat) (m : MusicManager) : MusicManager :=
  mkMusicManager (isPlaying m) (nextNoteTime m) (current16thNote m) (timerID m)
    (audioCtx m) (notes m) (filter (fun h' => h' <> h) (pending m)) (timeouts m).

(** [Ctx] tells whether the window has an [AudioContext] constructor. *)
Definition initAudio (Ctx : bool) (m : MusicManager) : MusicManager :=
  if negb (audioCtx m) then (if Ctx then set_audioCtx true m else m) else m.

Definition scheduleNote (beatNumber : Z) (time : R) (m : MusicManager) : MusicManager :=
  if negb (audioCtx m) then m else set_notes (notes m ++ [(beatNumber, time)]) m.

(** [secondsPerBeat * 0.25] of [nextNote] *)
Definition secondsPer16th : R := 60.0 / tempo * 0.25.

Definition nextNote (m : MusicManager) : MusicManager :=
  let m := set_nextNoteTime (nextNoteTime m + secondsPer16th) m in
  let m := set_current16thNote (current16thNote m + 1) m in
  if (current16thNote m =? 16)%Z then set_current16thNote 0 m else m.

(** The variant of the loop of [scheduler]: a bound on the notes still due. *)
Definition notesDue (currentTime : R) (m : MusicManager) : nat :=
  Z.to_nat (up ((currentTime + scheduleAheadTime - nextNoteTime m) / secondsPer16th)).

(** The [while] loop of [scheduler] *)
Function scheduleLoop (currentTime : R) (m : MusicManager)
    {measure (notesDue currentTime) m} : MusicManager :=
  if JsMath.ltb (nextNoteTime m) (currentTime + scheduleAheadTime)
  then scheduleLoop currentTime
         (nextNote (scheduleNote (current16thNote m) (nextNoteTime m) m))
  else m.
Proof.
  intros currentTime m H. unfold JsMath.ltb in H.
  destruct (Rlt_dec _ _) as [Hlt |]; [| discriminate].
  assert (E : nextNoteTime (nextNote (scheduleNote (current16thNote m) (nextNoteTime m) m))
              = nextNoteTime m + secondsPer16th).
  { unfold nextNote, scheduleNote. destruct (negb (audioCtx m)); cbn;
      destruct (_ =? 16)%Z; reflexivity. }
  unfold notesDue. rewrite E.
  assert (Hs : 0 < secondsPer16th) by (unfold secondsPer16th, tempo; lra).
  set (x := (currentTime + scheduleAheadTime - nextNoteTime m) / secondsPer16th).
  replace ((currentTime + scheduleAheadTime - (nextNoteTime m + secondsPer16th))
           / secondsPer16th)
    with (x - 1) by (unfold x; field; lra).
  assert (Hx : 0 < x) by (unfold x; apply Rdiv_lt_0_compat; lra).
  destruct (archimed x) as [A1 A2].
  assert (U : (up x - 1)%Z = up (x - 1)) by (apply tech_up; rewrite minus_IZR; lra).
  rewrite <- U.
  assert (0 < up x)%Z by (apply lt_IZR; lra).
  lia.
Defined.

Definition scheduler (currentTime : R) (m : MusicManager) : MusicManager :=
  if negb (isPlaying m) || negb (audioCtx m) then m
  else
    let m := scheduleLoop currentTime m in
    let '(h, m) := setTimeout m in
    set_timerID (Some h) m.

Definition playMusic (Ctx isMuted : bool) (currentTime : R) (m : MusicManager)
    : MusicManager :=
  if isMuted || isPlaying m then m
  else
    let m := initAudio Ctx m in
    if negb (audioCtx m) then m
    else
      let m := set_isPlaying true m in
      let m := set_current16thNote 0 m in
      let m := set_nextNoteTime (currentTime + 0.1) m in
      scheduler currentTime m.

Definition stopMusic (m : MusicManager) : MusicManager :=
  let m := set_isPlaying false m in
  match timerID m with
  | Some h => set_timerID None (clearTimeout h m)
  | None => m
  end.


(** The callers of the sequencer: the application, and the browser when a
    timer expires. Each call comes with the reading of the clock. *)
Inductive Call :=
| PlayMusic (isMuted : bool)
| StopMusic
| Timeout (h : nat)
| InitAudio.

Definition call (Ctx : bool) (currentTime : R) (c : Call) (m : MusicManager)
    : MusicManager :=
  match c with
  | PlayMusic isMuted => playMusic Ctx isMuted currentTime m
  | StopMusic => stopMusic m
  | Timeout h =>
      if bool_decide (h ∈ pending m) then scheduler currentTime (clearTimeout h m) else m
  | InitAudio => initAudio Ctx m
  end.

Definition play (Ctx : bool) (calls : list (R * Call)) (m : MusicManager)
    : MusicManager :=
  fold_left (fun m tc => call Ctx (fst tc) (snd tc) m) calls m.

(** The clock never goes back. *)
Fixpoint clockFrom (now : R) (calls : list (R * Call)) : Prop :=
  match calls with
  | [] => True
  | (t, _) :: rest => now <= t /\ clockFrom t rest
  end.

(** The note that the sequencer schedules [i] steps after the state [m]. *)
Definition noteAfter (m : MusicManager) (i : nat) : Z * R :=
  (((current16thNote m + Z.of_nat i) mod 16)%Z, nextNoteTime m + INR i * secondsPer16th).

(** The start times of the notes are strictly increasing. *)
Definition increasing (l : list (Z * R)) : Prop :=
  forall (i j : nat) (a b : Z * R),
    (i < j)%nat -> l !! i = Some a -> l !! j = Some b -> snd a < snd b.

(** What holds between two calls, [now] being the last reading of the clock. *)
Definition MusicInv (now : R) (m : MusicManager) : Prop :=
  (0 <= current16thNote m < 16)%Z
  /\ (isPlaying m = false -> pending m = [])
  /\ (isPlaying m = true ->
        audioCtx m = true /\ exists h, pending m = [h] /\ timerID m = Some h)
  /\ increasing (notes m)
  /\ (forall a, In a (notes m) -> snd a < nextNoteTime m)
  /\ (forall a, In a (notes m) -> snd a < now + scheduleAheadTime).

End Sound.

(** * Properties *)

(** ** Comparisons of reals *)

Lemma ltb_true a b : a < b -> JsMath.ltb a b = true.
Proof. intros H. unfold JsMath.ltb. destruct (Rlt_dec a b); [reflexivity | contradiction]. Qed.

Lemma ltb_false a b : b <= a -> JsMath.ltb a b = false.
Proof. intros H. unfold JsMath.ltb. destruct (Rlt_dec a b); [lra | reflexivity]. Qed.

Lemma leb_true a b : a <= b -> JsMath.leb a b = true.
Proof. intros H. unfold JsMath.leb. destruct (Rle_dec a b); [reflexivity | contradiction]. Qed.

Lemma leb_false a b : b < a -> JsMath.leb a b = false.
Proof. intros H. unfold JsMath.leb. destruct (Rle_dec a b); [lra | reflexivity]. Qed.

Lemma eqb_true a b : a = b -> JsMath.eqb a b = true.
Proof. intros H. unfold JsMath.eqb. destruct (Req_dec_T a b); [reflexivity | contradiction]. Qed.

Lemma eqb_false a b : a <> b -> JsMath.eqb a b = false.
Proof. intros H. unfold JsMath.eqb. destruct (Req_dec_T a b); [contradiction | reflexivity]. Qed.

Lemma ltb_spec a b : JsMath.ltb a b = true <-> a < b.
Proof. unfold JsMath.ltb. destruct (Rlt_dec a b); split; intros; (done || lra). Qed.

Lemma leb_spec a b : JsMath.leb a b = true <-> a <= b.
Proof. unfold JsMath.leb. destruct (Rle_dec a b); split; intros; (done || lra). Qed.

Lemma ltb_nspec a b : JsMath.ltb a b = false <-> b <= a.
Proof. unfold JsMath.ltb. destruct (Rlt_dec a b); split; intros; (done || lra). Qed.

Lemma leb_nspec a b : JsMath.leb a b = false <-> b < a.
Proof. unfold JsMath.leb. destruct (Rle_dec a b); split; intros; (done || lra). Qed.

(** Decides the comparisons of reals that occur in a goal, when linear
    arithmetic settles them. *)
Ltac rdecide :=
  repeat first
    [ rewrite ltb_true by lra
    | rewrite ltb_false by lra
    | rewrite leb_true by lra
    | rewrite leb_false by lra
    | rewrite eqb_true by lra
    | rewrite eqb_false by lra ].

(** ** Tactics for symbolic execution *)

(** Replaces the world by its fields, so that projections compute. *)
Ltac open_world w :=
  let g := fresh "g" in
  destruct w as [g ? ? ? ? ? ? ? ? ? ?]; destruct g; cbn in *.

(** Decides the [decide] and [bool_decide] tests that are settled. *)
Ltac tdecide :=
  repeat first
    [ rewrite decide_True by done
    | rewrite decide_False by done
    | rewrite bool_decide_eq_true_2 by done
    | rewrite bool_decide_eq_false_2 by done ].

(** Unfolds the monadic plumbing and computes. *)
Ltac mrun :=
  unfold bind, getW, modState, modify, modStats, when, ret; cbn.

Section Properties.

Context `{props : GameProps}.

(** ** The time factor *)

Lemma timeFactorOf_le_4 deltaTime : timeFactorOf deltaTime <= 4.
Proof. unfold timeFactorOf. apply Rmin_r. Qed.

(** C3, as the specification states it, fails: the source takes
    [Math.min(deltaTime / 16.667, 4)] and has no lower clamp, so a negative
    elapsed time gives a negative factor. *)
Lemma C3_negative_delta_not_clamped :
  ~ (timeFactorOf (-16.667) = clamp (-16.667 / 16.667) 0 4
     /\ 0 <= timeFactorOf (-16.667) <= 4).
Proof.
  unfold timeFactorOf.
  replace (-16.667 / 16.667) with (-1) by lra.
  rewrite Rmin_left by lra.
  intros [_ [H _]]. lra.
Qed.

(** C3 (amended): the per-tick motion scalar is
    [min(deltaTime / 16.667, 4)]; it never exceeds 4 for any real elapsed
    time, and for a non-negative elapsed time it equals
    [clamp(deltaTime / 16.667, 0, 4)] and is not below 0. *)
Theorem C3_timeFactor_bounds (deltaTime : R) :
  timeFactorOf deltaTime = Rmin (deltaTime / 16.667) 4
  /\ timeFactorOf deltaTime <= 4
  /\ (0 <= deltaTime ->
      timeFactorOf deltaTime = clamp (deltaTime / 16.667) 0 4
      /\ 0 <= timeFactorOf deltaTime).
Proof.
  split; [reflexivity |]. split; [apply timeFactorOf_le_4 |].
  intros Hdt. unfold timeFactorOf, clamp.
  assert (0 <= deltaTime / 16.667) by (apply Rmult_le_pos; lra).
  assert (0 <= Rmin (deltaTime / 16.667) 4) by (apply Rmin_glb; lra).
  split; [| assumption].
  symmetry. apply Rmax_right. assumption.
Qed.


Lemma C3_timeFactor_bounds_witness :
  0 <= 50 /\ timeFactorOf 50 = clamp (50 / 16.667) 0 4 /\ 0 <= timeFactorOf 50.
Proof.
  split; [lra |].
  destruct (C3_timeFactor_bounds 50) as [_ [_ H]].
  apply H. lra.
Defined.


(** ** Computations that only touch the particles *)

Lemma withParticles_twice p1 c1 n1 p2 c2 n2 w :
  withParticles p2 c2 n2 (withParticles p1 c1 n1 w) = withParticles p2 c2 n2 w.
Proof. reflexivity. Qed.

Lemma withParticles_same w :
  withParticles (particlePool (gameState w)) (particleCursor (gameState w))
                (randomCount w) w = w.
Proof. destruct w as [g s t l ls d ts n h sp pt]. destruct g. reflexivity. Qed.

Lemma visualOnly_ret {A} (a : A) : visualOnly (ret a).
Proof.
  intros w. exists a, (particlePool (gameState w)), (particleCursor (gameState w)),
    (randomCount w).
  rewrite withParticles_same. auto.
Qed.

Lemma visualOnly_bind {A B} (m : M A) (k : A -> M B) :
  visualOnly m -> (forall a, visualOnly (k a)) -> visualOnly (bind m k).
Proof.
  intros Hm Hk w.
  destruct (Hm w) as (a & p1 & c1 & n1 & E1 & L1 & C1).
  destruct (Hk a (withParticles p1 c1 n1 w)) as (b & p2 & c2 & n2 & E2 & L2 & C2).
  exists b, p2, c2, n2. unfold bind. rewrite E1, E2.
  cbn in L2, C2. split; [reflexivity |]. split; [congruence |].
  intros H. lia.
Qed.

Lemma visualOnly_random : visualOnly Math_random.
Proof.
  intros w. exists (random (randomCount w)), (particlePool (gameState w)),
    (particleCursor (gameState w)), (S (randomCount w)).
  unfold Math_random. split; [| auto].
  f_equal. destruct w as [g s t l ls d ts n h sp pt]. destruct g. reflexivity.
Qed.

Lemma visualOnly_when (b : bool) (m : M unit) : visualOnly m -> visualOnly (when b m).
Proof. destruct b; [auto | intros _; apply visualOnly_ret]. Qed.

Lemma visualOnly_forFrom (body : nat -> M unit) n from :
  (forall i, visualOnly (body i)) -> visualOnly (forFrom from n body).
Proof.
  intros Hb. revert from. induction n as [| n IH]; intros from; cbn.
  - apply visualOnly_ret.
  - apply visualOnly_bind; [apply Hb | intros _; apply IH].
Qed.

Lemma visualOnly_forN (body : nat -> M unit) n :
  (forall i, visualOnly (body i)) -> visualOnly (forN n body).
Proof. apply visualOnly_forFrom. Qed.

Lemma visualOnly_spawnParticle config : visualOnly (spawnParticle config).
Proof.
  intros w. unfold spawnParticle, bind, getW.
  destruct (length (particlePool (gameState w)) =? 0)%nat eqn:E.
  - apply visualOnly_ret.
  - apply Nat.eqb_neq in E.
    destruct (particlePool (gameState w) !! particleCursor (gameState w)) as [p |] eqn:Hp.
    + exists tt,
        (<[particleCursor (gameState w) := assignParticle p config]>
           (particlePool (gameState w))),
        ((particleCursor (gameState w) + 1) mod length (particlePool (gameState w)))%nat,
        (randomCount w).
      split; [reflexivity |].
      rewrite length_insert. split; [reflexivity |].
      intros _. apply Nat.mod_upper_bound. assumption.
    + exists tt, (particlePool (gameState w)),
        ((particleCursor (gameState w) + 1) mod length (particlePool (gameState w)))%nat,
        (randomCount w).
      split; [reflexivity |]. split; [reflexivity |].
      intros _. apply Nat.mod_upper_bound. assumption.
Qed.

Create HintDb visual.
#[local] Hint Resolve visualOnly_ret visualOnly_random visualOnly_spawnParticle : visual.

(** Closes [visualOnly] goals over the monadic combinators. *)
Ltac visual :=
  repeat match goal with
    | |- visualOnly (ret _) => apply visualOnly_ret
    | |- visualOnly Math_random => apply visualOnly_random
    | |- visualOnly (spawnParticle _) => apply visualOnly_spawnParticle
    | |- visualOnly (forN ?n ?body) => apply (visualOnly_forN body n); intros ?
    | |- visualOnly (when ?b ?m) => apply (visualOnly_when b m)
    | |- visualOnly (bind ?m ?k) => apply (visualOnly_bind m k); [| intros ?]
    end.

Lemma visualOnly_sparks n px py spread life pcolor size :
  visualOnly (sparks n px py spread life pcolor size).
Proof. unfold sparks. visual. Qed.

Lemma visualOnly_hitExtras px py pcolor kind : visualOnly (hitExtras px py pcolor kind).
Proof.
  unfold hitExtras. destruct kind as [[] |]; visual; apply visualOnly_sparks.
Qed.

Lemma visualOnly_spawnHitParticles px py pcolor kind accuracy :
  visualOnly (spawnHitParticles px py pcolor kind accuracy).
Proof.
  unfold spawnHitParticles. visual;
    first [apply visualOnly_hitExtras | apply visualOnly_sparks].
Qed.

Lemma visualOnly_thinTargets ts : visualOnly (thinTargets ts).
Proof. induction ts as [| t ts IH]; cbn; visual. apply IH. Qed.


(** ** Symbolic execution of the monad *)

#[local] Arguments spawnHitParticles : simpl never.
#[local] Arguments spawnParticle : simpl never.
#[local] Arguments streakMultiplier : simpl never.
#[local] Arguments baseScoreOf : simpl never.
#[local] Arguments splitChild : simpl never.
#[local] Arguments JsMath.floor : simpl never.




(** Runs the next call of [spawnHitParticles] through its frame lemma. *)
Ltac run_visual :=
  match goal with
  | |- context [spawnHitParticles ?a ?b ?c ?d ?e ?W] =>
      let E := fresh "E" in
      destruct (visualOnly_spawnHitParticles a b c d e W)
        as (? & ?pool & ?cur & ?n & E & _ & _);
      rewrite E; clear E; cbn
  end.

(** ** The boss trigger *)

Lemma thinTargets_spec ts w :
  exists kept n, thinTargets ts w = (kept, set_randomCount n w) /\ sublist kept ts.
Proof.
  revert w. induction ts as [| t ts IH]; intros w.
  - exists [], (randomCount w). split; [| constructor].
    cbn. unfold ret. f_equal. destruct w; reflexivity.
  - cbn. unfold bind, Math_random.
    destruct (IH (set_randomCount (S (randomCount w)) w)) as (kept & n & E & Hs).
    rewrite E. exists (if JsMath.ltb 0.6 (random (randomCount w)) then t :: kept else kept), n.
    split; [reflexivity |].
    destruct (JsMath.ltb 0.6 (random (randomCount w))); constructor; assumption.
Qed.

Lemma bossTrigger_idle width w :
  bossActive (gameState w) = true
  \/ scoreSinceLastBoss (gameState w) <= pointsForNextLevel (gameState w) ->
  bossTrigger width w = (tt, w).
Proof.
  intros H. unfold bossTrigger, bind, getW.
  destruct H as [H | H].
  - rewrite H. reflexivity.
  - rewrite ltb_false by assumption. rewrite andb_false_r. reflexivity.
Qed.

Lemma bossTrigger_fires width w :
  bossActive (gameState w) = false ->
  pointsForNextLevel (gameState w) < scoreSinceLastBoss (gameState w) ->
  exists kept r1 r2 n,
    sublist kept (targets (gameState w))
    /\ exec (bossTrigger width) w =
       set_randomCount n
         (set_gameState
            (set_targets
               (kept ++ [bossTarget width ((r2 - 0.5) * 2) (pick RED COLOR_KEYS r1)
                                    (level (gameState w))])
               (set_scoreSinceLastBoss 0 (set_bossActive true (gameState w)))) w).
Proof.
  intros Hb Hs. unfold exec, bossTrigger, bind, getW.
  rewrite Hb, ltb_true by assumption. cbn [negb andb].
  unfold modState at 1 2, modify at 1 2.
  match goal with |- context [thinTargets ?ts ?W] =>
    destruct (thinTargets_spec ts W) as (kept & n & E & Hsub); rewrite E; clear E end.
  exists kept, (random n), (random (S n)), (S (S n)).
  split; [assumption |]. open_world w. reflexivity.
Qed.

(** C10: when the boss trigger fires (no boss active and the progress
    accumulator above the level threshold), the accumulator is set to 0 at
    that moment, together with the boss-active flag and the push of the
    boss: the progress beyond the threshold is discarded at spawn time. *)
Theorem C10_boss_trigger_resets_progress (width : R) (w : World) :
  bossActive (gameState w) = false ->
  pointsForNextLevel (gameState w) < scoreSinceLastBoss (gameState w) ->
  let w' := exec (bossTrigger width) w in
  scoreSinceLastBoss (gameState w') = 0
  /\ bossActive (gameState w') = true
  /\ exists kept boss,
       targets (gameState w') = kept ++ [boss]
       /\ sublist kept (targets (gameState w))
       /\ type boss = BOSS.
Proof.
  intros Hb Hs w'.
  destruct (bossTrigger_fires width w Hb Hs) as (kept & r1 & r2 & n & Hsub & E).
  subst w'. rewrite E. cbn. split; [reflexivity |]. split; [reflexivity |].
  eexists kept, _. split; [reflexivity |]. split; [assumption | reflexivity].
Qed.


(** ** Destruction of a target *)

(** The world after the destruction of the target at index [i], up to the
    particles: the shared part of the boss and split theorems. *)
Lemma resolveHit_match proj i target w :
  pj_color proj = color target ->
  resolveHit proj i target w =
  matchHit proj i target (Rmax 0 (1 - hitDistance proj target / radius target)) w.
Proof. intros Hc. unfold resolveHit. tdecide. reflexivity. Qed.

Lemma resolveHit_mismatch proj i target w :
  pj_color proj <> color target ->
  resolveHit proj i target w = mismatchHit proj w.
Proof. intros Hc. unfold resolveHit. tdecide. reflexivity. Qed.

(** C6: a colour-matching hit on the BOSS whose health is at most 1
    destroys it and, at that hit, increments the level by exactly 1, clears
    the boss-active flag, resets the boss-progress accumulator to 0, raises
    the speed multiplier (by 0.2), replaces the base spawn interval by
    [max(300, interval - 50)] (never below 300, and strictly smaller when it
    was above 300) and increments the boss-kill statistic by 1. *)
Theorem C6_boss_destruction (proj : Projectile) (i : nat) (target : Target) (w : World) :
  targets (gameState w) !! i = Some target ->
  type target = BOSS ->
  health target <= 1 ->
  pj_color proj = color target ->
  let w' := exec (resolveHit proj i target) w in
  targets (gameState w') = delete i (targets (gameState w))
  /\ level (gameState w') = (level (gameState w) + 1)%Z
  /\ bossActive (gameState w') = false
  /\ scoreSinceLastBoss (gameState w') = 0
  /\ speedMultiplier (gameState w') = speedMultiplier (gameState w) + 0.2
  /\ speedMultiplier (gameState w) < speedMultiplier (gameState w')
  /\ baseSpawnInterval (gameState w') = Rmax 300 (baseSpawnInterval (gameState w) - 50)
  /\ 300 <= baseSpawnInterval (gameState w')
  /\ (300 < baseSpawnInterval (gameState w) ->
      baseSpawnInterval (gameState w') < baseSpawnInterval (gameState w))
  /\ bossKills (sessionStats w') = (bossKills (sessionStats w) + 1)%Z.
Proof.
  intros Hi Ht Hh Hc w'. subst w'. unfold exec.
  rewrite resolveHit_match by assumption.
  unfold matchHit, destroyTarget, bossDefeated. rewrite Ht. tdecide.
  rewrite ltb_false by assumption. rewrite andb_false_r.
  open_world w. mrun. run_visual.
  repeat split; try reflexivity; try lra.
  - apply Rmax_l.
  - intros Hb. apply Rmax_lub_lt; lra.
Qed.

(** C8: a colour-matching hit on a SPLIT target removes it and appends
    exactly two children. Both are NORMAL, carry the colour of the parent,
    have 0.6 of its radius, and fly at [max(4, 1.5 * |v|)] along the
    heading of the parent turned by +60 and -60 degrees; the list of
    targets grows by exactly one. *)
Theorem C8_split_children (proj : Projectile) (i : nat) (target : Target) (w : World) :
  targets (gameState w) !! i = Some target ->
  type target = SPLIT ->
  pj_color proj = color target ->
  let w' := exec (resolveHit proj i target) w in
  let heading := JsMath.atan2 (vy target) (vx target) in
  let speed := Rmax 4 (sqrt (vx target * vx target + vy target * vy target) * 1.5) in
  exists c1 c2 : Target,
    targets (gameState w') = delete i (targets (gameState w)) ++ [c1; c2]
    /\ length (targets (gameState w')) = (length (targets (gameState w)) - 1 + 2)%nat
    /\ length (targets (gameState w')) = (length (targets (gameState w)) + 1)%nat
    /\ type c1 = NORMAL /\ type c2 = NORMAL
    /\ color c1 = color target /\ color c2 = color target
    /\ radius c1 = radius target * 0.6 /\ radius c2 = radius target * 0.6
    /\ vx c1 = cos (heading + PI / 3) * speed /\ vy c1 = sin (heading + PI / 3) * speed
    /\ vx c2 = cos (heading - PI / 3) * speed /\ vy c2 = sin (heading - PI / 3) * speed
    /\ sqrt (vx c1 * vx c1 + vy c1 * vy c1) = speed
    /\ sqrt (vx c2 * vx c2 + vy c2 * vy c2) = speed
    /\ 4 <= speed.
Proof.
  intros Hi Ht Hc w' heading speed. subst w'. unfold exec.
  rewrite resolveHit_match by assumption.
  unfold matchHit, destroyTarget, splitChildren. rewrite Ht. tdecide.
  cbn [orb andb].
  assert (Hlen : (0 < length (targets (gameState w)))%nat).
  { apply lookup_lt_Some in Hi. lia. }
  assert (Hdel : length (delete i (targets (gameState w)))
                 = (length (targets (gameState w)) - 1)%nat).
  { apply length_delete. eauto. }
  assert (Hspeed : 0 <= speed) by (pose proof (Rmax_l 4 (sqrt (vx target * vx target + vy target * vy target) * 1.5)); fold speed in H; lra).
  assert (Hnorm : forall a, sqrt (cos a * speed * (cos a * speed) + sin a * speed * (sin a * speed)) = speed).
  { intros a. replace (cos a * speed * (cos a * speed) + sin a * speed * (sin a * speed))
      with (speed * speed * ((sin a)² + (cos a)²)) by (unfold Rsqr; ring).
    rewrite sin2_cos2, Rmult_1_r. apply sqrt_square. assumption. }
  open_world w. mrun. run_visual.
  match goal with |- context [splitChild target 0 ?a ?b] =>
    match goal with |- context [splitChild target 1 ?c ?d] =>
      exists (splitChild target 0 a b), (splitChild target 1 c d) end end.
  split; [rewrite <- app_assoc; reflexivity |].
  rewrite !length_app, Hdel. cbn [length].
  split; [lia |]. split; [lia |].
  unfold splitChild. cbn.
  replace (-1 * (PI / 3)) with (- (PI / 3)) by ring.
  replace (1 * (PI / 3)) with (PI / 3) by ring.
  fold heading. fold speed.
  repeat split; try reflexivity; try apply Hnorm.
  apply Rmax_l.
Qed.


(** ** Relational specifications of monadic code *)

Section Relational.

Variable R : World -> World -> Prop.
Hypothesis R_refl : forall w, R w w.
Hypothesis R_trans : forall a b c, R a b -> R b c -> R a c.

Lemma rspec_ret {A} (P : A -> Prop) (a : A) : P a -> rspec R P (ret a).
Proof. intros Ha w. split; [exact Ha | apply R_refl]. Qed.

Lemma rspec_bind {A B} (P : A -> Prop) (Q : B -> Prop) (m : M A) (k : A -> M B) :
  rspec R P m -> (forall a, P a -> rspec R Q (k a)) -> rspec R Q (bind m k).
Proof.
  intros Hm Hk w. unfold bind.
  destruct (Hm w) as [Ha Hw]. destruct (m w) as [a w1]. cbn in *.
  destruct (Hk a Ha w1) as [Hb Hw']. split; [exact Hb |].
  eapply R_trans; eassumption.
Qed.

Lemma rspec_seq {A B} (Q : B -> Prop) (m : M A) (k : M B) :
  rspec R anyResult m -> rspec R Q k -> rspec R Q (bind m (fun _ => k)).
Proof. intros Hm Hk. apply rspec_bind with (P := anyResult); auto. Qed.

Lemma rspec_getW (Q : unit -> Prop) (k : World -> M unit) :
  (forall w, rspec R Q (k w)) -> rspec R Q (bind getW k).
Proof. intros Hk w. unfold bind, getW. apply Hk. Qed.

Lemma rspec_any {A} (P : A -> Prop) (m : M A) : rspec R P m -> rspec R anyResult m.
Proof. intros Hm w. split; [exact I | apply Hm]. Qed.

Lemma rspec_when (b : bool) (m : M unit) :
  rspec R anyResult m -> rspec R anyResult (when b m).
Proof. destruct b; [auto | intros _; apply rspec_ret; exact I]. Qed.

Lemma rspec_forFrom (body : nat -> M unit) n from :
  (forall i, rspec R anyResult (body i)) -> rspec R anyResult (forFrom from n body).
Proof.
  intros Hb. revert from. induction n as [| n IH]; intros from; cbn.
  - apply rspec_ret. exact I.
  - apply rspec_seq; [apply Hb | apply IH].
Qed.

Lemma rspec_forN (body : nat -> M unit) n :
  (forall i, rspec R anyResult (body i)) -> rspec R anyResult (forN n body).
Proof. apply rspec_forFrom. Qed.

End Relational.

Lemma rspec_weaken (R R' : World -> World -> Prop) {A} (P : A -> Prop) (m : M A) :
  (forall w w', R w w' -> R' w w') -> rspec R P m -> rspec R' P m.
Proof. intros HR Hm w. destruct (Hm w). split; auto. Qed.

(** *** The relations are preorders and form a chain *)

Lemma ringKept_refl w : ringKept w w.
Proof. split; auto. Qed.

Lemma ringKept_trans a b c : ringKept a b -> ringKept b c -> ringKept a c.
Proof.
  unfold ringKept. intros [L1 C1] [L2 C2]. split; [congruence |].
  intros Ha. apply C2. apply C1. exact Ha.
Qed.

Lemma extends_refl w : extends w w.
Proof.
  split; [reflexivity |]. split; [| apply ringKept_refl].
  exists []. rewrite app_nil_r. split; [reflexivity | constructor].
Qed.

Lemma extends_trans a b c : extends a b -> extends b c -> extends a c.
Proof.
  intros (B1 & (e1 & T1 & F1) & K1) (B2 & (e2 & T2 & F2) & K2).
  split; [congruence |]. split; [| eapply ringKept_trans; eassumption].
  exists (e1 ++ e2). rewrite T2, T1, app_assoc. split; [reflexivity |].
  apply Forall_app. auto.
Qed.

Lemma sameView_refl w : sameView w w.
Proof. split; [reflexivity |]. split; [reflexivity | apply ringKept_refl]. Qed.

Lemma sameView_trans a b c : sameView a b -> sameView b c -> sameView a c.
Proof.
  intros (B1 & C1 & K1) (B2 & C2 & K2).
  split; [congruence |]. split; [congruence | eapply ringKept_trans; eassumption].
Qed.

Lemma keepsInv_refl w : keepsInv w w.
Proof. intros Hw. exact Hw. Qed.

Lemma keepsInv_trans a b c : keepsInv a b -> keepsInv b c -> keepsInv a c.
Proof. unfold keepsInv. auto. Qed.

Lemma bossCount_app l1 l2 : bossCount (l1 ++ l2) = (bossCount l1 + bossCount l2)%nat.
Proof. unfold bossCount. rewrite filter_app, length_app. reflexivity. Qed.

Lemma bossCount_none l : Forall (fun t => type t <> BOSS) l -> bossCount l = 0%nat.
Proof.
  unfold bossCount. induction 1 as [| t l Ht Hl IH]; [reflexivity |].
  rewrite filter_cons_False by assumption. exact IH.
Qed.

Lemma bossCount_types l1 l2 : map type l1 = map type l2 -> bossCount l1 = bossCount l2.
Proof.
  unfold bossCount. revert l2. induction l1 as [| a l1 IH]; intros [| b l2] E; try discriminate.
  - reflexivity.
  - injection E as Eab El. rewrite !filter_cons. rewrite Eab.
    destruct (decide (type b = BOSS)); cbn; rewrite (IH l2 El); reflexivity.
Qed.

Lemma extends_sameView w w' : extends w w' -> sameView w w'.
Proof.
  intros (B & (e & T & F) & K). split; [exact B |]. split; [| exact K].
  rewrite T, bossCount_app, (bossCount_none e F). lia.
Qed.

Lemma sameView_keepsInv w w' : sameView w w' -> keepsInv w w'.
Proof.
  intros (B & C & [L K]) (I1 & I2 & I3 & I4).
  unfold SessionInv. rewrite B, C, L. repeat split; auto.
  rewrite <- I3, <- L. apply K. lia.
Qed.

Lemma extends_keepsInv w w' : extends w w' -> keepsInv w w'.
Proof. intros Hx. apply sameView_keepsInv, extends_sameView, Hx. Qed.

Lemma withParticles_extends pool cur n w :
  length pool = length (particlePool (gameState w)) ->
  (particleCursor (gameState w) < length pool -> cur < length pool)%nat ->
  extends w (withParticles pool cur n w).
Proof.
  intros L C. split; [reflexivity |]. split.
  - exists []. cbn. rewrite app_nil_r. split; [reflexivity | constructor].
  - split; cbn; [exact L |]. rewrite <- L. exact C.
Qed.

Lemma visualOnly_extends {A} (m : M A) : visualOnly m -> rspec extends anyResult m.
Proof.
  intros Hm w. destruct (Hm w) as (a & pool & cur & n & E & L & C).
  rewrite E. split; [exact I |]. cbn [snd]. apply withParticles_extends; assumption.
Qed.


(** *** Leaves *)

Lemma extends_modState (f : GameState -> GameState) :
  (forall s, targets (f s) = targets s /\ bossActive (f s) = bossActive s
             /\ length (particlePool (f s)) = length (particlePool s)
             /\ particleCursor (f s) = particleCursor s) ->
  rspec extends anyResult (modState f).
Proof.
  intros Hf w. split; [exact I |]. cbn.
  destruct (Hf (gameState w)) as (T & B & P & C).
  split; [exact B |]. split.
  - exists []. rewrite app_nil_r. split; [exact T | constructor].
  - split; [exact P |]. intros Hc. cbn. rewrite C, P. exact Hc.
Qed.

Lemma extends_modify (f : World -> World) :
  (forall w, gameState (f w) = gameState w) -> rspec extends anyResult (modify f).
Proof.
  intros Hf w. split; [exact I |]. pose proof (extends_refl w) as E.
  unfold extends, ringKept in *. cbn. rewrite Hf. exact E.
Qed.

Lemma extends_modStats (f : GameStats -> GameStats) : rspec extends anyResult (modStats f).
Proof. apply extends_modify. reflexivity. Qed.

Lemma extends_push (t : GameState -> Target) :
  (forall s, type (t s) <> BOSS) ->
  rspec extends anyResult (modState (fun s => set_targets (targets s ++ [t s]) s)).
Proof.
  intros Ht w. split; [exact I |]. cbn.
  split; [reflexivity |]. split; [| split; cbn; auto].
  exists [t (gameState w)]. split; [reflexivity |]. constructor; [apply Ht | constructor].
Qed.

(** Solves the side condition of [extends_modState] for a setter. *)
Ltac inert :=
  solve [intros s; destruct s; cbn; rewrite ?length_map, ?length_alter, ?length_insert;
         repeat split; reflexivity].

(** Walks through monadic code for a preorder with the given proofs of
    reflexivity and transitivity; [leaf] closes the primitive steps. *)
Ltac walk Hrefl Htrans leaf :=
  repeat match goal with
    | |- rspec ?R ?Q (bind getW ?k) => apply (rspec_getW R Q k); intros ?
    | |- rspec ?R ?Q (bind ?m (fun _ => ?k)) =>
        apply (rspec_seq R Htrans Q m k)
    | |- rspec ?R ?Q (bind ?m ?k) =>
        apply (rspec_bind R Htrans anyResult Q m k); [| intros ? _]
    | |- rspec ?R _ (when ?b ?m) => apply (rspec_when R Hrefl b m)
    | |- rspec ?R _ (forN ?n ?body) => apply (rspec_forN R Hrefl Htrans body n); intros ?
    | |- rspec ?R _ (ret ?a) => apply (rspec_ret R Hrefl anyResult a); exact I
    | |- rspec _ _ (if ?c then _ else _) => destruct c
    | |- rspec _ _ (match ?c with _ => _ end) => destruct c
    | |- rspec _ _ _ => leaf
    end.

Ltac extends_leaf :=
  idtac;
  match goal with
  | |- rspec _ _ Math_random => apply visualOnly_extends, visualOnly_random
  | |- rspec _ _ (spawnParticle _) => apply visualOnly_extends, visualOnly_spawnParticle
  | |- rspec _ _ (spawnHitParticles _ _ _ _ _) =>
      apply visualOnly_extends, visualOnly_spawnHitParticles
  | |- rspec _ _ (sparks _ _ _ _ _ _ _) => apply visualOnly_extends, visualOnly_sparks
  | |- rspec _ _ (modStats _) => apply extends_modStats
  | |- rspec _ _ (modify _) => apply extends_modify; reflexivity
  | |- rspec _ _ (modState _) => apply extends_modState; inert
  end.

Ltac walk_extends := walk extends_refl extends_trans extends_leaf.

(** The push of a target that is visibly not a boss. *)
Ltac push_leaf :=
  match goal with
  | |- rspec _ _ (modState (fun s => set_targets (targets s ++ [@?t s]) s)) =>
      apply (extends_push t); intros ?; cbn; try discriminate
  end.

Lemma extends_handleColorSelect c : rspec extends anyResult (handleColorSelect c).
Proof.
  unfold handleColorSelect. walk_extends.
  push_leaf.
Qed.

Lemma extends_shoot now tx ty : rspec extends anyResult (shoot now tx ty).
Proof. unfold shoot, pulseShooter, muzzleFlash. walk_extends. Qed.

Lemma extends_updateParticles tf : rspec extends anyResult (updateParticles tf).
Proof. unfold updateParticles. walk_extends. Qed.

Lemma extends_shakeTick dt : rspec extends anyResult (shakeTick dt).
Proof. unfold shakeTick. walk_extends. Qed.

Lemma typeOfRoll_not_boss r : typeOfRoll r <> BOSS.
Proof. unfold typeOfRoll. repeat destruct (JsMath.ltb _ _); discriminate. Qed.

Lemma extends_spawnTarget c sx sy ph : rspec extends anyResult (spawnTarget c sx sy ph).
Proof.
  unfold spawnTarget.
  apply rspec_getW; intros w.
  apply (rspec_bind _ extends_trans) with (P := anyResult);
    [walk_extends | intros ra _].
  apply (rspec_bind _ extends_trans) with (P := anyResult);
    [walk_extends | intros rs _].
  apply (rspec_bind _ extends_trans) with (P := anyResult);
    [walk_extends | intros roll _].
  apply (rspec_bind _ extends_trans) with (P := fun ty => ty <> BOSS).
  { destruct (_ && _).
    - apply (rspec_bind _ extends_trans) with (P := anyResult);
        [walk_extends | intros r _].
      apply (rspec_ret _ extends_refl). apply typeOfRoll_not_boss.
    - apply (rspec_ret _ extends_refl). discriminate. }
  intros ty Hty.
  apply (rspec_bind _ extends_trans) with (P := anyResult).
  { destruct ty; walk_extends. }
  intros [[[h vx1] vy1] sy1] _.
  walk_extends.
  push_leaf. exact Hty.
Qed.

Lemma extends_ordinarySpawn dt width ph : rspec extends anyResult (ordinarySpawn dt width ph).
Proof.
  unfold ordinarySpawn, trySpawn. walk_extends. apply extends_spawnTarget.
Qed.


(** *** Target behaviour keeps the types of the targets *)

Lemma bossCount_insert (l : list Target) i t t' :
  l !! i = Some t -> type t' = type t -> bossCount (<[i:=t']> l) = bossCount l.
Proof.
  intros Hl Ht. apply bossCount_types.
  rewrite list_fmap_insert. apply list_insert_id.
  rewrite list_lookup_fmap, Hl. cbn. congruence.
Qed.

Lemma bossCount_sublist (l1 l2 : list Target) :
  sublist l1 l2 -> (bossCount l1 <= bossCount l2)%nat.
Proof.
  unfold bossCount. induction 1 as [| a l1 l2 Hs IH | a l1 l2 Hs IH].
  - reflexivity.
  - rewrite !filter_cons. destruct (decide (type a = BOSS)); cbn; lia.
  - rewrite filter_cons. destruct (decide (type a = BOSS)); cbn; lia.
Qed.

Lemma type_moveTarget tf time t : type (moveTarget tf time t) = type t.
Proof. unfold moveTarget. destruct (type t) eqn:E, (initialY t); cbn; congruence. Qed.

Lemma type_enrage t : type (enrage t) = type t.
Proof.
  unfold enrage. destruct (maxHealth t); [| reflexivity].
  destruct (_ && _); [| reflexivity].
  repeat destruct (JsMath.ltb _ _); reflexivity.
Qed.

Lemma type_bossConstraints ph t : type (bossConstraints ph t) = type t.
Proof.
  unfold bossConstraints. destruct (_ && _); destruct (JsMath.ltb _ _); reflexivity.
Qed.

Lemma extends_colorShiftAbility dt t :
  rspec extends (fun t' => type t' = type t) (colorShiftAbility dt t).
Proof.
  unfold colorShiftAbility. destruct (JsMath.ltb _ _).
  - apply (rspec_bind _ extends_trans) with (P := anyResult); [walk_extends | intros r _].
    apply (rspec_seq _ extends_trans); [walk_extends |].
    apply (rspec_ret _ extends_refl). reflexivity.
  - apply (rspec_ret _ extends_refl). reflexivity.
Qed.

Lemma extends_summonAbility dt t :
  rspec extends (fun t' => type t' = type t) (summonAbility dt t).
Proof.
  unfold summonAbility. destruct (JsMath.leb _ _).
  - apply (rspec_seq _ extends_trans).
    + walk_extends. push_leaf.
    + apply (rspec_ret _ extends_refl). reflexivity.
  - apply (rspec_ret _ extends_refl). reflexivity.
Qed.

Lemma sameView_targetLogic dt tf ph i : rspec sameView anyResult (targetLogic dt tf ph i).
Proof.
  intros w. split; [exact I |]. unfold targetLogic, bind, getW.
  destruct (targets (gameState w) !! i) as [target |] eqn:Hi; [| apply sameView_refl].
  assert (Hab : exists ab : M Target,
            rspec extends (fun t' => type t' = type target) ab
            /\ match type target with
               | BOSS =>
                   bind (colorShiftAbility dt (bossConstraints ph target)) (fun t1 =>
                   bind (summonAbility dt t1) (fun t2 => ret (enrage t2)))
               | COLOR_SHIFT => colorShiftAbility dt target
               | _ => ret target
               end = ab).
  { eexists. split; [| reflexivity].
    destruct (type target) eqn:Ety;
      try (apply (rspec_ret _ extends_refl); exact Ety).
    - rewrite <- Ety. apply extends_colorShiftAbility.
    - rewrite <- Ety.
      eapply (rspec_bind _ extends_trans); [apply extends_colorShiftAbility |].
      intros t1 H1. eapply (rspec_bind _ extends_trans); [apply extends_summonAbility |].
      intros t2 H2. apply (rspec_ret _ extends_refl).
      rewrite type_enrage, H2, H1. apply type_bossConstraints. }
  destruct Hab as (ab & Hab & Eab). unfold bind in Eab. rewrite Eab. clear Eab.
  destruct (Hab w) as [Hty Hext]. destruct (ab w) as [t' w1]. cbn in *.
  pose proof (extends_sameView _ _ Hext) as (B & C & K).
  destruct Hext as (_ & (extra & T & _) & _).
  split; [exact B |]. split; [| exact K].
  rewrite <- C. apply bossCount_insert with (t := target).
  - rewrite T. apply lookup_app_l_Some. exact Hi.
  - rewrite type_moveTarget. exact Hty.
Qed.

Ltac sameView_leaf :=
  first
    [ apply sameView_targetLogic
    | apply (rspec_weaken extends sameView); [apply extends_sameView | extends_leaf] ].

Ltac walk_sameView := walk sameView_refl sameView_trans sameView_leaf.

Lemma sameView_physicsAndLogic dt tf ph : rspec sameView anyResult (physicsAndLogic dt tf ph).
Proof. unfold physicsAndLogic. walk_sameView. Qed.

(** *** Collisions keep the types of the targets *)

Lemma type_resolvePair t1 t2 :
  type (resolvePair t1 t2).1 = type t1 /\ type (resolvePair t1 t2).2 = type t2.
Proof.
  unfold resolvePair, movable.
  repeat match goal with
         | |- context [if ?c then _ else _] => destruct c; cbn
         end; auto.
Qed.

Lemma types_collidePair i j ts : map type (collidePair i j ts) = map type ts.
Proof.
  unfold collidePair.
  destruct (ts !! i) as [t1 |] eqn:Hi; [| reflexivity].
  destruct (ts !! j) as [t2 |] eqn:Hj; [| reflexivity].
  destruct (type_resolvePair t1 t2) as [E1 E2].
  destruct (resolvePair t1 t2) as [t1' t2']. cbn in *.
  rewrite !list_fmap_insert.
  rewrite (list_insert_id (map type ts) i); [| rewrite list_lookup_fmap, Hi; cbn; congruence].
  apply list_insert_id. rewrite list_lookup_fmap, Hj. cbn. congruence.
Qed.

Lemma types_fold {I} (f : list Target -> I -> list Target) (l : list I) ts :
  (forall ts i, map type (f ts i) = map type ts) ->
  map type (fold_left f l ts) = map type ts.
Proof.
  intros Hf. revert ts. induction l as [| i l IH]; intros ts; cbn; [reflexivity |].
  rewrite IH. apply Hf.
Qed.

Lemma types_collideAll ts : map type (collideAll ts) = map type ts.
Proof.
  unfold collideAll. apply types_fold. intros ts' i.
  apply types_fold. intros ts'' j. apply types_collidePair.
Qed.

Lemma type_wallConstraint width ph t : type (wallConstraint width ph t) = type t.
Proof.
  unfold wallConstraint.
  repeat match goal with
         | |- context [if ?c then _ else _] => destruct c; cbn
         end; auto.
Qed.

Lemma types_physicsStep width ph ts : map type (physicsStep width ph ts) = map type ts.
Proof.
  unfold physicsStep. rewrite map_map.
  rewrite (map_ext _ type); [apply types_collideAll |].
  intros t. apply type_wallConstraint.
Qed.

#[local] Arguments physicsStep : simpl never.

Lemma sameView_collisionPhysics width ph : rspec sameView anyResult (collisionPhysics width ph).
Proof.
  intros w. split; [exact I |]. cbn.
  split; [reflexivity |]. split; [| split; cbn; auto].
  apply bossCount_types. cbn. rewrite !types_physicsStep. reflexivity.
Qed.


(** *** The boss trigger and the hits keep the invariant *)

#[local] Arguments bossCount : simpl never.

Lemma keepsInv_bossTrigger width : rspec keepsInv anyResult (bossTrigger width).
Proof.
  intros w. split; [exact I |].
  destruct (bossActive (gameState w)) eqn:Hb.
  { rewrite bossTrigger_idle by auto. apply keepsInv_refl. }
  destruct (Rlt_le_dec (pointsForNextLevel (gameState w)) (scoreSinceLastBoss (gameState w)))
    as [Hs | Hs].
  2:{ rewrite bossTrigger_idle by auto. apply keepsInv_refl. }
  destruct (bossTrigger_fires width w Hb Hs) as (kept & r1 & r2 & n & Hsub & E).
  unfold exec in E. rewrite E. clear E.
  intros (I1 & I2 & I3 & I4). specialize (I2 Hb).
  pose proof (bossCount_sublist _ _ Hsub) as Hk.
  unfold SessionInv. cbn. rewrite bossCount_app.
  replace (bossCount [bossTarget width ((r2 - 0.5) * 2) (pick RED COLOR_KEYS r1)
                                 (level (gameState w))]) with 1%nat by reflexivity.
  repeat split; try assumption; try lia; try discriminate.
Qed.

(** Runs the next call of [spawnHitParticles] and keeps what its frame
    lemma says about the ring buffer. *)
Ltac run_visual_ring :=
  match goal with
  | |- context [spawnHitParticles ?a ?b ?c ?d ?e ?W] =>
      let E := fresh "E" in
      let L := fresh "Hlen" in
      let C := fresh "Hcur" in
      destruct (visualOnly_spawnHitParticles a b c d e W)
        as (? & ?pool & ?cur & ?n & E & L & C);
      rewrite E; clear E; cbn in L, C; cbn
  end.

Lemma extends_mismatchHit proj : rspec extends anyResult (mismatchHit proj).
Proof. unfold mismatchHit. walk_extends. Qed.

Lemma extends_splitChildren target : rspec extends anyResult (splitChildren target).
Proof. unfold splitChildren. walk_extends. push_leaf. Qed.

Lemma exec_bind {A B} (m : M A) (k : A -> M B) w :
  exec (bind m k) w = exec (k (m w).1) (exec m w).
Proof. unfold exec, bind. destruct (m w). reflexivity. Qed.

(** What a destruction does to the targets and to the boss flag. *)
Lemma destroyTarget_view i target accuracy w :
  let w' := exec (destroyTarget i target accuracy) w in
  ringKept w w'
  /\ bossActive (gameState w') =
     (if decide (type target = BOSS) then false else bossActive (gameState w))
  /\ exists extra,
       targets (gameState w') = delete i (targets (gameState w)) ++ extra
       /\ Forall (fun t => type t <> BOSS) extra.
Proof.
  unfold destroyTarget.
  repeat (rewrite exec_bind; cbv beta).
  match goal with |- context [exec (when ?b ?m) ?W] =>
    assert (Hsplit : extends W (exec (when b m) W))
      by (apply (rspec_when _ extends_refl); apply extends_splitChildren);
    set (w2 := exec (when b m) W) in * end.
  match goal with H : extends (exec ?m ?W) _ |- _ =>
    assert (Hvis : extends W (exec m W))
      by apply (visualOnly_extends _ (visualOnly_spawnHitParticles _ _ _ _ _));
    set (w3 := exec m W) in *;
    assert (HT : targets (gameState W) = delete i (targets (gameState w)));
    [| assert (HB : bossActive (gameState W) =
                   if decide (type target = BOSS) then false else bossActive (gameState w));
       [| assert (HP : particlePool (gameState W) = particlePool (gameState w)
                       /\ particleCursor (gameState W) = particleCursor (gameState w));
          [| set (w4 := W) in * ] ] ]
  end.
  - destruct (bool_decide (type target = BOSS)); reflexivity.
  - destruct (decide (type target = BOSS)) as [Ht | Ht].
    + rewrite (bool_decide_eq_true_2 _ Ht). reflexivity.
    + rewrite (bool_decide_eq_false_2 _ Ht). reflexivity.
  - destruct (bool_decide (type target = BOSS)); split; reflexivity.
  - pose proof (extends_trans _ _ _ Hvis Hsplit) as (B & (extra & T & F) & [L C]).
    destruct HP as [HP1 HP2]. cbv zeta.
    split; [split |].
    + rewrite L, HP1. reflexivity.
    + intros Hc. apply C. rewrite HP1, HP2. exact Hc.
    + split; [rewrite B; exact HB |].
      exists extra. rewrite T, HT. split; [reflexivity | exact F].
Qed.

Lemma bossCount_delete (ts : list Target) i t :
  ts !! i = Some t ->
  bossCount ts = (bossCount (delete i ts) + (if decide (type t = BOSS) then 1 else 0))%nat.
Proof.
  intros Hi. rewrite <- (take_drop_middle ts i t Hi) at 1.
  rewrite delete_take_drop, !bossCount_app.
  change (t :: drop (S i) ts) with ([t] ++ drop (S i) ts). rewrite bossCount_app.
  unfold bossCount at 2. rewrite filter_cons, filter_nil.
  destruct (decide (type t = BOSS)); cbn; lia.
Qed.

Lemma keepsInv_resolveHit proj i target w :
  targets (gameState w) !! i = Some target ->
  keepsInv w (exec (resolveHit proj i target) w).
Proof.
  intros Hi. unfold resolveHit.
  destruct (decide (pj_color proj = color target)) as [Hc | Hc].
  2:{ apply extends_keepsInv. apply (proj2 (extends_mismatchHit proj w)). }
  unfold matchHit.
  repeat (rewrite exec_bind; cbv beta).
  match goal with |- keepsInv _ (exec _ ?W) =>
    assert (HT : targets (gameState W) = targets (gameState w)) by reflexivity;
    assert (HB : bossActive (gameState W) = bossActive (gameState w)) by reflexivity;
    assert (HP : particlePool (gameState W) = particlePool (gameState w)) by reflexivity;
    assert (HC : particleCursor (gameState W) = particleCursor (gameState w))
      by reflexivity;
    set (w1 := W) in *
  end.
  destruct ((bool_decide (type target = TOUGH) || bool_decide (type target = BOSS))
            && JsMath.ltb 1 (health target)).
  - repeat (rewrite exec_bind; cbv beta).
    match goal with |- keepsInv _ (exec ?m ?W) =>
      assert (Hvis : extends W (exec m W))
        by apply (visualOnly_extends _ (visualOnly_spawnHitParticles _ _ _ _ _));
      assert (HT2 : targets (gameState W)
                    = <[i := set_health (health target - 1) target]> (targets (gameState w1)))
        by reflexivity;
      assert (HB2 : bossActive (gameState W) = bossActive (gameState w1)) by reflexivity;
      assert (HP2 : particlePool (gameState W) = particlePool (gameState w1))
        by reflexivity;
      assert (HC2 : particleCursor (gameState W) = particleCursor (gameState w1))
        by reflexivity;
      set (w2 := W) in *
    end.
    apply sameView_keepsInv.
    apply extends_sameView in Hvis. destruct Hvis as (B & Cn & [L K]).
    split; [congruence |]. split; [| split].
    + rewrite Cn, HT2, HT. apply bossCount_insert with (t := target); [exact Hi | reflexivity].
    + rewrite L, HP2, HP. reflexivity.
    + intros Hcur. apply K. rewrite HP2, HC2, HP, HC. exact Hcur.
  - pose proof (destroyTarget_view i target
                  (Rmax 0 (1 - hitDistance proj target / radius target)) w1)
      as ([L C] & B & (extra & T & F)).
    cbv zeta in *.
    intros (I1 & I2 & I3 & I4).
    pose proof (bossCount_delete _ _ _ Hi) as Hdel.
    unfold SessionInv. rewrite T, B, bossCount_app, (bossCount_none extra F), L, HT, HB, HP.
    assert (Hcur : (particleCursor
                      (gameState (exec (destroyTarget i target
                         (Rmax 0 (1 - hitDistance proj target / radius target))) w1))
                    < 600)%nat).
    { rewrite <- I3, <- HP, <- L. apply C. rewrite HP, HC, I3. exact I4. }
    destruct (decide (type target = BOSS)).
    + repeat split; try lia; exact Hcur.
    + repeat split; try lia; try exact Hcur.
      intros Hb. specialize (I2 Hb). lia.
Qed.

(** *** Every event keeps the invariant *)

Lemma extends_deactivate slot : rspec extends anyResult (deactivate slot).
Proof. unfold deactivate. walk_extends. Qed.

Lemma keepsInv_hitOrLeave proj slot width height :
  rspec keepsInv anyResult (hitOrLeave proj slot width height).
Proof.
  intros w. split; [exact I |]. unfold hitOrLeave, bind at 1, getW. cbn zeta.
  destruct (findHit proj _ _) as [i |].
  - destruct (targets (gameState w) !! i) as [target |] eqn:Hi; [| apply keepsInv_refl].
    change ((resolveHit proj i target >> deactivate slot) w).2
      with (exec (resolveHit proj i target >> deactivate slot) w).
    rewrite exec_bind.
    eapply keepsInv_trans; [apply keepsInv_resolveHit; exact Hi |].
    apply extends_keepsInv, extends_deactivate.
  - apply extends_keepsInv. apply (rspec_when _ extends_refl). apply extends_deactivate.
Qed.

Ltac inv_leaf :=
  first
    [ apply keepsInv_bossTrigger
    | apply keepsInv_hitOrLeave
    | apply (rspec_weaken sameView keepsInv);
      [ apply sameView_keepsInv
      | first [ apply sameView_physicsAndLogic | apply sameView_collisionPhysics ] ]
    | apply (rspec_weaken extends keepsInv);
      [ apply extends_keepsInv
      | first [ apply extends_ordinarySpawn | apply extends_updateParticles
              | apply extends_shakeTick | apply extends_shoot
              | apply extends_handleColorSelect | extends_leaf ] ] ].

Ltac walk_inv := walk keepsInv_refl keepsInv_trans inv_leaf.

Lemma keepsInv_projectileUpdate tf width height :
  rspec keepsInv anyResult (projectileUpdate tf width height).
Proof. unfold projectileUpdate, projectileStep. walk_inv. Qed.

Lemma keepsInv_animate t : rspec keepsInv anyResult (animate t).
Proof.
  unfold animate, spawning. walk_inv; apply keepsInv_projectileUpdate.
Qed.

Lemma keepsInv_handle e : rspec keepsInv anyResult (handle e).
Proof.
  destruct e; cbn; [apply keepsInv_animate | | | | |];
    unfold updateDimensions, skipTutorial, pulseTimeout;
    walk_inv.
Qed.

Lemma SessionInv_initial : SessionInv initialWorld.
Proof.
  unfold SessionInv, initialWorld, initialGameState.
  cbn [gameState targets bossActive particlePool particleCursor].
  rewrite length_map, length_seq.
  split; [cbv; lia |]. split; [reflexivity |]. split; [reflexivity | lia].
Qed.

Lemma SessionInv_run es w : SessionInv w -> SessionInv (run es w).
Proof.
  revert w. induction es as [| e es IH]; intros w Hw; cbn; [exact Hw |].
  apply IH. apply (keepsInv_handle e w). exact Hw.
Qed.

Lemma reachable_SessionInv w : reachable w -> SessionInv w.
Proof. intros [es ->]. apply SessionInv_run, SessionInv_initial. Qed.


(** ** The session invariants *)

(** C5: in every world of a session at most one BOSS target is in the list
    of targets, and none while the boss-active flag is down; the boss
    trigger, the one place that spawns a boss, does nothing while the flag
    is up. The flag goes down only in the destruction of a boss
    ([destroyTarget_view]), which removes it. This holds in every reachable
    world, and more generally after any events from any world in which it
    holds ([SessionInv]), such as a world in the middle of a boss fight. *)
Theorem C5_at_most_one_boss (w0 : World) (es : list Event) :
  reachable w0 \/ SessionInv w0 ->
  let w := run es w0 in
  (bossCount (targets (gameState w)) <= 1)%nat
  /\ (bossActive (gameState w) = false -> bossCount (targets (gameState w)) = 0%nat)
  /\ (bossActive (gameState w) = true -> forall width, bossTrigger width w = (tt, w)).
Proof.
  intros H0 w.
  assert (Hinv : SessionInv w0) by (destruct H0; [apply reachable_SessionInv |]; assumption).
  destruct (SessionInv_run es w0 Hinv) as (I1 & I2 & _). fold w in I1, I2.
  split; [exact I1 |]. split; [exact I2 |].
  intros Hb width. apply bossTrigger_idle. left. exact Hb.
Qed.

(** *** The particle ring *)

Lemma spawnParticle_ring config w :
  length (particlePool (gameState w)) = 600%nat ->
  (particleCursor (gameState w) < 600)%nat ->
  exists p,
    particlePool (gameState w) !! particleCursor (gameState w) = Some p
    /\ exec (spawnParticle config) w =
       set_gameState
         (set_particlePool
            (<[particleCursor (gameState w) := assignParticle p config]>
               (particlePool (gameState w)))
            (set_particleCursor ((particleCursor (gameState w) + 1) mod 600)
               (gameState w))) w.
Proof.
  intros Hl Hc.
  destruct (lookup_lt_is_Some_2 (particlePool (gameState w)) (particleCursor (gameState w)))
    as [p Hp]; [lia |].
  exists p. split; [exact Hp |].
  unfold exec, spawnParticle, bind, getW. rewrite Hl, Hp. reflexivity.
Qed.

#[local] Arguments Nat.modulo : simpl never.

Lemma spawnAll_ring configs w :
  length (particlePool (gameState w)) = 600%nat ->
  (particleCursor (gameState w) < 600)%nat ->
  length (particlePool (gameState (spawnAll configs w))) = 600%nat
  /\ particleCursor (gameState (spawnAll configs w))
     = ((particleCursor (gameState w) + length configs) mod 600)%nat.
Proof.
  unfold spawnAll. revert w. induction configs as [| c cs IH]; intros w Hl Hc.
  - change (exec (forOf [] spawnParticle) w) with w.
    split; [exact Hl |]. cbn [length]. rewrite Nat.add_0_r, Nat.mod_small; auto.
  - cbn [forOf]. rewrite exec_bind.
    destruct (spawnParticle_ring c w Hl Hc) as (p & Hp & E).
    destruct (IH (exec (spawnParticle c) w)) as [L C].
    + rewrite E. cbn. rewrite length_insert. exact Hl.
    + rewrite E. cbn. apply Nat.mod_upper_bound. lia.
    + split; [exact L |]. rewrite C, E. cbn.
      rewrite Nat.Div0.add_mod_idemp_l. f_equal. lia.
Qed.

(** A slot that is alive stays alive through a call, and the slot under
    the cursor is alive after it. *)
Lemma spawnParticle_active config w :
  length (particlePool (gameState w)) = 600%nat ->
  (particleCursor (gameState w) < 600)%nat ->
  let w' := exec (spawnParticle config) w in
  (exists p, particlePool (gameState w') !! particleCursor (gameState w) = Some p
             /\ pt_active p = true)
  /\ (forall i p, particlePool (gameState w) !! i = Some p -> pt_active p = true ->
        exists p', particlePool (gameState w') !! i = Some p' /\ pt_active p' = true).
Proof.
  intros Hl Hc w'. subst w'.
  destruct (spawnParticle_ring config w Hl Hc) as (p & Hp & E). rewrite E.
  cbn [gameState set_gameState particlePool set_particlePool].
  split.
  - exists (assignParticle p config). split; [| reflexivity].
    apply list_lookup_insert_eq. rewrite Hl. exact Hc.
  - intros i q Hq Ha. destruct (decide (i = particleCursor (gameState w))) as [-> | Hne].
    + exists (assignParticle p config). split; [| reflexivity].
      apply list_lookup_insert_eq. rewrite Hl. exact Hc.
    + exists q. split; [| exact Ha]. rewrite list_lookup_insert_ne by congruence. exact Hq.
Qed.

Lemma spawnAll_keeps_active configs : forall w,
  length (particlePool (gameState w)) = 600%nat ->
  (particleCursor (gameState w) < 600)%nat ->
  forall i p, particlePool (gameState w) !! i = Some p -> pt_active p = true ->
  exists p', particlePool (gameState (spawnAll configs w)) !! i = Some p'
             /\ pt_active p' = true.
Proof.
  unfold spawnAll. induction configs as [| c cs IH]; intros w Hl Hc i p Hp Ha.
  - exists p. split; assumption.
  - cbn [forOf]. rewrite exec_bind.
    destruct (spawnParticle_active c w Hl Hc) as [_ Hkeep].
    destruct (Hkeep i p Hp Ha) as (p1 & Hp1 & Ha1).
    destruct (spawnAll_ring [c] w Hl Hc) as [L C].
    unfold spawnAll in L, C. cbn [forOf] in L, C. rewrite exec_bind in L, C.
    change (exec (ret tt) ?W) with W in L, C.
    apply (IH _ L) with (p := p1); [| exact Hp1 | exact Ha1].
    rewrite C. apply Nat.mod_upper_bound. lia.
Qed.

(** The slots of the last calls are alive: the call number [k] went to the
    slot [k] steps after the cursor. *)
Lemma spawnAll_active configs : forall w,
  length (particlePool (gameState w)) = 600%nat ->
  (particleCursor (gameState w) < 600)%nat ->
  forall k, (k < length configs)%nat ->
  exists p,
    particlePool (gameState (spawnAll configs w))
      !! ((particleCursor (gameState w) + k) mod 600)%nat = Some p
    /\ pt_active p = true.
Proof.
  induction configs as [| c cs IH]; intros w Hl Hc k Hk; [cbn in Hk; lia |].
  destruct (spawnParticle_active c w Hl Hc) as [(p & Hp & Ha) _].
  destruct (spawnAll_ring [c] w Hl Hc) as [L C].
  unfold spawnAll in *. cbn [forOf] in *. rewrite exec_bind in L, C.
  change (exec (ret tt) ?W) with W in L, C.
  rewrite exec_bind.
  assert (C' : (particleCursor (gameState (exec (spawnParticle c) w)) < 600)%nat)
    by (rewrite C; apply Nat.mod_upper_bound; lia).
  destruct k as [| k].
  - rewrite Nat.add_0_r, Nat.mod_small by exact Hc.
    exact (spawnAll_keeps_active cs _ L C' _ p Hp Ha).
  - destruct (IH _ L C' k ltac:(cbn in Hk; lia)) as (q & Hq & Hqa).
    exists q. split; [| exact Hqa]. rewrite <- Hq. f_equal.
    rewrite C. cbn [length]. rewrite Nat.Div0.add_mod_idemp_l. f_equal. lia.
Qed.

Lemma spawnAll_full configs w :
  length (particlePool (gameState w)) = 600%nat ->
  (particleCursor (gameState w) < 600)%nat ->
  (600 <= length configs)%nat ->
  Forall (fun p => pt_active p = true) (particlePool (gameState (spawnAll configs w))).
Proof.
  intros Hl Hc Hn. apply Forall_lookup. intros i p Hi.
  destruct (spawnAll_ring configs w Hl Hc) as [L _].
  assert (Hlt : (i < 600)%nat) by (rewrite <- L; apply lookup_lt_Some in Hi; exact Hi).
  set (c := particleCursor (gameState w)) in *.
  destruct (spawnAll_active configs w Hl Hc ((i + 600 - c) mod 600)%nat) as (q & Hq & Ha).
  { pose proof (Nat.mod_upper_bound (i + 600 - c) 600). lia. }
  fold c in Hq.
  assert (E : ((c + (i + 600 - c) mod 600) mod 600 = i)%nat).
  { rewrite Nat.Div0.add_mod_idemp_r.
    replace (c + (i + 600 - c))%nat with (i + 1 * 600)%nat by lia.
    rewrite Nat.Div0.mod_add. apply Nat.mod_small. exact Hlt. }
  rewrite E in Hq. congruence.
Qed.

(** C9: in every reachable world the particle pool has exactly 600 slots,
    so at most 600 particles are alive, and this stays so after any
    sequence of calls of [spawnParticle], which moves the cursor forward by
    the number of calls modulo 600; once 600 calls or more have been made
    every slot is alive. Whatever the state of the slots, one more call
    succeeds: it leaves the 600 slots in place, writes the fields of its
    argument into the particle under the cursor, which keeps its [id] and
    the fields that the argument leaves out, marks it alive, sets its
    rotation to that of the argument or to 0, touches no other slot and
    advances the cursor by one modulo 600. *)
Theorem C9_particle_ring (w : World) (config : PartialParticle)
    (configs : list PartialParticle) :
  reachable w ->
  let w1 := spawnAll configs w in
  let w2 := exec (spawnParticle config) w1 in
  let c := particleCursor (gameState w1) in
  length (particlePool (gameState w)) = 600%nat
  /\ (length (activeParticles w) <= 600)%nat
  /\ length (particlePool (gameState w1)) = 600%nat
  /\ (length (activeParticles w1) <= 600)%nat
  /\ c = ((particleCursor (gameState w) + length configs) mod 600)%nat
  /\ ((600 <= length configs)%nat ->
      Forall (fun p => pt_active p = true) (particlePool (gameState w1)))
  /\ length (particlePool (gameState w2)) = 600%nat
  /\ (length (activeParticles w2) <= 600)%nat
  /\ particleCursor (gameState w2) = ((c + 1) mod 600)%nat
  /\ (forall i, i <> c ->
        particlePool (gameState w2) !! i = particlePool (gameState w1) !! i)
  /\ (exists old new,
        particlePool (gameState w1) !! c = Some old
        /\ particlePool (gameState w2) !! c = Some new
        /\ pt_id new = pt_id old
        /\ pt_active new = true
        /\ pt_x new = default (pt_x old) (c_x config)
        /\ pt_y new = default (pt_y old) (c_y config)
        /\ pt_vx new = default (pt_vx old) (c_vx config)
        /\ pt_vy new = default (pt_vy old) (c_vy config)
        /\ pt_life new = default (pt_life old) (c_life config)
        /\ pt_color new = default (pt_color old) (c_color config)
        /\ pt_size new = default (pt_size old) (c_size config)
        /\ pt_type new = default (pt_type old) (c_type config)
        /\ pt_rotation new = Some (default 0 (c_rotation config))).
Proof.
  intros Hr w1 w2 c. destruct (reachable_SessionInv w Hr) as (_ & _ & Hl & Hc).
  destruct (spawnAll_ring configs w Hl Hc) as [L C]. fold w1 in L, C. fold c in C.
  assert (Hc1 : (c < 600)%nat) by (rewrite C; apply Nat.mod_upper_bound; lia).
  destruct (spawnParticle_ring config w1 L Hc1) as (p & Hp & E). fold w2 c in E, Hp.
  assert (L2 : length (particlePool (gameState w2)) = 600%nat).
  { rewrite E. cbn. rewrite length_insert. exact L. }
  split; [exact Hl |].
  split; [unfold activeParticles; rewrite <- Hl; apply length_filter |].
  split; [exact L |].
  split; [unfold activeParticles; rewrite <- L; apply length_filter |].
  split; [exact C |].
  split; [apply spawnAll_full; assumption |].
  split; [exact L2 |].
  split; [unfold activeParticles; rewrite <- L2; apply length_filter |].
  split; [rewrite E; reflexivity |].
  split.
  { intros i Hi. rewrite E. cbn. apply list_lookup_insert_ne. congruence. }
  exists p, (assignParticle p config).
  split; [exact Hp |]. split; [| repeat split; reflexivity].
  rewrite E. cbn. apply list_lookup_insert_eq. rewrite L. exact Hc1.
Qed.


(** ** The outcome of a hit *)

Lemma exec_visual {A} (m : M A) :
  visualOnly m -> forall w, exists pool cur n, exec m w = withParticles pool cur n w.
Proof.
  intros Hm w. destruct (Hm w) as (a & pool & cur & n & E & _).
  exists pool, cur, n. unfold exec. rewrite E. reflexivity.
Qed.

(** Replaces the next [spawnHitParticles] of an [exec] chain by its frame. *)
Ltac exec_visual_step :=
  match goal with
  | |- context [exec (spawnHitParticles ?a ?b ?c ?d ?e) ?W] =>
      let E := fresh "E" in
      destruct (exec_visual _ (visualOnly_spawnHitParticles a b c d e) W)
        as (?pool & ?cur & ?n & E);
      rewrite E; clear E
  end.

Lemma splitChildren_targets t w :
  targets (gameState (exec (splitChildren t) w))
  = targets (gameState w)
    ++ [splitChild t 0 (random (randomCount w)) (random (S (randomCount w)));
        splitChild t 1 (random (S (S (randomCount w))))
                       (random (S (S (S (randomCount w)))))].
Proof.
  unfold exec, splitChildren, forN, forFrom, bind, Math_random, modState, modify, ret.
  cbn. rewrite <- app_assoc. reflexivity.
Qed.

(** A colour-matching hit that destroys a target other than the boss. *)
Lemma hit_destroys proj i target w :
  pj_color proj = color target ->
  type target <> BOSS ->
  (type target = TOUGH -> health target <= 1) ->
  let w' := exec (resolveHit proj i target) w in
  score (gameState w')
  = score (gameState w)
    + baseScoreOf (type target) * scoreMultiplier diffSettings
      * streakMultiplier (streak (gameState w) + 1)
  /\ streak (gameState w') = (streak (gameState w) + 1)%Z
  /\ level (gameState w') = level (gameState w)
  /\ isEnding (gameState w') = isEnding (gameState w)
  /\ speedMultiplier (gameState w') = speedMultiplier (gameState w)
  /\ bossActive (gameState w') = bossActive (gameState w)
  /\ handoffTimers w' = handoffTimers w
  /\ targetsMissed (sessionStats w') = targetsMissed (sessionStats w)
  /\ targetsHit (sessionStats w') = (targetsHit (sessionStats w) + 1)%Z
  /\ exists extra,
       targets (gameState w') = delete i (targets (gameState w)) ++ extra
       /\ length extra = (if decide (type target = SPLIT) then 2 else 0)%nat.
Proof.
  intros Hc Hnb Hth w'. subst w'.
  unfold resolveHit. rewrite (decide_True _ _ Hc). unfold matchHit, destroyTarget.
  destruct (type target) eqn:Ety; try (exfalso; apply Hnb; reflexivity);
    try rewrite (ltb_false 1 (health target)) by auto;
    tdecide; cbn [orb andb];
    repeat (rewrite exec_bind; cbv beta);
    exec_visual_step;
    (repeat split; try reflexivity; tdecide;
     first [ exists []; split; [rewrite app_nil_r; reflexivity | reflexivity]
           | eexists; split;
             [cbn [when]; rewrite splitChildren_targets; reflexivity | reflexivity] ]).
Qed.


(** A hit on a target of another colour. *)
Lemma hit_mismatch proj i target w :
  pj_color proj <> color target ->
  let w' := exec (resolveHit proj i target) w in
  streak (gameState w') = 0%Z
  /\ isEnding (gameState w') = true
  /\ targetsMissed (sessionStats w') = (targetsMissed (sessionStats w) + 1)%Z
  /\ totalScore (sessionStats w') = JsMath.floor (score (gameState w))
  /\ score (gameState w') = score (gameState w)
  /\ level (gameState w') = level (gameState w)
  /\ targets (gameState w') = targets (gameState w)
  /\ projectilePool (gameState w') = projectilePool (gameState w)
  /\ handoffTimers w' = handoffTimers w ++ [1000].
Proof.
  intros Hc w'. subst w'.
  unfold resolveHit. rewrite (decide_False _ _ Hc). unfold mismatchHit.
  repeat (rewrite exec_bind; cbv beta).
  exec_visual_step.
  repeat split; reflexivity.
Qed.

(** The scan finds the last target of the list that is in range. *)
Lemma findHit_spec proj ts n i :
  findHit proj ts n = Some i ->
  (i < n)%nat
  /\ (exists t, ts !! i = Some t /\ inHitRange proj t = true)
  /\ (forall j t, (i < j < n)%nat -> ts !! j = Some t -> inHitRange proj t = false).
Proof.
  induction n as [| n IH]; cbn; [discriminate |].
  destruct (ts !! n) as [t |] eqn:Hn.
  - destruct (inHitRange proj t) eqn:Hr.
    + intros [= <-]. split; [lia |]. split; [eauto |]. intros j t' Hj. lia.
    + intros Hf. destruct (IH Hf) as (Hi & Ht & Hlater).
      split; [lia |]. split; [exact Ht |].
      intros j t' Hj Hlk. destruct (decide (j = n)) as [-> | Hne].
      * congruence.
      * apply (Hlater j t'); [lia | exact Hlk].
  - intros Hf. destruct (IH Hf) as (Hi & Ht & Hlater).
    split; [lia |]. split; [exact Ht |].
    intros j t' Hj Hlk. destruct (decide (j = n)) as [-> | Hne].
    + congruence.
    + apply (Hlater j t'); [lia | exact Hlk].
Qed.

Lemma findHit_complete proj ts n i t :
  (i < n)%nat ->
  ts !! i = Some t ->
  inHitRange proj t = true ->
  (forall j t', (i < j < n)%nat -> ts !! j = Some t' -> inHitRange proj t' = false) ->
  findHit proj ts n = Some i.
Proof.
  induction n as [| n IH]; intros Hi Ht Hr Hlater; [lia |]. cbn.
  destruct (decide (i = n)) as [-> | Hne].
  - rewrite Ht, Hr. reflexivity.
  - destruct (ts !! n) as [t' |] eqn:Hn.
    + rewrite (Hlater n t') by (lia || assumption).
      apply IH; [lia | assumption | assumption |].
      intros j t'' Hj. apply Hlater. lia.
    + apply IH; [lia | assumption | assumption |].
      intros j t'' Hj. apply Hlater. lia.
Qed.

Lemma findHit_none proj ts n :
  findHit proj ts n = None ->
  forall j t, (j < n)%nat -> ts !! j = Some t -> inHitRange proj t = false.
Proof.
  induction n as [| n IH]; cbn; intros Hf j t Hj Hlk; [lia |].
  destruct (ts !! n) as [t' |] eqn:Hn.
  - destruct (inHitRange proj t') eqn:Hr; [discriminate |].
    destruct (decide (j = n)) as [-> | Hne]; [congruence |].
    apply (IH Hf j t); [lia | exact Hlk].
  - destruct (decide (j = n)) as [-> | Hne]; [congruence |].
    apply (IH Hf j t); [lia | exact Hlk].
Qed.

(** The world after the scan, when the target at [i] is the one hit. *)
Lemma hitOrLeave_hit proj slot width height w i target :
  findHit proj (targets (gameState w)) (length (targets (gameState w))) = Some i ->
  targets (gameState w) !! i = Some target ->
  exec (hitOrLeave proj slot width height) w
  = exec (deactivate slot) (exec (resolveHit proj i target) w).
Proof.
  intros Hf Hi. unfold hitOrLeave. rewrite exec_bind. cbn [getW fst snd exec].
  change (exec getW w) with w.
  rewrite Hf, Hi. apply exec_bind.
Qed.


(** ** The density cap and the ordinary spawn *)

Lemma grows_refl k w : grows k w w.
Proof. split; [reflexivity | lia]. Qed.

Lemma grows_0_trans a b c : grows 0 a b -> grows 0 b c -> grows 0 a c.
Proof. intros [S1 L1] [S2 L2]. split; [congruence | lia]. Qed.

Lemma grows_0_1 a b c : grows 0 a b -> grows 1 b c -> grows 1 a c.
Proof. intros [S1 L1] [S2 L2]. split; [congruence | lia]. Qed.

Lemma rspec_bind_mixed (R1 R2 : World -> World -> Prop) {A B}
    (P : A -> Prop) (Q : B -> Prop) (m : M A) (k : A -> M B) :
  (forall a b c, R1 a b -> R2 b c -> R2 a c) ->
  rspec R1 P m -> (forall a, P a -> rspec R2 Q (k a)) -> rspec R2 Q (bind m k).
Proof.
  intros Hc Hm Hk w. unfold bind.
  destruct (Hm w) as [Ha Hw]. destruct (m w) as [a w1]. cbn in *.
  destruct (Hk a Ha w1) as [Hb Hw']. split; [exact Hb |].
  eapply Hc; eassumption.
Qed.

Lemma grows_0_visual {A} (m : M A) : visualOnly m -> rspec (grows 0) anyResult m.
Proof.
  intros Hm w. destruct (Hm w) as (a & pool & cur & n & E & _).
  rewrite E. split; [exact I |]. split; cbn; [reflexivity | lia].
Qed.

Lemma grows_0_modState (f : GameState -> GameState) :
  (forall s, targets (f s) = targets s /\ speedMultiplier (f s) = speedMultiplier s) ->
  rspec (grows 0) anyResult (modState f).
Proof.
  intros Hf w. split; [exact I |]. destruct (Hf (gameState w)) as [T S].
  split; cbn; [exact S | rewrite T; lia].
Qed.

Lemma grows_0_modify (f : World -> World) :
  (forall w, gameState (f w) = gameState w) -> rspec (grows 0) anyResult (modify f).
Proof.
  intros Hf w. split; [exact I |]. unfold grows. cbn. rewrite Hf. split; [reflexivity | lia].
Qed.

Lemma grows_1_push (t : GameState -> Target) :
  rspec (grows 1) anyResult (modState (fun s => set_targets (targets s ++ [t s]) s)).
Proof.
  intros w. split; [exact I |]. split; cbn; [reflexivity |].
  rewrite length_app. cbn. lia.
Qed.

Ltac grows_0_leaf :=
  idtac;
  match goal with
  | |- rspec _ _ Math_random => apply grows_0_visual, visualOnly_random
  | |- rspec _ _ (modify _) => apply grows_0_modify; reflexivity
  | |- rspec _ _ (modState _) =>
      apply grows_0_modState; solve [intros s; destruct s; split; reflexivity]
  end.

Ltac walk_grows_0 := walk (grows_refl 0) grows_0_trans grows_0_leaf.

(** Walks to the single push at the end of the ordinary spawn. *)
Ltac walk_grows_1 :=
  repeat match goal with
    | |- rspec ?R ?Q (bind getW ?k) => apply (rspec_getW R Q k); intros ?
    | |- rspec ?R ?Q (bind ?m ?k) =>
        apply (rspec_bind_mixed (grows 0) R anyResult Q m k grows_0_1);
        [walk_grows_0 | intros ? _]
    | |- rspec _ _ (ret ?a) => apply (rspec_ret (grows 1) (grows_refl 1) anyResult a); exact I
    | |- rspec _ _ (if ?c then _ else _) => destruct c
    | |- rspec _ _ (match ?c with _ => _ end) => destruct c
    | |- rspec _ _ (modState (fun s => set_targets (targets s ++ [@?t s]) s)) =>
        apply (grows_1_push t)
    end.

Lemma grows_1_trySpawn width ph : rspec (grows 1) anyResult (trySpawn width ph).
Proof. unfold trySpawn, spawnTarget. walk_grows_1. Qed.

(** The ordinary spawn pushes at most one target, and none when its guard
    fails. *)
Lemma ordinarySpawn_grows dt width ph w :
  let w' := exec (ordinarySpawn dt width ph) w in
  grows 1 w w' /\ (spawnAllowed (gameState w) = false -> grows 0 w w').
Proof.
  unfold ordinarySpawn. fold (spawnAllowed). 
  repeat (rewrite exec_bind; cbv beta).
  change (exec getW ?W) with W. cbn [getW fst].
  match goal with |- context [if JsMath.ltb ?a ?b then _ else _] =>
    destruct (JsMath.ltb a b) end.
  2:{ split; [| intros _]; (split; [reflexivity | cbn; lia]). }
  repeat (rewrite exec_bind; cbv beta).
  match goal with |- context [exec (if ?c then _ else _) ?W] =>
    change c with (spawnAllowed (gameState w));
    assert (H0 : grows 0 w W) by (split; [reflexivity | cbn; lia]);
    set (w1 := W) in *
  end.
  destruct (spawnAllowed (gameState w)).
  - split; [| discriminate].
    eapply grows_0_1; [exact H0 |]. apply (proj2 (grows_1_trySpawn width ph w1)).
  - split; [| intros _; exact H0].
    eapply grows_0_1; [exact H0 | apply grows_refl].
Qed.


(** C2 (amended): the ordinary spawn leaves the density cap as it is and
    appends at most one target, and only when the list is strictly shorter
    than the cap (and, during a boss fight, shorter than 3): it never takes
    the list above the cap. The other pushes (children of a SPLIT target,
    minions of the boss, the boss itself, the tutorial target) do not
    consult the cap. *)
Theorem C2_ordinary_spawn_respects_cap (deltaTime width playableHeight : R) (w : World) :
  let w' := exec (ordinarySpawn deltaTime width playableHeight) w in
  currentMaxTargets (gameState w') = currentMaxTargets (gameState w)
  /\ (length (targets (gameState w)) <= length (targets (gameState w'))
      <= length (targets (gameState w)) + 1)%nat
  /\ ((length (targets (gameState w)) < length (targets (gameState w')))%nat ->
      (Z.of_nat (length (targets (gameState w))) < currentMaxTargets (gameState w))%Z
      /\ (bossActive (gameState w) = true -> (length (targets (gameState w)) < 3)%nat))
  /\ ((Z.of_nat (length (targets (gameState w))) <= currentMaxTargets (gameState w))%Z ->
      (Z.of_nat (length (targets (gameState w'))) <= currentMaxTargets (gameState w'))%Z).
Proof.
  intros w'. destruct (ordinarySpawn_grows deltaTime width playableHeight w) as [[S L] H0].
  fold w' in S, L, H0.
  assert (Hcap : currentMaxTargets (gameState w') = currentMaxTargets (gameState w)).
  { unfold currentMaxTargets, calculatedMax. rewrite S. reflexivity. }
  assert (Hguard : (length (targets (gameState w)) < length (targets (gameState w')))%nat ->
                   spawnAllowed (gameState w) = true).
  { intros Hlt. destruct (spawnAllowed (gameState w)) eqn:E; [reflexivity |].
    destruct (H0 eq_refl) as [_ L0]. lia. }
  split; [exact Hcap |]. split; [exact L |]. split.
  - intros Hlt. specialize (Hguard Hlt). unfold spawnAllowed in Hguard.
    apply andb_true_iff in Hguard. destruct Hguard as [G1 G2].
    apply Z.ltb_lt in G1. split; [exact G1 |].
    intros Hb. rewrite Hb in G2. cbn [negb orb] in G2. apply Nat.ltb_lt in G2. exact G2.
  - intros Hle. rewrite Hcap.
    destruct (Nat.eq_dec (length (targets (gameState w'))) (length (targets (gameState w))))
      as [E | E]; [rewrite E; exact Hle |].
    assert (Hlt : (length (targets (gameState w)) < length (targets (gameState w')))%nat)
      by lia.
    specialize (Hguard Hlt). unfold spawnAllowed in Hguard.
    apply andb_true_iff in Hguard. destruct Hguard as [G1 _].
    apply Z.ltb_lt in G1. lia.
Qed.


(** ** Shooting *)

Lemma visualOnly_muzzleFlash sx sy : visualOnly (muzzleFlash sx sy).
Proof. unfold muzzleFlash. visual. Qed.

(** What a shot that goes ahead does. *)
Lemma shoot_fires now tx ty w :
  canShoot now tx ty w ->
  let d := dimensions w in
  let aim :=
    getAimAssistVector (currentColor (gameState w)) (shooterX d) (shooterY d)
                       (rawVelocity d tx ty).1 (rawVelocity d tx ty).2
                       (targets (gameState w)) in
  let w' := exec (shoot now tx ty) w in
  projectilePool (gameState w')
  = alter (fun p =>
             mkProjectile (ShotId now (random (randomCount w))) (shooterX d) (shooterY d)
                          (av_vx aim) (av_vy aim) (currentColor (gameState w))
                          (pj_radius p) true)
          (shotSlot (projectilePool (gameState w))).1
          (shotSlot (projectilePool (gameState w))).2
  /\ shotsFired (sessionStats w') = (shotsFired (sessionStats w) + 1)%Z
  /\ lastShotTime w' = now
  /\ targets (gameState w') = targets (gameState w)
  /\ score (gameState w') = score (gameState w)
  /\ streak (gameState w') = streak (gameState w)
  /\ level (gameState w') = level (gameState w)
  /\ tutorialStep w' = (if (tutorialStep w =? 2)%Z then 0%Z else tutorialStep w).
Proof.
  intros (H1 & H2 & H3 & H4 & H5 & H6 & H7 & H8) d aim w'.
  subst w'. unfold shoot.
  rewrite exec_bind. cbn [getW fst]. change (exec getW w) with w.
  apply Z.eqb_neq in H1. rewrite H1.
  rewrite ltb_false by exact H2. rewrite H3, H4. cbn [orb].
  rewrite (eqb_false _ _ H5), (eqb_false _ _ H6). cbn [orb].
  rewrite ltb_false by exact H7.
  fold (shooterX (dimensions w)) (shooterY (dimensions w)).
  unfold shooterX, shooterY in H8 |- *.
  match goal with |- context [JsMath.ltb (sqrt ?v) 1] =>
    rewrite (ltb_false (sqrt v) 1) by exact H8 end.
  fold (shotSlot (projectilePool (gameState w))).
  destruct (shotSlot (projectilePool (gameState w))) as [slot pool] eqn:Es.
  repeat (rewrite exec_bind; cbv beta).
  match goal with |- context [exec (muzzleFlash ?a ?b) ?W] =>
    destruct (exec_visual _ (visualOnly_muzzleFlash a b) W) as (pl & cur & n & E);
    rewrite E; clear E end.
  destruct (tutorialStep w =? 2)%Z; repeat split; reflexivity.
Qed.


(** ** The aim assist *)

Section AimAssist.

Variables (cur : ColorType) (startX startY baseVx baseVy : R).

Let baseAngle := JsMath.atan2 baseVy baseVx.
Let speed := sqrt (baseVx * baseVx + baseVy * baseVy).
Let cand := candidate cur startX startY baseAngle.
Let dev := angleDiffTo startX startY baseAngle.
Let step := aimStep cur startX startY baseAngle speed.

(** The state of the search after it has taken [b]. *)
Let taken (b : Target) : AimSearch :=
  mkSearch (Some b) (Some (dev b))
           (((x b - startX) / targetDistance startX startY b) * speed)
           (((y b - startY) / targetDistance startX startY b) * speed).

Lemma cand_dec t : cand t \/ ~ cand t.
Proof.
  unfold cand, candidate.
  destruct (decide (color t = cur)) as [Hc | Hc]; [| right; tauto].
  destruct (Rlt_le_dec 0.1 (targetDistance startX startY t)) as [Hd | Hd];
    [| right; intros (_ & H & _); lra].
  destruct (Rlt_le_dec (angleDiffTo startX startY baseAngle t) ASSIST_CONE_ANGLE)
    as [Ha | Ha]; [left; tauto | right; intros (_ & _ & H); lra].
Qed.

Lemma aimStep_skip acc t : ~ cand t -> step acc t = acc.
Proof.
  intros Hn. unfold step, aimStep.
  destruct (decide (color t = cur)) as [Hc | Hc].
  2:{ rewrite (bool_decide_eq_false_2 _ Hc). reflexivity. }
  rewrite (bool_decide_eq_true_2 _ Hc). cbn [negb].
  fold (targetDistance startX startY t).
  destruct (Rlt_le_dec 0.1 (targetDistance startX startY t)) as [Hd | Hd].
  2:{ rewrite leb_true by exact Hd. reflexivity. }
  rewrite leb_false by exact Hd.
  destruct (Rlt_le_dec (angleDiffTo startX startY baseAngle t) ASSIST_CONE_ANGLE)
    as [Ha | Ha].
  - exfalso. apply Hn. repeat split; assumption.
  - rewrite (ltb_false _ _ Ha). reflexivity.
Qed.

Lemma aimStep_cand acc t :
  cand t -> step acc t = if belowMin (dev t) (minAngleDiff acc) then taken t else acc.
Proof.
  intros (Hc & Hd & Ha). unfold step, aimStep.
  rewrite (bool_decide_eq_true_2 _ Hc). cbn [negb].
  fold (targetDistance startX startY t).
  rewrite leb_false by exact Hd. rewrite (ltb_true _ _ Ha). reflexivity.
Qed.

(** The search ends with nothing when no target is a candidate, and
    otherwise with the first candidate of least deviation. *)
Lemma aim_search ts :
  ((forall t, In t ts -> ~ cand t)
   /\ fold_left step ts (mkSearch None None 0 0) = mkSearch None None 0 0)
  \/ (exists b, firstBest cand dev ts b
                /\ fold_left step ts (mkSearch None None 0 0) = taken b).
Proof.
  induction ts as [| t ts IH] using rev_ind.
  - left. split; [intros t [] | reflexivity].
  - rewrite fold_left_app. cbn [fold_left].
    destruct (cand_dec t) as [Ht | Ht].
    + rewrite (aimStep_cand _ t Ht).
      destruct IH as [[Hnone E] | (b & (l1 & l2 & El & Pb & H1 & H2) & E)]; rewrite E.
      * right. exists t. split; [| reflexivity].
        exists ts, []. split; [reflexivity |]. split; [exact Ht |].
        split; [| intros t' []]. intros t' Hin Hc. exfalso. exact (Hnone t' Hin Hc).
      * cbn [minAngleDiff taken belowMin].
        destruct (Rlt_le_dec (dev t) (dev b)) as [Hlt | Hle].
        -- rewrite (ltb_true _ _ Hlt). right. exists t. split; [| reflexivity].
           exists ts, []. split; [reflexivity |]. split; [exact Ht |].
           split; [| intros t' []].
           intros t' Hin Hc. rewrite El in Hin. apply in_app_or in Hin.
           destruct Hin as [Hin | [<- | Hin]].
           ++ specialize (H1 t' Hin Hc). lra.
           ++ exact Hlt.
           ++ specialize (H2 t' Hin Hc). lra.
        -- rewrite (ltb_false _ _ Hle). right. exists b. split; [| reflexivity].
           exists l1, (l2 ++ [t]). split; [rewrite El, <- app_assoc; reflexivity |].
           split; [exact Pb |]. split; [exact H1 |].
           intros t' Hin Hc. apply in_app_or in Hin. destruct Hin as [Hin | [<- | []]].
           ++ exact (H2 t' Hin Hc).
           ++ exact Hle.
    + rewrite (aimStep_skip _ t Ht).
      destruct IH as [[Hnone E] | (b & (l1 & l2 & El & Pb & H1 & H2) & E)].
      * left. split; [| exact E].
        intros t' Hin. apply in_app_or in Hin. destruct Hin as [Hin | [<- | []]];
          [exact (Hnone t' Hin) | exact Ht].
      * right. exists b. split; [| exact E].
        exists l1, (l2 ++ [t]). split; [rewrite El, <- app_assoc; reflexivity |].
        split; [exact Pb |]. split; [exact H1 |].
        intros t' Hin Hc. apply in_app_or in Hin. destruct Hin as [Hin | [<- | []]].
        -- exact (H2 t' Hin Hc).
        -- contradiction.
Qed.

(** The blended velocity is never zero. *)
Lemma blend_norm_pos (bx by0 px py s : R) :
  bx * bx + by0 * by0 = s * s -> px * px + py * py = s * s -> 0 < s ->
  0 < (bx + (px - bx) * 0.3) * (bx + (px - bx) * 0.3)
      + (by0 + (py - by0) * 0.3) * (by0 + (py - by0) * 0.3).
Proof.
  intros Hb Hp Hs.
  pose proof (Rle_0_sqr (bx + px)) as H1. pose proof (Rle_0_sqr (by0 + py)) as H2.
  unfold Rsqr in H1, H2. nra.
Qed.

Lemma sumsq_nonneg (a b : R) : 0 <= a * a + b * b.
Proof. apply Rplus_le_le_0_compat; apply Rle_0_sqr. Qed.

Lemma speed_sqr : speed * speed = baseVx * baseVx + baseVy * baseVy.
Proof. unfold speed. apply sqrt_sqrt, sumsq_nonneg. Qed.

Lemma perfect_norm b :
  0.1 < targetDistance startX startY b ->
  ((x b - startX) / targetDistance startX startY b * speed)
  * ((x b - startX) / targetDistance startX startY b * speed)
  + ((y b - startY) / targetDistance startX startY b * speed)
    * ((y b - startY) / targetDistance startX startY b * speed)
  = speed * speed.
Proof.
  intros Hd.
  assert (Hsq : targetDistance startX startY b * targetDistance startX startY b
                = (x b - startX) * (x b - startX) + (y b - startY) * (y b - startY)).
  { unfold targetDistance. apply sqrt_sqrt, sumsq_nonneg. }
  set (dist := targetDistance startX startY b) in *.
  assert (Hne : dist <> 0) by lra.
  replace ((x b - startX) / dist * speed * ((x b - startX) / dist * speed)
           + (y b - startY) / dist * speed * ((y b - startY) / dist * speed))
    with (((x b - startX) * (x b - startX) + (y b - startY) * (y b - startY))
          / (dist * dist) * (speed * speed)) by (field; exact Hne).
  rewrite <- Hsq. field. exact Hne.
Qed.

(** The result of the whole function when the search ended on [b]. *)
Lemma aim_taken ts b :
  0.1 <= speed ->
  0.1 < targetDistance startX startY b ->
  fold_left step ts (mkSearch None None 0 0) = taken b ->
  getAimAssistVector cur startX startY baseVx baseVy ts
  = blendToward startX startY baseVx baseVy b
  /\ aimSpeed (blendToward startX startY baseVx baseVy b) = speed.
Proof.
  intros Hs Hd E.
  pose proof (perfect_norm b Hd) as Hp. pose proof speed_sqr as Hb.
  pose proof (blend_norm_pos baseVx baseVy _ _ speed (eq_sym Hb) Hp ltac:(lra)) as Hn.
  unfold getAimAssistVector. fold speed baseAngle step.
  rewrite ltb_false by exact Hs. rewrite E. cbn [bestTarget taken perfectVx perfectVy].
  unfold blendToward, aimSpeed, ASSIST_STRENGTH. fold speed.
  fold (targetDistance startX startY b).
  set (nvx := baseVx + ((x b - startX) / targetDistance startX startY b * speed - baseVx) * 0.3)
    in *.
  set (nvy := baseVy + ((y b - startY) / targetDistance startX startY b * speed - baseVy) * 0.3)
    in *.
  assert (Hns : 0 < sqrt (nvx * nvx + nvy * nvy)) by (apply sqrt_lt_R0; exact Hn).
  rewrite (ltb_true _ _ Hns). split; [reflexivity |].
  cbn [av_vx av_vy].
  set (ns := sqrt (nvx * nvx + nvy * nvy)) in *.
  assert (Hnsq : ns * ns = nvx * nvx + nvy * nvy) by (apply sqrt_sqrt; lra).
  replace (nvx / ns * speed * (nvx / ns * speed) + nvy / ns * speed * (nvy / ns * speed))
    with ((nvx * nvx + nvy * nvy) / (ns * ns) * (speed * speed)) by (field; lra).
  rewrite <- Hnsq.
  replace (ns * ns / (ns * ns) * (speed * speed)) with (speed * speed) by (field; lra).
  apply sqrt_square. lra.
Qed.

Lemma aim_none ts :
  fold_left step ts (mkSearch None None 0 0) = mkSearch None None 0 0 ->
  getAimAssistVector cur startX startY baseVx baseVy ts = mkAim baseVx baseVy false.
Proof.
  intros E. unfold getAimAssistVector. fold speed baseAngle step.
  destruct (JsMath.ltb speed 0.1); [reflexivity |]. rewrite E. reflexivity.
Qed.

(** C7 (amended): the aim assist returns the raw vector when its
    magnitude is below 0.1 or when no target of the selected colour lies
    more than 0.1 away from the shot origin and within 15 degrees of the raw
    direction; otherwise it returns the raw vector blended toward the first
    such target of least angular deviation, and the magnitude of the result
    equals the magnitude of the raw vector. *)
Theorem C7_aim_assist (ts : list Target) :
  let out := getAimAssistVector cur startX startY baseVx baseVy ts in
  (speed < 0.1 -> out = mkAim baseVx baseVy false)
  /\ ((forall t, In t ts -> ~ candidate cur startX startY baseAngle t) ->
      out = mkAim baseVx baseVy false)
  /\ (0.1 <= speed ->
      (exists t, In t ts /\ candidate cur startX startY baseAngle t) ->
      exists b,
        firstBest (candidate cur startX startY baseAngle)
                  (angleDiffTo startX startY baseAngle) ts b
        /\ out = blendToward startX startY baseVx baseVy b
        /\ assisted out = true)
  /\ aimSpeed out = speed.
Proof.
  intros out. subst out.
  assert (Hraw : aimSpeed (mkAim baseVx baseVy false) = speed) by reflexivity.
  split; [| split; [| split]].
  - intros Hs. unfold getAimAssistVector. fold speed. rewrite (ltb_true _ _ Hs). reflexivity.
  - intros Hnone.
    destruct (aim_search ts) as [[_ E] | (b & (l1 & l2 & El & Pb & _) & _)].
    + apply aim_none. exact E.
    + exfalso. apply (Hnone b); [rewrite El; apply in_elt | exact Pb].
  - intros Hs (t & Hin & Ht).
    destruct (aim_search ts) as [[Hnone _] | (b & Hb & E)].
    + exfalso. exact (Hnone t Hin Ht).
    + exists b. split; [exact Hb |].
      destruct Hb as (l1 & l2 & El & (Pc & Pd & Pa) & _).
      destruct (aim_taken ts b Hs Pd E) as [Eo _].
      split; [exact Eo |]. rewrite Eo. reflexivity.
  - destruct (Rlt_le_dec speed 0.1) as [Hs | Hs].
    + unfold getAimAssistVector. fold speed. rewrite (ltb_true _ _ Hs). exact Hraw.
    + destruct (aim_search ts) as [[_ E] | (b & (l1 & l2 & El & (Pc & Pd & Pa) & _) & E)].
      * rewrite (aim_none ts E). exact Hraw.
      * destruct (aim_taken ts b Hs Pd E) as [Eo Es]. rewrite Eo. exact Es.
Qed.

End AimAssist.

(** ** What never goes back in a session *)

Lemma statsGrow_refl st : statsGrow st st.
Proof. unfold statsGrow. repeat split; lia. Qed.

Lemma statsGrow_trans a b c : statsGrow a b -> statsGrow b c -> statsGrow a c.
Proof. unfold statsGrow. intros H1 H2. repeat split; try lia; intuition congruence. Qed.

Lemma advances_refl w : advances w w.
Proof.
  unfold advances. repeat split; try lia; try apply statsGrow_refl; auto.
  exists []. rewrite app_nil_r. reflexivity.
Qed.

Lemma advances_trans a b c : advances a b -> advances b c -> advances a c.
Proof.
  intros (G1 & E1 & P1 & L1 & S1 & (m1 & H1)) (G2 & E2 & P2 & L2 & S2 & (m2 & H2)).
  split; [congruence |]. split; [auto |]. split; [lia |]. split; [lia |].
  split; [eapply statsGrow_trans; eassumption |].
  exists (m1 ++ m2). rewrite H2, H1, app_assoc. reflexivity.
Qed.

Lemma advances_visual {A} (m : M A) : visualOnly m -> rspec advances anyResult m.
Proof.
  intros Hm w. split; [exact I |].
  destruct (Hm w) as (a & pool & cur & n & E & _). rewrite E. cbn [snd].
  pose proof (advances_refl w) as R. exact R.
Qed.

Lemma advances_modState (f : GameState -> GameState) :
  (forall s, isGameOver (f s) = isGameOver s
             /\ (isEnding s = true -> isEnding (f s) = true)
             /\ (length (projectilePool s) <= length (projectilePool (f s)))%nat
             /\ (level s <= level (f s))%Z) ->
  rspec advances anyResult (modState f).
Proof.
  intros Hf w. split; [exact I |].
  destruct (Hf (gameState w)) as (G & E & P & L).
  split; [exact G |]. split; [exact E |]. split; [exact P |]. split; [exact L |].
  split; [apply statsGrow_refl |]. exists []. rewrite app_nil_r. reflexivity.
Qed.

Lemma advances_modStats (f : GameStats -> GameStats) :
  (forall st, statsGrow st (f st)) -> rspec advances anyResult (modStats f).
Proof.
  intros Hf w. split; [exact I |].
  split; [reflexivity |]. split; [auto |]. split; [apply Nat.le_refl |].
  split; [apply Z.le_refl |]. split; [apply Hf |].
  exists []. rewrite app_nil_r. reflexivity.
Qed.

Lemma advances_modify (f : World -> World) :
  (forall w, gameState (f w) = gameState w /\ sessionStats (f w) = sessionStats w
             /\ exists more, handoffTimers (f w) = handoffTimers w ++ more) ->
  rspec advances anyResult (modify f).
Proof.
  intros Hf w. split; [exact I |]. destruct (Hf w) as (G & S & H).
  pose proof (advances_refl w) as R. unfold advances in *. cbn [modify snd].
  rewrite G, S. destruct R as (R1 & R2 & R3 & R4 & R5 & _).
  split; [exact R1 |]. split; [exact R2 |]. split; [exact R3 |]. split; [exact R4 |].
  split; [exact R5 | exact H].
Qed.


(** Closes the primitive steps of a walk for [advances]. *)
Ltac advances_state :=
  intros ?s; split; [reflexivity |];
  split; [first [intros ?H; exact H | intros _; reflexivity] |];
  split; [first [apply Nat.le_refl
                | cbn [projectilePool set_projectilePool];
                  rewrite ?length_alter, ?length_insert, ?length_app; lia] |];
  first [apply Z.le_refl | cbn [level set_level]; lia].

Ltac advances_stats :=
  intros ?st; unfold statsGrow, trackKill; destruct st; cbn;
  repeat match goal with
         | |- context [decide ?P] => destruct (decide P)
         | |- context [(?a <? ?b)%Z] => destruct (Z.ltb_spec a b)
         end;
  cbn; repeat split; lia.

Ltac advances_world :=
  intros ?w; split; [reflexivity |]; split; [reflexivity |];
  first [ exists []; rewrite app_nil_r; reflexivity
        | eexists; reflexivity ].

Ltac advances_leaf :=
  idtac;
  match goal with
  | |- rspec _ _ Math_random => apply advances_visual, visualOnly_random
  | |- rspec _ _ (spawnParticle _) => apply advances_visual, visualOnly_spawnParticle
  | |- rspec _ _ (spawnHitParticles _ _ _ _ _) =>
      apply advances_visual, visualOnly_spawnHitParticles
  | |- rspec _ _ (sparks _ _ _ _ _ _ _) => apply advances_visual, visualOnly_sparks
  | |- rspec _ _ (muzzleFlash _ _) => apply advances_visual, visualOnly_muzzleFlash
  | |- rspec _ _ (thinTargets _) => apply advances_visual, visualOnly_thinTargets
  | |- rspec _ _ (modStats _) => apply advances_modStats; advances_stats
  | |- rspec _ _ (modState _) => apply advances_modState; advances_state
  | |- rspec _ _ (modify _) => apply advances_modify; advances_world
  end.

Ltac walk_advances := walk advances_refl advances_trans advances_leaf.

Lemma advances_handleColorSelect c : rspec advances anyResult (handleColorSelect c).
Proof. unfold handleColorSelect. walk_advances. Qed.

Lemma shotSlot_length (pool : list Projectile) :
  (length pool <= length (shotSlot pool).2)%nat.
Proof.
  unfold shotSlot. destruct (list_find _ pool) as [[i p] |]; cbn [snd].
  - apply Nat.le_refl.
  - rewrite length_app. lia.
Qed.

Lemma advances_shoot now tx ty : rspec advances anyResult (shoot now tx ty).
Proof.
  intros w. split; [exact I |].
  change ((shoot now tx ty w).2) with (exec (shoot now tx ty) w).
  unfold shoot. rewrite exec_bind. cbn [getW fst]. change (exec getW w) with w.
  destruct (tutorialStep w =? 1)%Z; [apply advances_refl |].
  destruct (JsMath.ltb (now - lastShotTime w) 150); [apply advances_refl |].
  destruct (isGameOver (gameState w) || isEnding (gameState w)) eqn:Hflags;
    [apply advances_refl |].
  destruct (JsMath.eqb (width (dimensions w)) 0 || JsMath.eqb (height (dimensions w)) 0);
    [apply advances_refl |].
  destruct (JsMath.ltb _ ty); [apply advances_refl |].
  rewrite exec_bind.
  change (exec pulseShooter w)
    with (set_pulseTimers (pulseTimers w ++ [150]) (set_shooterPulse true w)).
  assert (Hp : advances w (set_pulseTimers (pulseTimers w ++ [150])
                             (set_shooterPulse true w))).
  { pose proof (advances_refl w) as R. exact R. }
  destruct (JsMath.ltb (sqrt _) 1); [exact Hp |]. clear Hp.
  fold (shotSlot (projectilePool (gameState w))).
  pose proof (shotSlot_length (projectilePool (gameState w))) as Hlen.
  destruct (shotSlot (projectilePool (gameState w))) as [slot pool] eqn:Es.
  cbn [snd] in Hlen.
  repeat (rewrite exec_bind; cbv beta).
  match goal with |- context [exec (muzzleFlash ?a ?b) ?W] =>
    destruct (exec_visual _ (visualOnly_muzzleFlash a b) W) as (pl & cur & n & E);
    rewrite E; clear E end.
  apply orb_false_iff in Hflags. destruct Hflags as [_ Hend].
  destruct (tutorialStep w =? 2)%Z;
    (split; [reflexivity |]; split; [intros H; exfalso; congruence |];
     split; [cbn; rewrite length_alter; exact Hlen |];
     split; [apply Z.le_refl |];
     split; [unfold statsGrow; cbn; repeat split; lia |];
     exists []; rewrite app_nil_r; reflexivity).
Qed.


Lemma advances_updateParticles tf : rspec advances anyResult (updateParticles tf).
Proof. unfold updateParticles. walk_advances. Qed.

Lemma advances_shakeTick dt : rspec advances anyResult (shakeTick dt).
Proof. unfold shakeTick. walk_advances. Qed.

Lemma advances_bossTrigger width : rspec advances anyResult (bossTrigger width).
Proof. unfold bossTrigger. walk_advances. Qed.

Lemma advances_spawnTarget c sx sy ph : rspec advances anyResult (spawnTarget c sx sy ph).
Proof. unfold spawnTarget. walk_advances. Qed.

Lemma advances_ordinarySpawn dt width ph : rspec advances anyResult (ordinarySpawn dt width ph).
Proof. unfold ordinarySpawn, trySpawn. walk_advances; apply advances_spawnTarget. Qed.


Lemma advances_targetLogic dt tf ph i : rspec advances anyResult (targetLogic dt tf ph i).
Proof. unfold targetLogic, colorShiftAbility, summonAbility. walk_advances. Qed.

Lemma advances_physicsAndLogic dt tf ph : rspec advances anyResult (physicsAndLogic dt tf ph).
Proof. unfold physicsAndLogic. walk_advances; apply advances_targetLogic. Qed.

Lemma advances_collisionPhysics width ph : rspec advances anyResult (collisionPhysics width ph).
Proof. unfold collisionPhysics. walk_advances. Qed.

Lemma advances_resolveHit proj i target : rspec advances anyResult (resolveHit proj i target).
Proof.
  unfold resolveHit, matchHit, mismatchHit, destroyTarget, bossDefeated, splitChildren.
  walk_advances.
Qed.

Lemma advances_hitOrLeave proj slot width height :
  rspec advances anyResult (hitOrLeave proj slot width height).
Proof. unfold hitOrLeave, deactivate. walk_advances; apply advances_resolveHit. Qed.

Lemma advances_projectileUpdate tf width height :
  rspec advances anyResult (projectileUpdate tf width height).
Proof. unfold projectileUpdate, projectileStep. walk_advances; apply advances_hitOrLeave. Qed.

Lemma advances_animate t : rspec advances anyResult (animate t).
Proof.
  unfold animate, spawning.
  walk_advances;
    first [ apply advances_updateParticles | apply advances_shakeTick
          | apply advances_bossTrigger | apply advances_ordinarySpawn
          | apply advances_physicsAndLogic | apply advances_collisionPhysics
          | apply advances_projectileUpdate ].
Qed.

Lemma advances_handle e : rspec advances anyResult (handle e).
Proof.
  destruct e; cbn [handle];
    [ apply advances_animate | apply advances_shoot | apply advances_handleColorSelect
    | | | ];
    unfold updateDimensions, skipTutorial, pulseTimeout; walk_advances.
Qed.

Lemma advances_run es w : advances w (run es w).
Proof.
  revert w. induction es as [| e es IH]; intros w; [apply advances_refl |].
  cbn [run fold_left]. eapply advances_trans; [| apply IH].
  apply (proj2 (advances_handle e w)).
Qed.


(** ** An ending session *)

Lemma animate_ending_world (t : R) (w : World) :
  isEnding (gameState w) = true ->
  exists pool shake,
    exec (animate t) w
    = set_lastTime t
        (set_gameState
           (set_shakeTimer shake (set_particlePool pool (gameState w))) w).
Proof.
  intros Hend. unfold animate.
  rewrite exec_bind. cbn [getW fst]. change (exec getW w) with w.
  rewrite exec_bind.
  set (w0 := exec (when (JsMath.eqb (lastTime w) 0) (modify (set_lastTime t))) w).
  assert (G0 : gameState w0 = gameState w).
  { subst w0. destruct (JsMath.eqb (lastTime w) 0); reflexivity. }
  assert (O0 : forall v, set_lastTime v w0 = set_lastTime v w).
  { intros v. subst w0. destruct (JsMath.eqb (lastTime w) 0); reflexivity. }
  cbv beta. rewrite exec_bind. cbn [getW fst]. change (exec getW w0) with w0.
  rewrite exec_bind. rewrite G0, Hend. rewrite andb_false_r.
  rewrite exec_bind.
  change (exec (modify (set_lastTime t)) w0) with (set_lastTime t w0).
  rewrite O0.
  eexists. eexists. unfold updateParticles, shakeTick. reflexivity.
Qed.


Lemma shoot_returns (now tx ty : R) (w : World) :
  tutorialStep w = 1%Z
  \/ now - lastShotTime w < 150
  \/ isGameOver (gameState w) = true
  \/ isEnding (gameState w) = true
  \/ width (dimensions w) = 0
  \/ height (dimensions w) = 0
  \/ height (dimensions w) - GAME_CONFIG.CONTROLS_HEIGHT < ty ->
  exec (shoot now tx ty) w = w.
Proof.
  intros H. unfold shoot. rewrite exec_bind. cbn [getW fst]. change (exec getW w) with w.
  destruct (tutorialStep w =? 1)%Z eqn:E1; [reflexivity |].
  destruct H as [H | H]; [apply Z.eqb_neq in E1; contradiction |].
  destruct (JsMath.ltb (now - lastShotTime w) 150) eqn:E2; [reflexivity |].
  destruct H as [H | H]; [apply ltb_nspec in E2; lra |].
  destruct (isGameOver (gameState w)) eqn:E3; [reflexivity |].
  destruct H as [H | H]; [discriminate |].
  destruct (isEnding (gameState w)) eqn:E4; [reflexivity |].
  destruct H as [H | H]; [discriminate |]. cbn [orb].
  destruct (JsMath.eqb (width (dimensions w)) 0) eqn:E5; [reflexivity |].
  destruct H as [H | H]; [rewrite eqb_true in E5 by exact H; discriminate |].
  destruct (JsMath.eqb (height (dimensions w)) 0) eqn:E6; [reflexivity |].
  destruct H as [H | H]; [rewrite eqb_true in E6 by exact H; discriminate |]. cbn [orb].
  destruct (JsMath.ltb _ ty) eqn:E7; [reflexivity |].
  apply ltb_nspec in E7. lra.
Qed.

(** A click that passes the tests of [shoot] up to the control bar and lies
    less than one pixel from the shooter. *)
Lemma shoot_at_shooter (now tx ty : R) (w : World) :
  tutorialStep w <> 1%Z ->
  150 <= now - lastShotTime w ->
  isGameOver (gameState w) = false ->
  isEnding (gameState w) = false ->
  width (dimensions w) <> 0 ->
  height (dimensions w) <> 0 ->
  ty <= height (dimensions w) - GAME_CONFIG.CONTROLS_HEIGHT ->
  sqrt ((tx - shooterX (dimensions w)) * (tx - shooterX (dimensions w))
        + (ty - shooterY (dimensions w)) * (ty - shooterY (dimensions w))) < 1 ->
  exec (shoot now tx ty) w
  = set_pulseTimers (pulseTimers w ++ [150]) (set_shooterPulse true w).
Proof.
  intros H1 H2 H3 H4 H5 H6 H7 H8.
  unfold shoot. rewrite exec_bind. cbn [getW fst]. change (exec getW w) with w.
  apply Z.eqb_neq in H1. rewrite H1.
  rewrite ltb_false by exact H2. rewrite H3, H4. cbn [orb].
  rewrite (eqb_false _ _ H5), (eqb_false _ _ H6). cbn [orb].
  rewrite ltb_false by exact H7.
  rewrite exec_bind. unfold shooterX, shooterY in H8.
  rewrite (ltb_true _ _ H8). reflexivity.
Qed.

(** X7: A click that [shoot] turns down during step 1 of the tutorial, less
    than 150 ms after the last shot, once the session is over or ending,
    before the arena has a size, or on the control bar, changes nothing at
    all. A click that passes these tests and lies less than one pixel from
    the shooter raises the pulse of the shooter, with the 150 ms timer that
    lowers it, and changes nothing else: no projectile leaves, no shot is
    counted and the time of the last shot stays. *)
Theorem shoot_blocked (now tx ty : R) (w : World) :
  (tutorialStep w = 1%Z
   \/ now - lastShotTime w < 150
   \/ isGameOver (gameState w) = true
   \/ isEnding (gameState w) = true
   \/ width (dimensions w) = 0
   \/ height (dimensions w) = 0
   \/ height (dimensions w) - GAME_CONFIG.CONTROLS_HEIGHT < ty ->
   exec (shoot now tx ty) w = w)
  /\ (tutorialStep w <> 1%Z ->
      150 <= now - lastShotTime w ->
      isGameOver (gameState w) = false ->
      isEnding (gameState w) = false ->
      width (dimensions w) <> 0 ->
      height (dimensions w) <> 0 ->
      ty <= height (dimensions w) - GAME_CONFIG.CONTROLS_HEIGHT ->
      sqrt ((tx - shooterX (dimensions w)) * (tx - shooterX (dimensions w))
            + (ty - shooterY (dimensions w)) * (ty - shooterY (dimensions w))) < 1 ->
      let w' := exec (shoot now tx ty) w in
      w' = set_pulseTimers (pulseTimers w ++ [150]) (set_shooterPulse true w)
      /\ shooterPulse w' = true
      /\ gameState w' = gameState w
      /\ sessionStats w' = sessionStats w
      /\ lastShotTime w' = lastShotTime w).
Proof.
  split; [apply shoot_returns |].
  intros H1 H2 H3 H4 H5 H6 H7 H8 w'. subst w'.
  rewrite (shoot_at_shooter now tx ty w H1 H2 H3 H4 H5 H6 H7 H8).
  repeat split; reflexivity.
Qed.

(** X8: Every event of a session goes forward only: it leaves the game-over
    flag alone, does not lower the ending flag, does not shrink the
    projectile pool, does not lower the level or any counter of the session
    statistics, and leaves the handoffs that are scheduled in place. *)
Theorem session_goes_forward (e : Event) (w : World) : advances w (exec (handle e) w).
Proof. exact (proj2 (advances_handle e w)). Qed.

(** X9: In every world that a session reaches, the game-over flag is down, so
    that the early return of [animate] and the first half of the test of
    [shoot] on that flag never fire; the projectile pool has its 50 slots or
    more, the level is 1 or more and the session counts as one game. *)
Theorem reachable_flags (w : World) :
  reachable w ->
  isGameOver (gameState w) = false
  /\ (50 <= length (projectilePool (gameState w)))%nat
  /\ (1 <= level (gameState w))%Z
  /\ gamesPlayed (sessionStats w) = 1%Z.
Proof.
  intros [es ->].
  destruct (advances_run es initialWorld) as (G & _ & P & L & S & _).
  destruct S as (_ & _ & _ & _ & _ & _ & _ & _ & _ & _ & _ & S & _).
  split; [rewrite G; reflexivity |].
  split; [| split; [exact L | rewrite S; reflexivity]].
  eapply Nat.le_trans; [| exact P].
  unfold initialWorld, initialGameState. cbn [gameState projectilePool].
  rewrite length_map, length_seq. apply Nat.le_refl.
Qed.

Lemma ending_step (e : Event) (w : World) :
  isEnding (gameState w) = true ->
  let w' := exec (handle e) w in
  isEnding (gameState w') = true
  /\ score (gameState w') = score (gameState w)
  /\ streak (gameState w') = streak (gameState w)
  /\ level (gameState w') = level (gameState w)
  /\ projectilePool (gameState w') = projectilePool (gameState w)
  /\ sessionStats w' = sessionStats w
  /\ handoffTimers w' = handoffTimers w.
Proof.
  intros Hend w'. subst w'. destruct e as [t | now tx ty | c | d | |]; cbn [handle].
  - destruct (animate_ending_world t w Hend) as (pool & shake & ->).
    repeat split; try reflexivity. exact Hend.
  - rewrite shoot_returns by tauto. repeat split; try reflexivity. exact Hend.
  - unfold handleColorSelect. repeat (rewrite exec_bind; cbv beta). cbn [getW fst].
    match goal with |- context [(tutorialStep ?W =? 1)%Z] =>
      destruct (tutorialStep W =? 1)%Z end;
      repeat (rewrite exec_bind; cbv beta); repeat split; try reflexivity; exact Hend.
  - repeat split; try reflexivity. exact Hend.
  - repeat split; try reflexivity. exact Hend.
  - unfold pulseTimeout. rewrite exec_bind. cbn [getW fst]. change (exec getW w) with w.
    destruct (pulseTimers w); repeat split; try reflexivity; exact Hend.
Qed.

(** X11: Once the session is ending, no event changes the score, the streak,
    the level, the session statistics, the projectile pool or the scheduled
    handoffs, and the session stays ending: after a mismatch nothing is
    scored, counted or handed over any more by later ticks and clicks. *)
Theorem ending_freezes (e : Event) (w : World) :
  isEnding (gameState w) = true ->
  let w' := exec (handle e) w in
  isEnding (gameState w') = true
  /\ score (gameState w') = score (gameState w)
  /\ streak (gameState w') = streak (gameState w)
  /\ level (gameState w') = level (gameState w)
  /\ projectilePool (gameState w') = projectilePool (gameState w)
  /\ sessionStats w' = sessionStats w
  /\ handoffTimers w' = handoffTimers w.
Proof. exact (ending_step e w). Qed.


(** ** The shot *)

Lemma aim_keeps_speed (c : ColorType) (sx sy bvx bvy : R) (ts : list Target) :
  aimSpeed (getAimAssistVector c sx sy bvx bvy ts) = sqrt (bvx * bvx + bvy * bvy).
Proof.
  destruct (Rlt_le_dec (sqrt (bvx * bvx + bvy * bvy)) 0.1) as [Hs | Hs].
  - unfold getAimAssistVector. rewrite (ltb_true _ _ Hs). reflexivity.
  - destruct (aim_search c sx sy bvx bvy ts)
      as [[_ E] | (b & (l1 & l2 & El & (Pc & Pd & Pa) & _) & E)].
    + rewrite (aim_none c sx sy bvx bvy ts E). reflexivity.
    + destruct (aim_taken c sx sy bvx bvy ts b Hs Pd E) as [Eo Es].
      rewrite Eo. exact Es.
Qed.

Lemma rawVelocity_speed (d : GameDimensions) (tx ty : R) :
  1 <= sqrt ((tx - shooterX d) * (tx - shooterX d) + (ty - shooterY d) * (ty - shooterY d)) ->
  sqrt ((rawVelocity d tx ty).1 * (rawVelocity d tx ty).1
        + (rawVelocity d tx ty).2 * (rawVelocity d tx ty).2)
  = GAME_CONFIG.PROJECTILE_SPEED.
Proof.
  intros Hd. unfold rawVelocity, GAME_CONFIG.PROJECTILE_SPEED. cbn [fst snd].
  set (dx := tx - shooterX d) in *. set (dy := ty - shooterY d) in *.
  assert (Hsq : sqrt (dx * dx + dy * dy) * sqrt (dx * dx + dy * dy) = dx * dx + dy * dy)
    by apply sqrt_sqrt, sumsq_nonneg.
  set (dist := sqrt (dx * dx + dy * dy)) in *.
  replace (dx / dist * 10 * (dx / dist * 10) + dy / dist * 10 * (dy / dist * 10))
    with ((dx * dx + dy * dy) / (dist * dist) * (10 * 10)) by (field; lra).
  rewrite <- Hsq.
  replace (dist * dist / (dist * dist) * (10 * 10)) with (10 * 10) by (field; lra).
  apply sqrt_square. lra.
Qed.

Lemma shotSlot_spec (pool : list Projectile) :
  exists q,
    (shotSlot pool).2 !! (shotSlot pool).1 = Some q
    /\ pj_active q = false
    /\ (forall j p, (j < (shotSlot pool).1)%nat -> pool !! j = Some p -> pj_active p = true)
    /\ (length (shotSlot pool).2
        = if bool_decide (Forall (fun p => pj_active p = true) pool)
          then S (length pool) else length pool).
Proof.
  unfold shotSlot.
  destruct (list_find (fun p => pj_active p = false) pool) as [[i q] |] eqn:E.
  - apply list_find_Some in E. destruct E as (Hi & Hq & Hbefore). cbn [fst snd].
    exists q. split; [exact Hi |]. split; [exact Hq |]. split.
    + intros j p Hj Hp. specialize (Hbefore j p Hp Hj).
      destruct (pj_active p); [reflexivity | contradiction].
    + rewrite bool_decide_eq_false_2; [reflexivity |].
      intros Hall. rewrite Forall_lookup in Hall. specialize (Hall i q Hi). cbn in Hall.
      congruence.
  - apply list_find_None in E. cbn [fst snd].
    assert (Hall : Forall (fun p => pj_active p = true) pool).
    { eapply Forall_impl; [exact E |]. cbn. intros p Hp.
      destruct (pj_active p); [reflexivity | contradiction]. }
    exists extraProjectile. split; [| split; [reflexivity | split]].
    + rewrite lookup_app_r by apply Nat.le_refl. rewrite Nat.sub_diag. reflexivity.
    + intros j p _ Hp. rewrite Forall_lookup in Hall. exact (Hall j p Hp).
    + rewrite (bool_decide_eq_true_2 _ Hall), length_app. cbn. lia.
Qed.

(** X12: A shot that goes ahead takes the first slot of the pool that is not in
    flight, or a new slot behind the pool when all are in flight, and puts
    there an active projectile of the selected colour at the position of the
    shooter; whatever the aim assist does to its direction, its speed is
    exactly 10. The shot is counted and no other slot changes. *)
Theorem shot_is_fired (now tx ty : R) (w : World) :
  canShoot now tx ty w ->
  let pool := projectilePool (gameState w) in
  let slot := (shotSlot pool).1 in
  let w' := exec (shoot now tx ty) w in
  (forall j p, (j < slot)%nat -> pool !! j = Some p -> pj_active p = true)
  /\ (forall q, pool !! slot = Some q -> pj_active q = false)
  /\ (exists p,
        projectilePool (gameState w') !! slot = Some p
        /\ pj_active p = true
        /\ pj_x p = shooterX (dimensions w) /\ pj_y p = shooterY (dimensions w)
        /\ pj_color p = currentColor (gameState w)
        /\ sqrt (pj_vx p * pj_vx p + pj_vy p * pj_vy p) = GAME_CONFIG.PROJECTILE_SPEED)
  /\ (forall j, j <> slot -> projectilePool (gameState w') !! j = pool !! j)
  /\ length (projectilePool (gameState w'))
     = (if bool_decide (Forall (fun p => pj_active p = true) pool)
        then S (length pool) else length pool)
  /\ shotsFired (sessionStats w') = (shotsFired (sessionStats w) + 1)%Z.
Proof.
  intros Hcan pool slot w'.
  destruct (shoot_fires now tx ty w Hcan) as (Hp & Hs & _).
  fold w' in Hp, Hs. fold pool in Hp. fold slot in Hp.
  destruct (shotSlot_spec pool) as (q & Hq & Hqa & Hbefore & Hlen). fold slot in Hq, Hbefore.
  destruct Hcan as (_ & _ & _ & _ & _ & _ & _ & Hd).
  split; [exact Hbefore |]. split.
  { intros q' Hq'. unfold shotSlot in Hq. fold pool in Hq.
    unfold slot, shotSlot in Hq'.
    destruct (list_find (fun p => pj_active p = false) pool) as [[i p] |] eqn:E;
      cbn [fst snd] in *.
    - unfold slot, shotSlot in Hq. rewrite E in Hq. cbn [fst snd] in Hq. congruence.
    - apply lookup_lt_Some in Hq'. lia. }
  split; [| split; [| split; [| exact Hs]]].
  - rewrite Hp, list_lookup_alter, Hq. cbn [fmap option_fmap option_map].
    rewrite decide_True by reflexivity.
    eexists. split; [reflexivity |]. cbn [pj_active pj_x pj_y pj_color pj_vx pj_vy].
    split; [reflexivity |]. split; [reflexivity |]. split; [reflexivity |].
    split; [reflexivity |].
    fold (aimSpeed (getAimAssistVector (currentColor (gameState w))
            (shooterX (dimensions w)) (shooterY (dimensions w))
            (rawVelocity (dimensions w) tx ty).1 (rawVelocity (dimensions w) tx ty).2
            (targets (gameState w)))).
    rewrite aim_keeps_speed. apply rawVelocity_speed. exact Hd.
  - intros j Hj. rewrite Hp, list_lookup_alter_ne by congruence.
    unfold shotSlot. fold pool.
    destruct (list_find (fun p => pj_active p = false) pool) as [[i p] |] eqn:E;
      cbn [snd]; [reflexivity |].
    destruct (decide (j < length pool)%nat) as [Hlt | Hge].
    + apply lookup_app_l. exact Hlt.
    + unfold slot, shotSlot in Hj. rewrite E in Hj. cbn [fst] in Hj.
      rewrite lookup_ge_None_2 by (rewrite length_app; cbn; lia).
      symmetry. apply lookup_ge_None_2. lia.
  - rewrite Hp, length_alter. exact Hlen.
Qed.


(** ** The hits *)

(** X13: The scan for a hit returns the index of the last target of the list
    within hit range of the projectile, and nothing exactly when no target is
    in range. *)
Theorem findHit_last_in_range (proj : Projectile) (ts : list Target) (i : nat) :
  (findHit proj ts (length ts) = Some i <->
   (exists t, ts !! i = Some t /\ inHitRange proj t = true)
   /\ (forall j t, (i < j)%nat -> ts !! j = Some t -> inHitRange proj t = false))
  /\ (findHit proj ts (length ts) = None <->
      forall j t, ts !! j = Some t -> inHitRange proj t = false).
Proof.
  split; split.
  - intros Hf. destruct (findHit_spec proj ts (length ts) i Hf) as (_ & Ht & Hlater).
    split; [exact Ht |]. intros j t Hj Hl. apply (Hlater j t); [| exact Hl].
    apply lookup_lt_Some in Hl. lia.
  - intros ((t & Ht & Hr) & Hlater).
    apply findHit_complete with (t := t); [| exact Ht | exact Hr |].
    + apply lookup_lt_Some in Ht. exact Ht.
    + intros j t' Hj. apply Hlater. lia.
  - intros Hf j t Hl. apply (findHit_none proj ts (length ts) Hf j t); [| exact Hl].
    apply lookup_lt_Some in Hl. exact Hl.
  - intros Hnone. destruct (findHit proj ts (length ts)) as [k |] eqn:Hf; [| reflexivity].
    destruct (findHit_spec proj ts (length ts) k Hf) as (_ & (t & Ht & Hr) & _).
    rewrite (Hnone k t Ht) in Hr. discriminate.
Qed.

(** X14: A colour-matching hit that destroys a target other than the boss (any
    kind, a TOUGH one at its last point of health): the score rises by the
    table score of the kind times the score multiplier of the difficulty
    times the combo multiplier of the new streak (the fallback score 10 is
    never used), the boss progress by the table score times the combo
    multiplier; the streak and the hit counter rise by one, the highest
    streak follows, and the target leaves the list. *)
Theorem matching_hit_scores (proj : Projectile) (i : nat) (target : Target) (w : World) :
  pj_color proj = color target ->
  type target <> BOSS ->
  (type target = TOUGH -> health target <= 1) ->
  let w' := exec (resolveHit proj i target) w in
  let combo := streakMultiplier (streak (gameState w) + 1) in
  score (gameState w')
  = score (gameState w) + TARGET_SCORES (type target) * scoreMultiplier diffSettings * combo
  /\ scoreSinceLastBoss (gameState w')
     = scoreSinceLastBoss (gameState w) + TARGET_SCORES (type target) * combo
  /\ streak (gameState w') = (streak (gameState w) + 1)%Z
  /\ highestStreak (sessionStats w')
     = Z.max (highestStreak (sessionStats w)) (streak (gameState w) + 1)
  /\ targetsHit (sessionStats w') = (targetsHit (sessionStats w) + 1)%Z
  /\ length (targets (gameState w'))
     = (length (delete i (targets (gameState w)))
        + if decide (type target = SPLIT) then 2 else 0)%nat.
Proof.
  intros Hc Hnb Hth w' combo. subst w' combo.
  assert (Hbase : baseScoreOf (type target) = TARGET_SCORES (type target)).
  { unfold baseScoreOf. rewrite eqb_false; [reflexivity |].
    destruct (type target); cbn; lra. }
  rewrite <- Hbase.
  unfold resolveHit. rewrite (decide_True _ _ Hc). unfold matchHit, destroyTarget.
  destruct (type target) eqn:Ety; try (exfalso; apply Hnb; reflexivity);
    try rewrite (ltb_false 1 (health target)) by auto;
    tdecide; cbn [orb andb];
    repeat (rewrite exec_bind; cbv beta);
    exec_visual_step;
    (split; [reflexivity |]; split; [reflexivity |]; split; [reflexivity |];
     split;
       [match goal with |- highestStreak ?S = _ =>
          change (highestStreak S)
            with (if (highestStreak (sessionStats w) <? streak (gameState w) + 1)%Z
                  then (streak (gameState w) + 1)%Z else highestStreak (sessionStats w))
        end;
        destruct (Z.ltb_spec (highestStreak (sessionStats w)) (streak (gameState w) + 1));
        lia |];
     split; [reflexivity |]);
    first [ cbn [when]; rewrite splitChildren_targets, length_app; reflexivity
          | rewrite Nat.add_0_r; reflexivity ].
Qed.


Lemma armour_hit_world (proj : Projectile) (i : nat) (target : Target) (w : World) :
  pj_color proj = color target ->
  type target = TOUGH \/ type target = BOSS ->
  1 < health target ->
  let w' := exec (resolveHit proj i target) w in
  targets (gameState w')
  = <[i := set_health (health target - 1) target]> (targets (gameState w))
  /\ bossActive (gameState w') = bossActive (gameState w)
  /\ level (gameState w') = level (gameState w).
Proof.
  intros Hc Hty Hh w'. subst w'.
  unfold resolveHit. rewrite (decide_True _ _ Hc). unfold matchHit.
  rewrite (ltb_true 1 (health target)) by exact Hh.
  assert (Hb : bool_decide (type target = TOUGH) || bool_decide (type target = BOSS) = true).
  { destruct Hty as [E | E]; rewrite E; reflexivity. }
  rewrite Hb. cbn [andb].
  repeat (rewrite exec_bind; cbv beta).
  exec_visual_step.
  repeat split; reflexivity.
Qed.

(** X15: A colour-matching hit on a TOUGH target or on the boss that has more
    than one point of health left takes one point away and leaves the target
    in the list; it scores 5 (TOUGH) or 10 (boss) times the score multiplier
    of the difficulty with no combo multiplier, adds 10 to the boss
    progress and one to the streak, and is not counted as a target hit. *)
Theorem armour_hit (proj : Projectile) (i : nat) (target : Target) (w : World) :
  pj_color proj = color target ->
  type target = TOUGH \/ type target = BOSS ->
  1 < health target ->
  let w' := exec (resolveHit proj i target) w in
  targets (gameState w')
  = <[i := set_health (health target - 1) target]> (targets (gameState w))
  /\ score (gameState w')
     = score (gameState w)
       + (if decide (type target = BOSS) then 10 else 5) * scoreMultiplier diffSettings
  /\ scoreSinceLastBoss (gameState w') = scoreSinceLastBoss (gameState w) + 10
  /\ streak (gameState w') = (streak (gameState w) + 1)%Z
  /\ level (gameState w') = level (gameState w)
  /\ bossActive (gameState w') = bossActive (gameState w)
  /\ isEnding (gameState w') = isEnding (gameState w)
  /\ targetsHit (sessionStats w') = targetsHit (sessionStats w)
  /\ handoffTimers w' = handoffTimers w.
Proof.
  intros Hc Hty Hh w'. subst w'.
  unfold resolveHit. rewrite (decide_True _ _ Hc). unfold matchHit.
  rewrite (ltb_true 1 (health target)) by exact Hh.
  assert (Hb : bool_decide (type target = TOUGH) || bool_decide (type target = BOSS) = true).
  { destruct Hty as [E | E]; rewrite E; reflexivity. }
  rewrite Hb. cbn [andb].
  repeat (rewrite exec_bind; cbv beta).
  exec_visual_step.
  repeat split; reflexivity.
Qed.

Lemma hitOrLeave_miss (proj : Projectile) (slot : nat) (width height : R) (w : World) :
  (forall j t, targets (gameState w) !! j = Some t -> inHitRange proj t = false) ->
  exec (hitOrLeave proj slot width height) w
  = if outOfArena proj width height
    then set_gameState
           (set_projectilePool
              (alter (set_pj_active false) slot (projectilePool (gameState w)))
              (gameState w)) w
    else w.
Proof.
  intros Hnone.
  assert (Hf : findHit proj (targets (gameState w)) (length (targets (gameState w))) = None).
  { destruct (findHit proj _ _) as [k |] eqn:Hf; [| reflexivity].
    destruct (findHit_spec _ _ _ _ Hf) as (_ & (t & Ht & Hr) & _).
    rewrite (Hnone k t Ht) in Hr. discriminate. }
  unfold hitOrLeave. rewrite exec_bind. cbn [getW fst]. change (exec getW w) with w.
  rewrite Hf. destruct (outOfArena proj width height); reflexivity.
Qed.

(** X16: The step of the projectile loop on a slot. A slot that is not in flight
    is skipped. A projectile in flight advances by its velocity times the
    time factor; when it is then within hit range of no target and not more
    than 50 outside the arena, the step changes nothing else than that slot,
    the particles of the trail and the random draws; when it is more than 50
    outside, the slot is taken out of flight as well. *)
Theorem projectile_flies (tf width height : R) (slot : nat) (w : World) (proj : Projectile) :
  projectilePool (gameState w) !! slot = Some proj ->
  let moved :=
    set_pj_y (pj_y proj + pj_vy proj * tf) (set_pj_x (pj_x proj + pj_vx proj * tf) proj) in
  let w' := exec (projectileStep tf width height slot) w in
  (pj_active proj = false -> w' = w)
  /\ (pj_active proj = true ->
      (forall j t, targets (gameState w) !! j = Some t -> inHitRange moved t = false) ->
      exists pool cur n,
        w' = withParticles pool cur n
               (set_gameState
                  (set_projectilePool
                     (<[slot := if outOfArena moved width height
                                then set_pj_active false moved else moved]>
                        (projectilePool (gameState w)))
                     (gameState w)) w)).
Proof.
  intros Hslot moved w'. subst w'. unfold projectileStep.
  rewrite exec_bind. cbn [getW fst]. change (exec getW w) with w. rewrite Hslot.
  split; intros Hact; rewrite Hact; cbn [negb]; [reflexivity |].
  intros Hnone.
  change (set_pj_y (pj_y (set_pj_x (pj_x proj + pj_vx proj * tf) proj)
                    + pj_vy (set_pj_x (pj_x proj + pj_vx proj * tf) proj) * tf)
                   (set_pj_x (pj_x proj + pj_vx proj * tf) proj)) with moved.
  repeat (rewrite exec_bind; cbv beta).
  match goal with |- context [exec Math_random ?W] =>
    destruct (exec_visual _ visualOnly_random W) as (p1 & c1 & n1 & E1);
    rewrite E1; set (w0 := W) in *
  end.
  match goal with |- context [exec (when ?b ?m) ?W] =>
    destruct (exec_visual (when b m)
                (visualOnly_when b m (visualOnly_spawnParticle _)) W)
      as (p2 & c2 & n2 & E2);
    rewrite E2
  end.
  rewrite withParticles_twice.
  rewrite hitOrLeave_miss by exact Hnone.
  exists p2, c2, n2.
  assert (Hpool : alter (set_pj_active false) slot
                    (<[slot := moved]> (projectilePool (gameState w)))
                  = <[slot := set_pj_active false moved]> (projectilePool (gameState w))).
  { apply lookup_lt_Some in Hslot.
    apply list_eq. intros k. destruct (decide (k = slot)) as [-> | Hk].
    - rewrite list_lookup_alter, decide_True by reflexivity.
      rewrite !list_lookup_insert_eq by exact Hslot. reflexivity.
    - rewrite list_lookup_alter_ne by congruence.
      rewrite !list_lookup_insert_ne by congruence. reflexivity. }
  destruct (outOfArena moved width height); [| reflexivity].
  transitivity
    (withParticles p2 c2 n2
       (set_gameState
          (set_projectilePool
             (alter (set_pj_active false) slot
                    (<[slot := moved]> (projectilePool (gameState w))))
             (gameState w)) w)); [reflexivity |].
  rewrite Hpool. reflexivity.
Qed.

(** X17: Two projectiles that hit targets of another colour in the same tick
    each end the session: the second mismatch, although the session is
    already ending, counts a second miss and schedules a second handoff. *)
Theorem two_mismatches_two_handoffs (p1 p2 : Projectile) (s1 s2 : nat)
    (width height : R) (w : World) (i1 i2 : nat) (t1 t2 : Target) :
  let ts := targets (gameState w) in
  findHit p1 ts (length ts) = Some i1 -> ts !! i1 = Some t1 -> pj_color p1 <> color t1 ->
  findHit p2 ts (length ts) = Some i2 -> ts !! i2 = Some t2 -> pj_color p2 <> color t2 ->
  let w' :=
    exec (hitOrLeave p1 s1 width height >> hitOrLeave p2 s2 width height) w in
  handoffTimers w' = handoffTimers w ++ [1000; 1000]
  /\ targetsMissed (sessionStats w') = (targetsMissed (sessionStats w) + 2)%Z
  /\ isEnding (gameState w') = true
  /\ targets (gameState w') = targets (gameState w).
Proof.
  intros ts F1 L1 C1 F2 L2 C2 w'. subst w' ts.
  rewrite exec_bind.
  rewrite (hitOrLeave_hit p1 s1 width height w i1 t1 F1 L1).
  destruct (hit_mismatch p1 i1 t1 w C1) as (_ & _ & M1 & _ & _ & _ & T1 & _ & H1).
  set (w1 := exec (deactivate s1) (exec (resolveHit p1 i1 t1) w)).
  assert (T1' : targets (gameState w1) = targets (gameState w)) by exact T1.
  assert (M1' : targetsMissed (sessionStats w1) = (targetsMissed (sessionStats w) + 1)%Z)
    by exact M1.
  assert (H1' : handoffTimers w1 = handoffTimers w ++ [1000]) by exact H1.
  rewrite <- T1' in F2, L2.
  rewrite (hitOrLeave_hit p2 s2 width height w1 i2 t2 F2 L2).
  destruct (hit_mismatch p2 i2 t2 w1 C2) as (_ & E2 & M2 & _ & _ & _ & T2 & _ & H2).
  set (w2 := exec (deactivate s2) (exec (resolveHit p2 i2 t2) w1)).
  change (handoffTimers w2 = handoffTimers w ++ [1000; 1000]
          /\ targetsMissed (sessionStats w2) = (targetsMissed (sessionStats w) + 2)%Z
          /\ isEnding (gameState w2) = true
          /\ targets (gameState w2) = targets (gameState w)).
  split; [| split; [| split]].
  - change (handoffTimers w2) with (handoffTimers (exec (resolveHit p2 i2 t2) w1)).
    rewrite H2, H1', <- app_assoc. reflexivity.
  - change (targetsMissed (sessionStats w2))
      with (targetsMissed (sessionStats (exec (resolveHit p2 i2 t2) w1))).
    rewrite M2, M1'. lia.
  - exact E2.
  - change (targets (gameState w2)) with (targets (gameState (exec (resolveHit p2 i2 t2) w1))).
    rewrite T2. exact T1'.
Qed.


(** ** The particles *)

Lemma advanceParticle_life (tf : R) (p : Particle) :
  pt_life (advanceParticle tf p) = pt_life p - lifeRate (pt_type p) * tf
  /\ pt_type (advanceParticle tf p) = pt_type p
  /\ pt_active (advanceParticle tf p) = pt_active p
  /\ pt_id (advanceParticle tf p) = pt_id p.
Proof. unfold advanceParticle. destruct (pt_type p) eqn:E; cbn; rewrite ?E; auto. Qed.

Lemma updateParticle_cases (tf : R) (p : Particle) :
  (pt_active p = false /\ updateParticle tf p = p)
  \/ (pt_active p = true /\ pt_active (updateParticle tf p) = false)
  \/ (pt_active p = true /\ updateParticle tf p = advanceParticle tf p
      /\ 0.01 < pt_life (advanceParticle tf p) /\ 0.5 <= pt_size (advanceParticle tf p)).
Proof.
  unfold updateParticle. destruct (pt_active p) eqn:Ha; cbn [negb]; [| left; auto].
  right.
  destruct (JsMath.leb (pt_life (advanceParticle tf p)) 0.01) eqn:E1; cbn [orb];
    [left; split; reflexivity |].
  destruct (JsMath.ltb (pt_size (advanceParticle tf p)) 0.5) eqn:E2;
    [left; split; reflexivity |].
  right. apply leb_nspec in E1. apply ltb_nspec in E2. repeat split; assumption.
Qed.

Lemma updateParticle_active_count (tf : R) (pool : list Particle) :
  (length (filter (fun p => pt_active p = true) (map (updateParticle tf) pool))
   <= length (filter (fun p => pt_active p = true) pool))%nat.
Proof.
  induction pool as [| p pool IH]; [apply Nat.le_refl |].
  cbn [map]. rewrite !filter_cons.
  destruct (updateParticle_cases tf p) as [[Ha E] | [[Ha E] | (Ha & E & _)]].
  - rewrite E. destruct (decide (pt_active p = true)); [congruence | exact IH].
  - destruct (decide (pt_active (updateParticle tf p) = true)) as [H | _]; [congruence |].
    rewrite (decide_True _ _ Ha). cbn [length]. lia.
  - rewrite (decide_True _ _ Ha).
    destruct (decide (pt_active (updateParticle tf p) = true)); cbn [length]; lia.
Qed.

(** X18: The particle update of a tick never brings a particle to life: the
    pool keeps its length, a particle that is not alive is left exactly as it
    is, and a particle that is alive afterwards was alive before, has lost
    the life of its kind, and has more than 0.01 of life and at least 0.5 of
    size left. So the number of live particles does not grow, and the
    renderer never receives a spent particle. *)
Theorem updateParticles_only_kills (tf : R) (w : World) :
  let pool := particlePool (gameState w) in
  let w' := exec (updateParticles tf) w in
  let pool' := particlePool (gameState w') in
  length pool' = length pool
  /\ (forall i p, pool !! i = Some p -> pt_active p = false -> pool' !! i = Some p)
  /\ (forall i p', pool' !! i = Some p' -> pt_active p' = true ->
        exists p, pool !! i = Some p /\ pt_active p = true
                  /\ pt_life p' = pt_life p - lifeRate (pt_type p) * tf
                  /\ 0.01 < pt_life p' /\ 0.5 <= pt_size p')
  /\ (length (activeParticles w') <= length (activeParticles w))%nat
  /\ targets (gameState w') = targets (gameState w)
  /\ particleCursor (gameState w') = particleCursor (gameState w).
Proof.
  intros pool w' pool'.
  assert (E : pool' = updateParticle tf <$> pool) by reflexivity.
  split; [rewrite E; apply length_fmap |]. split; [| split; [| split]].
  - intros i p Hp Ha. rewrite E, list_lookup_fmap, Hp. cbn.
    destruct (updateParticle_cases tf p) as [[_ ->] | [[Hb _] | (Hb & _)]];
      [reflexivity | congruence | congruence].
  - intros i p' Hp' Ha'. rewrite E, list_lookup_fmap in Hp'.
    destruct (pool !! i) as [p |] eqn:Hp; [| discriminate]. cbn in Hp'.
    injection Hp' as <-. exists p. split; [reflexivity |].
    destruct (updateParticle_cases tf p) as [[Hb Eq] | [[Hb Eq] | (Hb & Eq & Hl & Hs)]].
    + rewrite Eq in Ha'. congruence.
    + congruence.
    + rewrite Eq. split; [exact Hb |].
      split; [apply advanceParticle_life |]. split; assumption.
  - unfold activeParticles. fold pool pool'. rewrite E.
    apply updateParticle_active_count.
  - split; reflexivity.
Qed.


(** ** The boss *)

Lemma bossHealthMulti_pos : 0 < bossHealthMulti diffSettings.
Proof. unfold diffSettings. destruct difficulty; cbn; lra. Qed.

(** X19: The boss that the trigger pushes is the last target of the list; it
    enters at the top centre with full health, 10 plus 5 per level times the
    boss-health multiplier of the difficulty, which is 10 or more, so it is
    not enraged; and the first projectile of its colour that hits it takes
    one point of health and leaves it in place, the boss fight going on at
    the same level. *)
Theorem fresh_boss_withstands_hit (width : R) (w : World) (proj : Projectile) :
  bossActive (gameState w) = false ->
  pointsForNextLevel (gameState w) < scoreSinceLastBoss (gameState w) ->
  (0 <= level (gameState w))%Z ->
  let w1 := exec (bossTrigger width) w in
  exists kept boss,
    targets (gameState w1) = kept ++ [boss]
    /\ type boss = BOSS
    /\ x boss = width / 2 /\ y boss = -120
    /\ health boss = 10 + IZR (level (gameState w)) * 5 * bossHealthMulti diffSettings
    /\ maxHealth boss = Some (health boss)
    /\ 10 <= health boss
    /\ enrage boss = boss
    /\ (pj_color proj = color boss ->
        let w2 := exec (resolveHit proj (length kept) boss) w1 in
        targets (gameState w2) = kept ++ [set_health (health boss - 1) boss]
        /\ bossActive (gameState w2) = true
        /\ level (gameState w2) = level (gameState w)).
Proof.
  intros Hb Hs Hl w1.
  destruct (bossTrigger_fires width w Hb Hs) as (kept & r1 & r2 & n & _ & E).
  pose proof bossHealthMulti_pos as Hm.
  set (boss := bossTarget width ((r2 - 0.5) * 2) (pick RED COLOR_KEYS r1)
                          (level (gameState w))) in *.
  assert (Hh : 10 <= health boss).
  { cbn [boss bossTarget health]. apply IZR_le in Hl.
    assert (0 <= IZR (level (gameState w)) * 5 * bossHealthMulti diffSettings); [| lra].
    apply Rmult_le_pos; [apply Rmult_le_pos; lra | lra]. }
  exists kept, boss.
  assert (T1 : targets (gameState w1) = kept ++ [boss]).
  { subst w1. rewrite E. reflexivity. }
  split; [exact T1 |]. split; [reflexivity |]. split; [reflexivity |].
  split; [reflexivity |]. split; [reflexivity |]. split; [reflexivity |].
  split; [exact Hh |]. split.
  - unfold enrage. change (maxHealth boss) with (Some (health boss)). cbn match.
    rewrite (ltb_false (health boss) (health boss * 0.4)) by lra.
    rewrite andb_false_r. reflexivity.
  - intros Hc w2.
    destruct (armour_hit_world proj (length kept) boss w1 Hc (or_intror eq_refl)
                ltac:(lra)) as (Ht & Hba & Hlv).
    fold w2 in Ht, Hba, Hlv.
    split; [| split].
    + rewrite Ht, T1.
      rewrite insert_app_r_alt by apply Nat.le_refl. rewrite Nat.sub_diag. reflexivity.
    + rewrite Hba. subst w1. rewrite E. reflexivity.
    + rewrite Hlv. subst w1. rewrite E. reflexivity.
Qed.


(** ** The ordinary spawn *)

Lemma typeOfRoll_cases r :
  typeOfRoll r = TOUGH \/ typeOfRoll r = SPLIT \/ typeOfRoll r = STATIONARY
  \/ typeOfRoll r = COLOR_SHIFT \/ typeOfRoll r = SINE_WAVE.
Proof. unfold typeOfRoll. repeat destruct (JsMath.ltb _ _); tauto. Qed.

Lemma pick_shape (lvl : Z) (r : R) :
  In (pick CIRCLE (availableShapes lvl) r) [CIRCLE; SQUARE; TRIANGLE; DIAMOND].
Proof.
  unfold pick.
  destruct (availableShapes lvl !! _) as [sh |] eqn:E; cbn [default]; [| left; reflexivity].
  apply list_elem_of_lookup_2, list_elem_of_In in E.
  unfold availableShapes in E.
  destruct (2 <=? lvl)%Z, (3 <=? lvl)%Z, (4 <=? lvl)%Z; cbn in E |- *; tauto.
Qed.

(** X20: The target that the ordinary spawn pushes: exactly one, behind the
    others, of the rolled colour at the rolled abscissa, with the standard
    radius 32, never a boss and never star-shaped; a TOUGH one has 3 points
    of health and the others 1; a STATIONARY one is at rest; a SINE_WAVE one
    has no vertical velocity and starts between 70 from the top wall and 70
    from the bottom wall when the arena has room for that; and at difficulty
    EASY nothing but NORMAL targets is spawned while the score is below
    15. *)
Theorem spawned_target (c : ColorType) (sx sy ph : R) (w : World) :
  let w' := exec (spawnTarget c sx sy ph) w in
  exists t,
    targets (gameState w') = targets (gameState w) ++ [t]
    /\ color t = c /\ x t = sx /\ radius t = GAME_CONFIG.TARGET_RADIUS
    /\ type t <> BOSS /\ shape t <> STAR
    /\ health t = (if decide (type t = TOUGH) then 3 else 1)
    /\ (type t = STATIONARY -> vx t = 0 /\ vy t = 0)
    /\ (type t = SINE_WAVE ->
        vy t = 0
        /\ (GAME_CONFIG.TARGET_RADIUS + 70 <= ph - GAME_CONFIG.TARGET_RADIUS - 70 ->
            GAME_CONFIG.TARGET_RADIUS + 70 <= y t <= ph - GAME_CONFIG.TARGET_RADIUS - 70))
    /\ (type t <> SINE_WAVE -> y t = sy)
    /\ initialY t = Some (y t)
    /\ (difficulty = EASY -> score (gameState w) < 15 -> type t = NORMAL).
Proof.
  intros w'. subst w'. unfold spawnTarget.
  repeat (rewrite exec_bind; cbv beta).
  cbn [getW fst].
  assert (Hshape : forall lvl r, pick CIRCLE (availableShapes lvl) r <> STAR).
  { intros lvl r Hs. pose proof (pick_shape lvl r) as Hp. rewrite Hs in Hp.
    cbn in Hp. intuition discriminate. }
  assert (Hclamp : forall a b v, a <= b -> a <= Rmax a (Rmin b v) <= b).
  { intros a b v Hab. unfold Rmax, Rmin.
    repeat destruct (Rle_dec _ _); lra. }
  match goal with
  | |- context [if ?b then (let* typeRoll := Math_random in ret (typeOfRoll typeRoll))
                else ret NORMAL] => destruct b eqn:Hcond
  end.
  - assert (Heasy : difficulty = EASY -> score (gameState w) < 15 -> False).
    { intros He Hs. rewrite He in Hcond. rewrite (leb_false _ _ Hs) in Hcond.
      discriminate Hcond. }
    cbn [bind Math_random ret fst snd exec].
    match goal with
    | |- context [typeOfRoll ?r] =>
        destruct (typeOfRoll_cases r) as [E | [E | [E | [E | E]]]]; rewrite !E
    end;
      cbn [bind Math_random ret fst snd exec];
      (eexists; split; [reflexivity |]);
      cbn [color x y vx vy radius type shape health initialY];
      (split; [reflexivity |]; split; [reflexivity |]; split; [reflexivity |];
       split; [discriminate |]; split; [apply Hshape |];
       split; [reflexivity |];
       split; [intros; first [discriminate | split; reflexivity] |];
       split; [intros; first [discriminate | split; [reflexivity | apply Hclamp]] |];
       split; [intros Hn; first [reflexivity | exfalso; apply Hn; reflexivity] |];
       split; [reflexivity |];
       intros He Hs; exfalso; exact (Heasy He Hs)).
  - cbn [bind Math_random ret fst snd exec].
    eexists; split; [reflexivity |].
    cbn [color x y vx vy radius type shape health initialY].
    split; [reflexivity |]. split; [reflexivity |]. split; [reflexivity |].
    split; [discriminate |]. split; [apply Hshape |].
    split; [reflexivity |]. split; [discriminate |]. split; [discriminate |].
    split; [reflexivity |]. split; reflexivity.
Qed.


(** ** The listeners and the display *)

(** X21: The test of the mouse listener on the control bar repeats a test
    that [shoot] makes itself before it changes anything: a mouse press does
    exactly what [shoot] does at that position. A touch does to the session
    what [shoot] does at its first point, and the listener calls
    [preventDefault] exactly when the event is cancelable and that point is
    not on the control bar of an arena that has a height: the test of the
    touch listener is what leaves the touches on the control bar their
    default action. A touch event without touches does nothing. *)
Theorem pointer_listeners_shoot (now cx cy : R) (cancelable : bool)
    (more : list (R * R)) (w : World) :
  let touch := handleTouch now cancelable ((cx, cy) :: more) w in
  handleMouseDown now cx cy w = shoot now cx cy w
  /\ touch.2 = exec (shoot now cx cy) w
  /\ (touch.1 = true <->
      cancelable = true
      /\ ~ (height (dimensions w) <> 0
            /\ height (dimensions w) - GAME_CONFIG.CONTROLS_HEIGHT < cy))
  /\ handleTouch now cancelable [] w = (false, w).
Proof.
  intros touch. subst touch.
  assert (Hs : height (dimensions w) <> 0 ->
               height (dimensions w) - GAME_CONFIG.CONTROLS_HEIGHT < cy ->
               shoot now cx cy w = (tt, w)).
  { intros _ Hbar.
    pose proof (shoot_returns now cx cy w ltac:(tauto)) as E. unfold exec in E.
    destruct (shoot now cx cy w) as [[] w']. cbn in E. rewrite E. reflexivity. }
  unfold handleMouseDown, handleTouch, bind, getW, ret, exec.
  destruct (JsMath.eqb (height (dimensions w)) 0) eqn:E0; cbn [negb andb].
  - assert (H0 : height (dimensions w) = 0).
    { unfold JsMath.eqb in E0. destruct (Req_dec_T _ _); [assumption | discriminate]. }
    clear E0.
    destruct (shoot now cx cy w) as [[] w'] eqn:Es. cbn [fst snd exec].
    split; [reflexivity |]. split; [reflexivity |]. split; [| reflexivity].
    split; [intros ->; split; [reflexivity | tauto] | tauto].
  - assert (H0 : height (dimensions w) <> 0).
    { unfold JsMath.eqb in E0. destruct (Req_dec_T _ _); [discriminate | assumption]. }
    clear E0.
    destruct (JsMath.ltb (height (dimensions w) - GAME_CONFIG.CONTROLS_HEIGHT) cy) eqn:E1.
    + apply ltb_spec in E1. rewrite (Hs H0 E1). cbn [fst snd exec].
      split; [reflexivity |]. split; [reflexivity |]. split; [| reflexivity].
      split; [discriminate | tauto].
    + apply ltb_nspec in E1.
      destruct (shoot now cx cy w) as [[] w'] eqn:Es. cbn [fst snd exec].
      split; [reflexivity |]. split; [reflexivity |]. split; [| reflexivity].
      split; [intros ->; split; [reflexivity | lra] | tauto].
Qed.






(** X23: The combo badge of the display shows the multiplier that the scoring
    applies at the same streak. *)
Theorem combo_badge_matches_scoring (s : Z) : currentMultiplier s = streakMultiplier s.
Proof.
  unfold currentMultiplier, streakMultiplier.
  destruct (Z.ltb_spec 20 s), (Z.ltb_spec 10 s), (Z.ltb_spec 5 s); try reflexivity; lia.
Qed.

(** X24: The progress bar of the level is full exactly when the boss progress
    has reached the threshold of the level, but the boss trigger asks for
    strictly more: at the threshold itself the bar is full and the trigger
    does nothing. *)
Theorem progress_bar_and_trigger (width : R) (w : World) :
  (0 <= level (gameState w))%Z ->
  let s := gameState w in
  (levelProgress s = 100 <-> pointsForNextLevel s <= scoreSinceLastBoss s)
  /\ (scoreSinceLastBoss s = pointsForNextLevel s ->
      levelProgress s = 100 /\ exec (bossTrigger width) w = w)
  /\ (exec (bossTrigger width) w <> w -> levelProgress s = 100).
Proof.
  intros Hl s.
  assert (Hth : 0 < pointsForNextLevel s).
  { unfold pointsForNextLevel, GAME_CONFIG.POINTS_PER_LEVEL. apply IZR_le in Hl.
    fold s in Hl. lra. }
  assert (Hiff : levelProgress s = 100 <-> pointsForNextLevel s <= scoreSinceLastBoss s).
  { unfold levelProgress. fold (pointsForNextLevel s).
    set (th := pointsForNextLevel s) in *. set (p := scoreSinceLastBoss s).
    assert (E : p / th * 100 - 100 = (p - th) * (100 / th)) by (field; lra).
    assert (Hq : 0 < 100 / th) by (apply Rdiv_lt_0_compat; lra).
    unfold Rmin. destruct (Rle_dec 100 (p / th * 100)) as [Hle | Hgt]; split; intros H.
    - nra.
    - reflexivity.
    - nra.
    - exfalso. apply Hgt. nra. }
  split; [exact Hiff |]. split.
  - intros E. split; [apply Hiff; lra |].
    unfold exec. rewrite bossTrigger_idle; [reflexivity |]. right. fold s. lra.
  - intros Hfire. apply Hiff.
    destruct (Rle_lt_dec (scoreSinceLastBoss s) (pointsForNextLevel s)) as [Hle | Hlt];
      [| lra].
    exfalso. apply Hfire. unfold exec. rewrite bossTrigger_idle; [reflexivity |].
    right. exact Hle.
Qed.


Lemma ending_run (es : list Event) (w : World) :
  isEnding (gameState w) = true ->
  isEnding (gameState (run es w)) = true
  /\ score (gameState (run es w)) = score (gameState w)
  /\ sessionStats (run es w) = sessionStats w
  /\ handoffTimers (run es w) = handoffTimers w.
Proof.
  revert w. induction es as [| e es IH]; intros w Hend; [repeat split; assumption |].
  cbn [run fold_left].
  destruct (ending_step e w Hend) as (E & S & _ & _ & _ & St & H).
  destruct (IH _ E) as (E' & S' & St' & H').
  unfold run in *. rewrite S', St', H'. repeat split; assumption.
Qed.

(** ** The handoff and the achievements *)

Lemma bar_full (v n : Z) :
  (0 < n)%Z -> ((n <=? v)%Z = true <-> Rmin 100 (IZR v / IZR n * 100) = 100).
Proof.
  intros Hn. apply IZR_lt in Hn.
  assert (E : IZR v / IZR n * 100 - 100 = (IZR v - IZR n) * (100 / IZR n)) by (field; lra).
  assert (Hq : 0 < 100 / IZR n) by (apply Rdiv_lt_0_compat; lra).
  rewrite Z.leb_le. unfold Rmin.
  destruct (Rle_dec 100 (IZR v / IZR n * 100)) as [Hle | Hgt]; split; intros H.
  - reflexivity.
  - apply le_IZR. nra.
  - exfalso. apply Hgt. apply IZR_le in H. nra.
  - exfalso. apply Hgt. lra.
Qed.

(** X25: For each of the fourteen achievements, the condition holds exactly when
    the progress bar is full. *)
Theorem achievement_bar_full_iff_condition (def : AchievementDef) (s : GameStats) :
  In def ACHIEVEMENT_DEFINITIONS ->
  (condition def s = true <-> progress def s = 100)
  /\ progress def s <= 100.
Proof.
  intros Hin. split; [| cbn [In ACHIEVEMENT_DEFINITIONS] in Hin;
                        repeat (destruct Hin as [<- | Hin]; [apply Rmin_l |]);
                        contradiction].
  cbn [In ACHIEVEMENT_DEFINITIONS] in Hin.
  repeat (destruct Hin as [<- | Hin]; [cbn [condition progress]; apply bar_full; lia |]).
  contradiction.
Qed.

Lemma checkAchievement_unlocked (st : GameStats) (ach : Achievement) :
  ach_def (checkAchievement st ach) = ach_def ach
  /\ isUnlocked (checkAchievement st ach) = isUnlocked ach || condition (ach_def ach) st.
Proof.
  unfold checkAchievement. destruct (isUnlocked ach) eqn:U; [rewrite U; auto |].
  destruct (condition (ach_def ach) st); cbn; auto.
Qed.

Lemma nothing_new_unlocked (st : GameStats) (achs : list Achievement) :
  newUnlockedIds st achs = [] -> map (checkAchievement st) achs = achs.
Proof.
  unfold newUnlockedIds. induction achs as [| ach achs IH]; [reflexivity |].
  rewrite filter_cons. cbn [map].
  destruct (decide _) as [[U C] | Hn]; [discriminate |].
  intros H. rewrite (IH H). f_equal.
  unfold checkAchievement. destruct (isUnlocked ach) eqn:U; [reflexivity |].
  destruct (condition (ach_def ach) st) eqn:C; [| reflexivity].
  exfalso. apply Hn. split; reflexivity.
Qed.

Lemma handleGameOver_achievements (fs : Z) (ss : GameStats) (a : App) :
  app_achievements (handleGameOver fs ss a)
  = map (checkAchievement (mergeStats (app_stats a) fs ss)) (app_achievements a).
Proof.
  unfold handleGameOver. cbn [app_achievements].
  destruct (newUnlockedIds _ (app_achievements a)) as [| first ids] eqn:E; cbn [length Nat.ltb Nat.leb].
  - symmetry. apply nothing_new_unlocked. exact E.
  - reflexivity.
Qed.

(** X26: [handleGameOver] shows the game-over screen with the final score and
    merges the statistics; it goes through the achievements in place: the
    list keeps its entries and their order, an achievement is unlocked
    afterwards exactly when it was unlocked before or its condition holds of
    the merged statistics, so none is ever locked again; the test on new
    unlocks before the list is stored changes nothing, and without a new
    unlock the toast stays as it is. *)
Theorem handleGameOver_unlocks (fs : Z) (ss : GameStats) (a : App) :
  let a' := handleGameOver fs ss a in
  app_gameState a' = GAME_OVER
  /\ app_score a' = fs
  /\ app_stats a' = mergeStats (app_stats a) fs ss
  /\ map ach_def (app_achievements a') = map ach_def (app_achievements a)
  /\ (forall i ach,
        app_achievements a !! i = Some ach ->
        exists ach',
          app_achievements a' !! i = Some ach'
          /\ ach_def ach' = ach_def ach
          /\ isUnlocked ach' = isUnlocked ach || condition (ach_def ach) (app_stats a'))
  /\ (newUnlockedIds (app_stats a') (app_achievements a) = [] ->
      app_achievements a' = app_achievements a /\ app_toast a' = app_toast a).
Proof.
  intros a'. pose proof (handleGameOver_achievements fs ss a) as E. fold a' in E.
  split; [reflexivity |]. split; [reflexivity |]. split; [reflexivity |].
  split; [| split].
  - rewrite E, map_map. apply map_ext. intros ach. apply checkAchievement_unlocked.
  - intros i ach Hi. exists (checkAchievement (app_stats a') ach).
    split; [| apply checkAchievement_unlocked].
    rewrite E. change (map ?f ?l) with (f <$> l). rewrite list_lookup_fmap, Hi. reflexivity.
  - intros Hnone. split.
    + rewrite E. apply nothing_new_unlocked. exact Hnone.
    + change (app_stats a') with (mergeStats (app_stats a) fs ss) in Hnone.
      unfold a', handleGameOver. cbn [app_toast]. rewrite Hnone. reflexivity.
Qed.

(** X27: After [handleGameOver], an achievement of the table that is still locked
    has a progress bar below 100: the menu, which shows the bar of the
    locked achievements only, never shows a full bar. *)
Theorem locked_bar_not_full (fs : Z) (ss : GameStats) (a : App) (ach' : Achievement) :
  Forall (fun ach => In (ach_def ach) ACHIEVEMENT_DEFINITIONS) (app_achievements a) ->
  let a' := handleGameOver fs ss a in
  In ach' (app_achievements a') ->
  isUnlocked ach' = false ->
  progress (ach_def ach') (app_stats a') < 100.
Proof.
  intros Hdefs a' Hin Hlocked.
  pose proof (handleGameOver_achievements fs ss a) as E. fold a' in E.
  rewrite E in Hin. apply in_map_iff in Hin. destruct Hin as (ach & <- & Hin).
  destruct (checkAchievement_unlocked (mergeStats (app_stats a) fs ss) ach) as [Ed Eu].
  rewrite Eu in Hlocked. apply orb_false_iff in Hlocked. destruct Hlocked as [_ Hc].
  rewrite Ed. rewrite Forall_forall in Hdefs.
  assert (Hd : In (ach_def ach) ACHIEVEMENT_DEFINITIONS).
  { apply Hdefs. apply list_elem_of_In. exact Hin. }
  set (st := mergeStats (app_stats a) fs ss) in *.
  change (app_stats a') with st.
  assert (Hfull : condition (ach_def ach) st = true <-> progress (ach_def ach) st = 100).
  { clear -Hd. cbn [In ACHIEVEMENT_DEFINITIONS] in Hd.
    repeat (destruct Hd as [<- | Hd]; [cbn [condition progress]; apply bar_full; lia |]).
    contradiction. }
  assert (Hle : progress (ach_def ach) st <= 100).
  { clear -Hd. cbn [In ACHIEVEMENT_DEFINITIONS] in Hd.
    repeat (destruct Hd as [<- | Hd]; [apply Rmin_l |]). contradiction. }
  destruct Hle as [Hlt | Heq]; [exact Hlt |].
  apply Hfull in Heq. congruence.
Qed.


(** ** The mismatch and its handoff *)


Lemma sameHandoff_refl w : sameHandoff w w.
Proof. repeat split; reflexivity. Qed.

Lemma sameHandoff_trans a b c : sameHandoff a b -> sameHandoff b c -> sameHandoff a c.
Proof. intros (E1 & M1 & H1) (E2 & M2 & H2). repeat split; congruence. Qed.

Lemma keepsHandoff_refl w : keepsHandoff w w.
Proof. intros H. exact H. Qed.

Lemma keepsHandoff_trans a b c : keepsHandoff a b -> keepsHandoff b c -> keepsHandoff a c.
Proof. intros H1 H2 H. apply H2, H1, H. Qed.

Lemma sameHandoff_keepsHandoff w w' : sameHandoff w w' -> keepsHandoff w w'.
Proof. intros (E & M & H) Hinv. unfold HandoffInv in *. rewrite E, M, H. exact Hinv. Qed.

Lemma sameHandoff_visual {A} (m : M A) : visualOnly m -> rspec sameHandoff anyResult m.
Proof.
  intros Hm w. split; [exact I |].
  destruct (Hm w) as (a & pool & cur & n & E & _). rewrite E. repeat split; reflexivity.
Qed.

Lemma sameHandoff_modState (f : GameState -> GameState) :
  (forall s, isEnding (f s) = isEnding s) -> rspec sameHandoff anyResult (modState f).
Proof. intros Hf w. split; [exact I |]. split; [apply Hf | split; reflexivity]. Qed.

Lemma sameHandoff_modStats (f : GameStats -> GameStats) :
  (forall st, targetsMissed (f st) = targetsMissed st) ->
  rspec sameHandoff anyResult (modStats f).
Proof. intros Hf w. split; [exact I |]. split; [reflexivity | split; [apply Hf | reflexivity]]. Qed.

Lemma sameHandoff_modify (f : World -> World) :
  (forall w, gameState (f w) = gameState w /\ sessionStats (f w) = sessionStats w
             /\ handoffTimers (f w) = handoffTimers w) ->
  rspec sameHandoff anyResult (modify f).
Proof.
  intros Hf w. split; [exact I |]. destruct (Hf w) as (G & S & H).
  unfold sameHandoff. cbn [modify snd]. rewrite G, S, H. repeat split; reflexivity.
Qed.

Ltac sameHandoff_leaf :=
  idtac;
  match goal with
  | |- rspec _ _ Math_random => apply sameHandoff_visual, visualOnly_random
  | |- rspec _ _ (spawnParticle _) => apply sameHandoff_visual, visualOnly_spawnParticle
  | |- rspec _ _ (spawnHitParticles _ _ _ _ _) =>
      apply sameHandoff_visual, visualOnly_spawnHitParticles
  | |- rspec _ _ (sparks _ _ _ _ _ _ _) => apply sameHandoff_visual, visualOnly_sparks
  | |- rspec _ _ (muzzleFlash _ _) => apply sameHandoff_visual, visualOnly_muzzleFlash
  | |- rspec _ _ (thinTargets _) => apply sameHandoff_visual, visualOnly_thinTargets
  | |- rspec _ _ (modStats _) =>
      apply sameHandoff_modStats; intros ?st; unfold trackKill;
      repeat match goal with |- context [decide ?P] => destruct (decide P) end;
      reflexivity
  | |- rspec _ _ (modState _) => apply sameHandoff_modState; intros ?s; reflexivity
  | |- rspec _ _ (modify _) =>
      apply sameHandoff_modify; intros ?w; repeat split; reflexivity
  end.

Ltac walk_sameHandoff := walk sameHandoff_refl sameHandoff_trans sameHandoff_leaf.

Lemma sameHandoff_handleColorSelect c : rspec sameHandoff anyResult (handleColorSelect c).
Proof. unfold handleColorSelect. walk_sameHandoff. Qed.

Lemma sameHandoff_shoot now tx ty : rspec sameHandoff anyResult (shoot now tx ty).
Proof. unfold shoot, pulseShooter. walk_sameHandoff. Qed.

Lemma sameHandoff_updateParticles tf : rspec sameHandoff anyResult (updateParticles tf).
Proof. unfold updateParticles. walk_sameHandoff. Qed.

Lemma sameHandoff_shakeTick dt : rspec sameHandoff anyResult (shakeTick dt).
Proof. unfold shakeTick. walk_sameHandoff. Qed.

Lemma sameHandoff_spawning dt width ph : rspec sameHandoff anyResult (spawning dt width ph).
Proof.
  unfold spawning, bossTrigger, ordinarySpawn, trySpawn, spawnTarget. walk_sameHandoff.
Qed.

Lemma sameHandoff_physicsAndLogic dt tf ph :
  rspec sameHandoff anyResult (physicsAndLogic dt tf ph).
Proof.
  unfold physicsAndLogic, targetLogic, colorShiftAbility, summonAbility. walk_sameHandoff.
Qed.

Lemma sameHandoff_collisionPhysics width ph :
  rspec sameHandoff anyResult (collisionPhysics width ph).
Proof. unfold collisionPhysics. walk_sameHandoff. Qed.

Lemma sameHandoff_matchHit proj i target accuracy :
  rspec sameHandoff anyResult (matchHit proj i target accuracy).
Proof.
  unfold matchHit, destroyTarget, bossDefeated, splitChildren. walk_sameHandoff.
Qed.

(** A hit keeps the invariant: a mismatch counts one miss, schedules one
    handoff and raises the ending flag. *)
Lemma keepsHandoff_resolveHit proj i target :
  rspec keepsHandoff anyResult (resolveHit proj i target).
Proof.
  intros w. split; [exact I |].
  destruct (decide (pj_color proj = color target)) as [Hc | Hc].
  - apply sameHandoff_keepsHandoff. unfold resolveHit. rewrite (decide_True _ _ Hc).
    apply (proj2 (sameHandoff_matchHit proj i target _ w)).
  - destruct (hit_mismatch proj i target w Hc) as (_ & E & M & _ & _ & _ & _ & _ & H).
    intros (I1 & I2 & I3). unfold HandoffInv.
    change ((resolveHit proj i target w).2) with (exec (resolveHit proj i target) w).
    rewrite E, M, H, I1.
    split; [| split; [lia | split; [lia | reflexivity]]].
    replace (targetsMissed (sessionStats w) + 1)%Z
      with (Z.succ (targetsMissed (sessionStats w))) by lia.
    rewrite Z2Nat.inj_succ by exact I2. cbn [repeat]. symmetry. apply repeat_cons.
Qed.

Lemma keepsHandoff_hitOrLeave proj slot width height :
  rspec keepsHandoff anyResult (hitOrLeave proj slot width height).
Proof.
  intros w. split; [exact I |]. unfold hitOrLeave, bind at 1, getW. cbn zeta.
  destruct (findHit proj _ _) as [i |].
  - destruct (targets (gameState w) !! i) as [target |] eqn:Hi; [| apply keepsHandoff_refl].
    change ((resolveHit proj i target >> deactivate slot) w).2
      with (exec (resolveHit proj i target >> deactivate slot) w).
    rewrite exec_bind. intros Hinv.
    exact (proj2 (keepsHandoff_resolveHit proj i target w) Hinv).
  - apply sameHandoff_keepsHandoff.
    apply (rspec_when _ sameHandoff_refl). unfold deactivate. sameHandoff_leaf.
Qed.

Ltac handoff_leaf :=
  first
    [ apply keepsHandoff_hitOrLeave
    | apply (rspec_weaken sameHandoff keepsHandoff);
      [ apply sameHandoff_keepsHandoff
      | first [ apply sameHandoff_updateParticles | apply sameHandoff_shakeTick
              | apply sameHandoff_spawning | apply sameHandoff_physicsAndLogic
              | apply sameHandoff_collisionPhysics
              | apply sameHandoff_shoot | apply sameHandoff_handleColorSelect
              | sameHandoff_leaf ] ] ].

Ltac walk_handoff := walk keepsHandoff_refl keepsHandoff_trans handoff_leaf.

Lemma keepsHandoff_handle e : rspec keepsHandoff anyResult (handle e).
Proof.
  destruct e; cbn [handle]; unfold animate, projectileUpdate, projectileStep,
    updateDimensions, skipTutorial, pulseTimeout; walk_handoff.
Qed.

Lemma HandoffInv_run es w : HandoffInv w -> HandoffInv (run es w).
Proof.
  revert w. induction es as [| e es IH]; intros w Hw; [exact Hw |].
  cbn [run fold_left]. apply IH. apply (proj2 (keepsHandoff_handle e w)). exact Hw.
Qed.

Lemma reachable_HandoffInv w : reachable w -> HandoffInv w.
Proof.
  intros [es ->]. apply HandoffInv_run.
  unfold HandoffInv. cbn. split; [reflexivity |]. split; [lia |].
  split; [discriminate | lia].
Qed.

(** A running session has had no mismatch. *)
Lemma HandoffInv_running w :
  HandoffInv w -> isEnding (gameState w) = false -> noMismatchYet w.
Proof.
  intros (I1 & I2 & I3) He. split; [exact He |].
  assert (Hm : targetsMissed (sessionStats w) = 0%Z).
  { destruct (Z.eq_dec (targetsMissed (sessionStats w)) 0%Z) as [E | E]; [exact E |].
    assert (Ht : isEnding (gameState w) = true) by (apply I3; lia). congruence. }
  split; [exact Hm |]. rewrite I1, Hm. reflexivity.
Qed.

(** A slot whose projectile is not in flight is skipped by the loop. *)
Lemma projectileStep_idle (tf width height : R) (slot : nat) (w : World) :
  (forall p, projectilePool (gameState w) !! slot = Some p -> pj_active p = false) ->
  exec (projectileStep tf width height slot) w = w.
Proof.
  intros Hi. unfold projectileStep. rewrite exec_bind. cbn [getW fst].
  change (exec getW w) with w.
  destruct (projectilePool (gameState w) !! slot) as [p |]; [| reflexivity].
  rewrite (Hi p eq_refl). reflexivity.
Qed.

Lemma forFrom_idle (tf width height : R) (n from : nat) (w : World) :
  (forall i p, (from <= i)%nat -> projectilePool (gameState w) !! i = Some p ->
               pj_active p = false) ->
  exec (forFrom from n (projectileStep tf width height)) w = w.
Proof.
  revert from. induction n as [| n IH]; intros from Hi; [reflexivity |].
  cbn [forFrom]. rewrite exec_bind.
  rewrite projectileStep_idle by (intros p; apply Hi; lia).
  apply IH. intros i p Hle. apply Hi. lia.
Qed.



(** X28: The handoff of a session that a mismatch ends. When a tick of a
    running session leaves the session ending, one timer of 1000 ms is
    pending for each miss counted in that tick, at least one; whenever a
    timer fires, after whatever events, [onGameOver] receives the floored
    score and the session statistics of the end of that tick, and
    [handleGameOver] shows that score, adds the [totalScore] of the session
    statistics (the score as snapshot by the last hit) to the total score,
    takes the maximum of the high score and the floored score, counts one
    more game, adds the misses of the session and shows the game-over
    screen. *)
Theorem mismatch_handoff_merges (w : World) (t : R) (es : list Event) (a : App) :
  reachable w \/ HandoffInv w ->
  isEnding (gameState w) = false ->
  let w1 := exec (animate t) w in
  isEnding (gameState w1) = true ->
  let wf := run es w1 in
  let a' := handleGameOver (onGameOverArgs wf).1 (onGameOverArgs wf).2 a in
  targetsMissed (sessionStats w) = 0%Z
  /\ (1 <= targetsMissed (sessionStats w1))%Z
  /\ handoffTimers wf = repeat 1000 (Z.to_nat (targetsMissed (sessionStats w1)))
  /\ onGameOverArgs wf = (JsMath.floor (score (gameState w1)), sessionStats w1)
  /\ app_score a' = JsMath.floor (score (gameState w1))
  /\ totalScore (app_stats a')
     = (totalScore (app_stats a) + totalScore (sessionStats w1))%Z
  /\ highScore (app_stats a')
     = Z.max (highScore (app_stats a)) (JsMath.floor (score (gameState w1)))
  /\ gamesPlayed (app_stats a') = (gamesPlayed (app_stats a) + 1)%Z
  /\ targetsMissed (app_stats a')
     = (targetsMissed (app_stats a) + targetsMissed (sessionStats w1))%Z
  /\ app_gameState a' = GAME_OVER.
Proof.
  intros H0 Hrun w1 Hend wf a'.
  assert (Hinv : HandoffInv w) by (destruct H0; [apply reachable_HandoffInv |]; assumption).
  destruct (HandoffInv_running w Hinv Hrun) as (_ & M0 & _).
  destruct (proj2 (keepsHandoff_handle (Animate t) w) Hinv) as (I1 & I2 & I3).
  change ((handle (Animate t) w).2) with w1 in I1, I2, I3.
  destruct (ending_run es w1 Hend) as (_ & Sf & Stf & Hf). fold wf in Sf, Stf, Hf.
  assert (Args : onGameOverArgs wf
                 = (JsMath.floor (score (gameState w1)), sessionStats w1)).
  { unfold onGameOverArgs. rewrite Sf, Stf. reflexivity. }
  split; [exact M0 |].
  split; [apply I3 in Hend; lia |].
  split; [rewrite Hf; exact I1 |].
  split; [exact Args |].
  subst a'. rewrite Args. cbn [fst snd].
  cbn [handleGameOver app_score app_stats app_gameState mergeStats
       totalScore highScore gamesPlayed targetsMissed].
  repeat split; lia.
Qed.


(** ** The projectile pool during a hit *)

Lemma samePool_refl w : samePool w w.
Proof. reflexivity. Qed.

Lemma samePool_trans a b c : samePool a b -> samePool b c -> samePool a c.
Proof. unfold samePool. congruence. Qed.

Lemma samePool_visual {A} (m : M A) : visualOnly m -> rspec samePool anyResult m.
Proof.
  intros Hm w. split; [exact I |].
  destruct (Hm w) as (a & pool & cur & n & E & _). rewrite E. reflexivity.
Qed.

Lemma samePool_modState (f : GameState -> GameState) :
  (forall s, projectilePool (f s) = projectilePool s) -> rspec samePool anyResult (modState f).
Proof. intros Hf w. split; [exact I |]. apply Hf. Qed.

Lemma samePool_modify (f : World -> World) :
  (forall w, gameState (f w) = gameState w) -> rspec samePool anyResult (modify f).
Proof.
  intros Hf w. split; [exact I |]. unfold samePool. cbn [modify snd]. rewrite Hf. reflexivity.
Qed.

Ltac samePool_leaf :=
  idtac;
  match goal with
  | |- rspec _ _ Math_random => apply samePool_visual, visualOnly_random
  | |- rspec _ _ (spawnHitParticles _ _ _ _ _) =>
      apply samePool_visual, visualOnly_spawnHitParticles
  | |- rspec _ _ (modStats _) => apply samePool_modify; intros ?w; reflexivity
  | |- rspec _ _ (modState _) => apply samePool_modState; intros ?s; reflexivity
  | |- rspec _ _ (modify _) => apply samePool_modify; intros ?w; reflexivity
  end.

(** A hit leaves the projectile pool to the caller. *)
Lemma samePool_resolveHit proj i target : rspec samePool anyResult (resolveHit proj i target).
Proof.
  unfold resolveHit, matchHit, mismatchHit, destroyTarget, bossDefeated, splitChildren.
  walk samePool_refl samePool_trans samePool_leaf.
Qed.

(** The scan of a projectile changes no slot but its own, which it may
    take out of flight. *)
Lemma hitOrLeave_slots proj slot width height w :
  let w' := exec (hitOrLeave proj slot width height) w in
  projectilePool (gameState w') = projectilePool (gameState w)
  \/ projectilePool (gameState w')
     = alter (set_pj_active false) slot (projectilePool (gameState w)).
Proof.
  intros w'. subst w'. unfold hitOrLeave. rewrite exec_bind. cbn [getW fst].
  change (exec getW w) with w.
  destruct (findHit proj _ _) as [i |].
  - destruct (targets (gameState w) !! i) as [target |]; [| left; reflexivity].
    right. rewrite exec_bind.
    pose proof (proj2 (samePool_resolveHit proj i target w)) as E. unfold samePool in E.
    change (projectilePool (gameState (exec (deactivate slot) ?W)))
      with (alter (set_pj_active false) slot (projectilePool (gameState W))).
    unfold exec. rewrite E. reflexivity.
  - destruct (outOfArena proj width height); [right | left]; reflexivity.
Qed.


(** ** The boss flag and the boss *)















(** ** The streak and its record *)

























End Properties.

(** * The properties at concrete inputs *)

(** ** Square roots of concrete distances *)

Lemma sqrt_lt_bound (v r : R) : 0 <= v -> 0 < r -> v < r * r -> sqrt v < r.
Proof.
  intros Hv Hr Hlt. rewrite <- (sqrt_square r) by lra.
  apply sqrt_lt_1; nra.
Qed.

Lemma sqrt_le_bound (v r : R) : 0 <= r -> r * r <= v -> r <= sqrt v.
Proof.
  intros Hr Hle. rewrite <- (sqrt_square r) at 1 by lra.
  apply sqrt_le_1; nra.
Qed.

(** A projectile straight below or above a target, within 40 of it, is in
    hit range of a target of radius 32. *)
Lemma inHitRange_vertical c1 ty c2 px py ty0 :
  Rabs (py - ty0) < 40 ->
  inHitRange (shotAt c1 px py) (targetAt ty c2 px ty0) = true.
Proof.
  intros Hd. unfold inHitRange, hitDistance. cbn.
  unfold GAME_CONFIG.TARGET_RADIUS. apply ltb_true.
  replace ((px - px) * (px - px) + (py - ty0) * (py - ty0))
    with ((py - ty0) * (py - ty0)) by ring.
  apply Rabs_def2 in Hd.
  apply sqrt_lt_bound; [apply Rle_0_sqr | lra | nra].
Qed.

(** ** Witnesses and counterexamples of the claims *)

(** The boss fight of the example: the boss trigger has fired in the arena
    in which the boss was due, and the boss is the one target. *)
Lemma bossFightWorld_boss :
  bossActive (gameState bossFightWorld) = true
  /\ (exists boss, targets (gameState bossFightWorld) = [boss] /\ type boss = BOSS)
  /\ SessionInv bossFightWorld.
Proof.
  assert (Hb : bossActive (gameState bossDueWorld) = false) by reflexivity.
  assert (Hs : pointsForNextLevel (gameState bossDueWorld)
               < scoreSinceLastBoss (gameState bossDueWorld)).
  { unfold pointsForNextLevel, GAME_CONFIG.POINTS_PER_LEVEL. cbn. lra. }
  assert (H0 : SessionInv bossDueWorld).
  { unfold SessionInv. cbn [bossDueWorld arenaWorld gameState set_gameState targets
      set_targets set_scoreSinceLastBoss bossActive particlePool particleCursor
      set_dimensions initialWorld initialGameState].
    rewrite length_map, length_seq.
    split; [cbv; lia |]. split; [reflexivity |]. split; [reflexivity | lia]. }
  destruct (bossTrigger_fires (props := exampleProps MEDIUM) 400 bossDueWorld Hb Hs)
    as (kept & r1 & r2 & n & Hsub & E).
  change (targets (gameState bossDueWorld)) with (@nil Target) in Hsub.
  apply sublist_nil_r in Hsub. subst kept.
  split; [| split].
  - unfold bossFightWorld. rewrite E. reflexivity.
  - unfold bossFightWorld. rewrite E. eexists. split; reflexivity.
  - exact (proj2 (keepsInv_bossTrigger (props := exampleProps MEDIUM) 400 bossDueWorld) H0).
Qed.

(** In the boss fight of the example, after a frame, a shot and another
    frame. *)
Lemma C5_at_most_one_boss_witness :
  let w :=
    run (props := exampleProps MEDIUM) [Animate 1016; Shoot 2000 200 300; Animate 1033]
        bossFightWorld in
  bossCount (targets (gameState bossFightWorld)) = 1%nat
  /\ bossActive (gameState bossFightWorld) = true
  /\ (bossCount (targets (gameState w)) <= 1)%nat
  /\ (bossActive (gameState w) = false -> bossCount (targets (gameState w)) = 0%nat)
  /\ (bossActive (gameState w) = true ->
      forall width, bossTrigger (props := exampleProps MEDIUM) width w = (tt, w)).
Proof.
  intros w.
  destruct bossFightWorld_boss as (Hb & (boss & Ht & Hty) & Hinv).
  split; [rewrite Ht; unfold bossCount; rewrite filter_cons, decide_True by exact Hty;
          reflexivity |].
  split; [exact Hb |].
  exact (C5_at_most_one_boss (props := exampleProps MEDIUM) bossFightWorld
           [Animate 1016; Shoot 2000 200 300; Animate 1033] (or_intror Hinv)).
Defined.

(** The ring when it is full: in the world that a resize to 400 by 800 and
    the choice of BLUE reach from the initial world, after 600 calls every
    slot is alive and the cursor is back at slot 0; the next call writes
    its particle into slot 0 and moves the cursor to slot 1. *)
Lemma C9_particle_ring_witness :
  let w :=
    run (props := exampleProps MEDIUM) [Resize (mkDimensions 400 800); ColorSelect BLUE]
        (initialWorld (props := exampleProps MEDIUM)) in
  let w1 := spawnAll (repeat (particleConfig 1 2 0 0 1 "#fff" 4 BURST) 600) w in
  let w2 := exec (spawnParticle (particleConfig 3 4 0 0 1 "#000" 7 SPARK)) w1 in
  reachable (props := exampleProps MEDIUM) w
  /\ Forall (fun p => pt_active p = true) (particlePool (gameState w1))
  /\ particleCursor (gameState w1) = 0%nat
  /\ length (particlePool (gameState w2)) = 600%nat
  /\ particleCursor (gameState w2) = 1%nat
  /\ (exists new,
        particlePool (gameState w2) !! 0%nat = Some new
        /\ pt_x new = 3 /\ pt_y new = 4 /\ pt_size new = 7 /\ pt_type new = SPARK
        /\ pt_active new = true).
Proof.
  intros w w1 w2.
  assert (Hr : reachable (props := exampleProps MEDIUM) w)     by (exists [Resize (mkDimensions 400 800); ColorSelect BLUE]; reflexivity).
  destruct (C9_particle_ring (props := exampleProps MEDIUM) w
              (particleConfig 3 4 0 0 1 "#000" 7 SPARK)
              (repeat (particleConfig 1 2 0 0 1 "#fff" 4 BURST) 600) Hr)
    as (_ & _ & _ & _ & C & F & L2 & _ & C2 & _ & old & new & _ & Hn & _ & Ha & Hx & Hy
        & _ & _ & _ & _ & Hs & Ht & _).
  fold w1 in C, F, L2, C2, Hn. fold w2 in L2, C2, Hn.
  rewrite repeat_length in C, F.
  change (particleCursor (gameState w)) with 0%nat in C.
  change ((0 + 600) mod 600)%nat with 0%nat in C.
  rewrite C in C2, Hn.
  split; [exact Hr |]. split; [apply F; lia |]. split; [exact C |].
  split; [exact L2 |]. split; [exact C2 |].
  exists new. repeat split; assumption.
Defined.

Lemma C10_boss_trigger_resets_progress_witness :
  let w := set_gameState (set_scoreSinceLastBoss 500 (gameState (arenaWorld MEDIUM [])))
                         (arenaWorld MEDIUM []) in
  bossActive (gameState w) = false
  /\ pointsForNextLevel (gameState w) < scoreSinceLastBoss (gameState w)
  /\ scoreSinceLastBoss
       (gameState (exec (bossTrigger (props := exampleProps MEDIUM) 400) w)) = 0.
Proof.
  intros w.
  assert (Hb : bossActive (gameState w) = false) by reflexivity.
  assert (Hs : pointsForNextLevel (gameState w) < scoreSinceLastBoss (gameState w)).
  { unfold pointsForNextLevel, GAME_CONFIG.POINTS_PER_LEVEL. cbn. lra. }
  split; [exact Hb |]. split; [exact Hs |].
  apply (C10_boss_trigger_resets_progress (props := exampleProps MEDIUM) 400 w Hb Hs).
Defined.

Lemma C6_boss_destruction_witness :
  let boss := targetAt BOSS RED 200 300 in
  let w := arenaWorld MEDIUM [boss] in
  let w' := exec (resolveHit (props := exampleProps MEDIUM) (shotAt RED 200 320) 0 boss) w in
  targets (gameState w) !! 0%nat = Some boss
  /\ type boss = BOSS
  /\ health boss <= 1
  /\ pj_color (shotAt RED 200 320) = color boss
  /\ level (gameState w') = (level (gameState w) + 1)%Z
  /\ bossActive (gameState w') = false
  /\ scoreSinceLastBoss (gameState w') = 0.
Proof.
  intros boss w w'.
  assert (H1 : targets (gameState w) !! 0%nat = Some boss) by reflexivity.
  assert (H2 : type boss = BOSS) by reflexivity.
  assert (H3 : health boss <= 1) by (cbn; lra).
  assert (H4 : pj_color (shotAt RED 200 320) = color boss) by reflexivity.
  destruct (C6_boss_destruction (props := exampleProps MEDIUM) _ _ _ _ H1 H2 H3 H4)
    as (_ & L & B & S & _).
  repeat split; assumption.
Defined.

Lemma C8_split_children_witness :
  let parent := targetAt SPLIT RED 200 300 in
  let w := arenaWorld MEDIUM [parent] in
  let w' := exec (resolveHit (props := exampleProps MEDIUM) (shotAt RED 200 320) 0 parent) w in
  targets (gameState w) !! 0%nat = Some parent
  /\ type parent = SPLIT
  /\ pj_color (shotAt RED 200 320) = color parent
  /\ length (targets (gameState w')) = (length (targets (gameState w)) + 1)%nat.
Proof.
  intros parent w w'.
  assert (H1 : targets (gameState w) !! 0%nat = Some parent) by reflexivity.
  assert (H2 : type parent = SPLIT) by reflexivity.
  assert (H3 : pj_color (shotAt RED 200 320) = color parent) by reflexivity.
  destruct (C8_split_children (props := exampleProps MEDIUM) _ _ _ _ H1 H2 H3)
    as (c1 & c2 & _ & _ & L & _).
  repeat split; assumption.
Defined.




Lemma currentMaxTargets_easy (s : GameState) :
  speedMultiplier s = 1 -> currentMaxTargets (props := exampleProps EASY) s = 8%Z.
Proof.
  intros Hs. unfold currentMaxTargets, calculatedMax. rewrite Hs. cbn.
  unfold JsMath.floor. rewrite (Zfloor_eq 8); [reflexivity |]. split; lra.
Qed.

Lemma currentMaxTargets_medium (s : GameState) :
  speedMultiplier s = 1 -> currentMaxTargets (props := exampleProps MEDIUM) s = 12%Z.
Proof.
  intros Hs. unfold currentMaxTargets, calculatedMax. rewrite Hs. cbn.
  unfold JsMath.floor. rewrite (Zfloor_eq 12); [reflexivity |]. split; lra.
Qed.

Lemma C2_ordinary_spawn_respects_cap_witness :
  let w := arenaWorld MEDIUM [] in
  let w' := exec (ordinarySpawn (props := exampleProps MEDIUM) 16 400 700) w in
  (Z.of_nat (length (targets (gameState w)))
   <= currentMaxTargets (props := exampleProps MEDIUM) (gameState w))%Z
  /\ (Z.of_nat (length (targets (gameState w')))
      <= currentMaxTargets (props := exampleProps MEDIUM) (gameState w'))%Z.
Proof.
  intros w w'.
  assert (H : (Z.of_nat (length (targets (gameState w)))
               <= currentMaxTargets (props := exampleProps MEDIUM) (gameState w))%Z).
  { rewrite currentMaxTargets_medium by reflexivity. cbn. lia. }
  split; [exact H |].
  destruct (C2_ordinary_spawn_respects_cap (props := exampleProps MEDIUM) 16 400 700 w)
    as (_ & _ & _ & K).
  exact (K H).
Defined.

(** C2, as the specification states it, fails: with the list at the
    density cap (EASY, 8 targets), the destruction of a SPLIT target leaves
    9 targets, one more than the cap. *)
Lemma C2_split_exceeds_cap :
  let parent := targetAt SPLIT RED 200 300 in
  let w := crowdedWorld in
  let w' := exec (resolveHit (props := exampleProps EASY) (shotAt RED 200 320) 7 parent) w in
  targets (gameState w) !! 7%nat = Some parent
  /\ (Z.of_nat (length (targets (gameState w)))
      <= currentMaxTargets (props := exampleProps EASY) (gameState w))%Z
  /\ ~ (Z.of_nat (length (targets (gameState w')))
        <= currentMaxTargets (props := exampleProps EASY) (gameState w'))%Z.
Proof.
  intros parent w w'.
  assert (H1 : targets (gameState w) !! 7%nat = Some parent) by reflexivity.
  split; [exact H1 |].
  destruct (hit_destroys (props := exampleProps EASY) (shotAt RED 200 320) 7 parent w)
    as (_ & _ & _ & _ & S & _ & _ & _ & _ & (extra & T & L));
    [reflexivity | discriminate | discriminate |].
  fold w' in S, T.
  rewrite (currentMaxTargets_easy (gameState w)) by reflexivity.
  rewrite (currentMaxTargets_easy (gameState w')) by (rewrite S; reflexivity).
  rewrite decide_True in L by reflexivity.
  rewrite T, length_app, L, length_delete by (rewrite H1; eauto).
  change (length (targets (gameState w))) with 8%nat.
  split; lia.
Qed.


(** ** The aim assist on concrete targets *)

Lemma tan_lt_1_PI4 (a : R) : 0 < a < PI / 2 -> tan a < 1 -> a < PI / 4.
Proof.
  intros [H0 H2] Ht. destruct (Rlt_le_dec a (PI / 4)) as [Hlt | Hge]; [exact Hlt |].
  exfalso. destruct Hge as [Hgt | Heq].
  - pose proof (tan_increasing (PI / 4) a) as Hi. rewrite tan_PI4 in Hi.
    pose proof PI_RGT_0. assert (1 < tan a) by (apply Hi; lra). lra.
  - rewrite <- Heq, tan_PI4 in Ht. lra.
Qed.

Lemma tan_double (a : R) :
  0 < a < PI / 4 -> tan a < 1 -> tan (2 * a) = 2 * tan a / (1 - tan a * tan a).
Proof.
  intros [H0 H4] Ht. pose proof PI_RGT_0 as Hpi.
  assert (0 < tan a) by (apply tan_gt_0; lra).
  apply tan_2a.
  - apply Rgt_not_eq, cos_gt_0; lra.
  - apply Rgt_not_eq, cos_gt_0; lra.
  - nra.
Qed.

Lemma atan_tenth : 0 < atan (1 / 10) < PI / 12.
Proof.
  pose proof PI_RGT_0 as Hpi.
  pose proof (atan_bound (1 / 10)) as [_ Hub].
  assert (H0 : 0 < atan (1 / 10)).
  { rewrite <- atan_0. apply atan_increasing. lra. }
  split; [exact H0 |].
  set (a := atan (1 / 10)) in *.
  assert (Ta : tan a = 1 / 10) by apply tan_atan.
  assert (H1 : a < PI / 4) by (apply tan_lt_1_PI4; lra).
  assert (T2 : tan (2 * a) = 20 / 99).
  { rewrite tan_double by lra. rewrite Ta. field. }
  assert (H2 : 2 * a < PI / 4) by (apply tan_lt_1_PI4; lra).
  assert (T4 : tan (2 * (2 * a)) = 3960 / 9401).
  { rewrite tan_double by lra. rewrite T2. field. }
  assert (H4 : 2 * (2 * a) < PI / 4) by (apply tan_lt_1_PI4; lra).
  lra.
Qed.


Lemma atan2_right (py px : R) : 0 < px -> JsMath.atan2 py px = atan (py / px).
Proof. intros H. unfold JsMath.atan2. rewrite (ltb_true _ _ H). reflexivity. Qed.

Lemma angleDiffTo_ahead (t : Target) :
  0 < x t -> 0 <= y t ->
  angleDiffTo 0 0 (JsMath.atan2 0 10) t = atan (y t / x t).
Proof.
  intros Hx Hy. unfold angleDiffTo.
  rewrite (atan2_right 0 10) by lra.
  replace (0 / 10) with 0 by field. rewrite atan_0.
  rewrite atan2_right by lra.
  replace ((y t - 0) / (x t - 0)) with (y t / x t) by (field; lra).
  assert (H0 : 0 <= atan (y t / x t)).
  { destruct Hy as [Hy | <-].
    - left. rewrite <- atan_0. apply atan_increasing.
      apply Rdiv_lt_0_compat; assumption.
    - replace (0 / x t) with 0 by (field; lra). rewrite atan_0. lra. }
  pose proof (atan_bound (y t / x t)) as [_ Hub]. pose proof PI_RGT_0.
  rewrite Rminus_0_r, Rabs_right by lra.
  rewrite ltb_false by lra. reflexivity.
Qed.

Lemma far_ahead :
  let far := targetAt NORMAL RED 10 1 in
  0.1 <= sqrt (10 * 10 + 0 * 0)
  /\ 0.1 < targetDistance 0 0 far
  /\ angleDiffTo 0 0 (JsMath.atan2 0 10) far = atan (1 / 10)
  /\ candidate RED 0 0 (JsMath.atan2 0 10) far.
Proof.
  intros far. pose proof atan_tenth as [Ha0 Ha1]. pose proof PI_RGT_0 as Hpi.
  assert (Df : angleDiffTo 0 0 (JsMath.atan2 0 10) far = atan (1 / 10)).
  { rewrite angleDiffTo_ahead by (cbn; lra). reflexivity. }
  assert (Hfar : 0.1 < targetDistance 0 0 far).
  { unfold targetDistance. cbn [x y far targetAt].
    apply Rlt_le_trans with 10; [lra | apply sqrt_le_bound; lra]. }
  split; [apply sqrt_le_bound; lra |]. split; [exact Hfar |]. split; [exact Df |].
  split; [reflexivity |]. split; [exact Hfar |].
  rewrite Df. unfold ASSIST_CONE_ANGLE. lra.
Qed.

(** C7, counterexample: of two red targets inside the cone of a shot fired
    from the origin along the x axis, the one straight ahead at distance 0.05
    has the least deviation; the aim assist passes over it and bends the shot
    toward the other one. *)
Lemma C7_near_target_passed_over :
  let near := targetAt NORMAL RED (1 / 20) 0 in
  let far := targetAt NORMAL RED 10 1 in
  let baseAngle := JsMath.atan2 0 10 in
  firstBest (inCone RED 0 0 baseAngle) (angleDiffTo 0 0 baseAngle) [near; far] near
  /\ getAimAssistVector RED 0 0 10 0 [near; far] = blendToward 0 0 10 0 far
  /\ blendToward 0 0 10 0 far <> blendToward 0 0 10 0 near.
Proof.
  intros near far baseAngle. subst baseAngle.
  pose proof atan_tenth as [Ha0 Ha1]. pose proof PI_RGT_0 as Hpi.
  assert (Dn : angleDiffTo 0 0 (JsMath.atan2 0 10) near = 0).
  { rewrite angleDiffTo_ahead by (cbn; lra). cbn [x y near targetAt].
    replace (0 / (1 / 20)) with 0 by field. apply atan_0. }
  destruct far_ahead as (Hs & Hfar & Df & Cf). fold far in Hfar, Df, Cf.
  assert (Hnear : targetDistance 0 0 near <= 0.1).
  { unfold targetDistance. cbn [x y near targetAt].
    left. apply sqrt_lt_bound; lra. }
  split; [| split].
  - exists [], [far]. split; [reflexivity |]. split.
    + split; [reflexivity |]. rewrite Dn. unfold ASSIST_CONE_ANGLE. lra.
    + split; [intros t [] |]. intros t [<- | []] _. rewrite Dn, Df. lra.
  - destruct (aim_search RED 0 0 10 0 [near; far]) as [[Hnone _] | (b & Hb & E)].
    + exfalso. apply (Hnone far); [right; left; reflexivity | exact Cf].
    + assert (Eb : b = far).
      { destruct Hb as (l1 & l2 & El & (_ & Pd & _) & _).
        assert (Hin : In b [near; far]) by (rewrite El; apply in_elt).
        destruct Hin as [<- | [<- | []]]; [exfalso; lra | reflexivity]. }
      subst b. exact (proj1 (aim_taken RED 0 0 10 0 [near; far] far Hs Hfar E)).
  - intros E. apply (f_equal av_vy) in E. revert E.
    unfold blendToward, ASSIST_STRENGTH. cbn [av_vy x y near far targetAt].
    set (speed := sqrt (10 * 10 + 0 * 0)) in *.
    set (dn := sqrt ((1 / 20 - 0) * (1 / 20 - 0) + (0 - 0) * (0 - 0))).
    set (df := sqrt ((10 - 0) * (10 - 0) + (1 - 0) * (1 - 0))).
    assert (Hdf : 0 < df) by (apply sqrt_lt_R0; lra).
    assert (Hy : 0 < 0 + ((1 - 0) / df * speed - 0) * 0.3).
    { assert (0 < (1 - 0) / df * speed); [| lra].
      apply Rmult_lt_0_compat; [apply Rdiv_lt_0_compat; lra | lra]. }
    set (nyf := 0 + ((1 - 0) / df * speed - 0) * 0.3) in *.
    set (nxf := 10 + ((10 - 0) / df * speed - 10) * 0.3).
    assert (Hn : 0 < sqrt (nxf * nxf + nyf * nyf)).
    { apply sqrt_lt_R0. pose proof (Rle_0_sqr nxf) as H. unfold Rsqr in H. nra. }
    replace (0 + ((0 - 0) / dn * speed - 0) * 0.3) with 0
      by (unfold Rdiv; ring).
    intros E.
    assert (0 < nyf / sqrt (nxf * nxf + nyf * nyf) * speed).
    { apply Rmult_lt_0_compat; [apply Rdiv_lt_0_compat; assumption | lra]. }
    rewrite E in H. unfold Rdiv in H. rewrite Rmult_0_l, Rmult_0_l in H. lra.
Qed.

Lemma C7_aim_assist_witness :
  let far := targetAt NORMAL RED 10 1 in
  let out := getAimAssistVector RED 0 0 10 0 [far] in
  assisted out = true /\ aimSpeed out = sqrt (10 * 10 + 0 * 0).
Proof.
  intros far out.
  destruct (C7_aim_assist RED 0 0 10 0 [far]) as (_ & _ & H3 & H4).
  destruct far_ahead as (Hs & _ & _ & Cf).
  split; [| exact H4].
  destruct (H3 Hs) as (b & _ & _ & A); [| exact A].
  exists far. split; [left; reflexivity | exact Cf].
Defined.


(** ** The scenario of the specification *)

Lemma sqrt_vertical (a : R) : sqrt (0 * 0 + a * a) = Rabs a.
Proof. replace (0 * 0 + a * a) with (Rsqr a) by (unfold Rsqr; ring). apply sqrt_Rsqr_abs. Qed.

(** A shot straight up at a target of the selected colour straight above
    the shooter is left as it is by the aim assist, apart from the flag. *)
Lemma aim_straight_up (c : ColorType) (sx sy : R) (t : Target) :
  color t = c -> x t = sx -> y t < sy - 1 ->
  getAimAssistVector c sx sy 0 (-10) [t] = mkAim 0 (-10) true.
Proof.
  intros Hc Hx Hy. pose proof PI_RGT_0 as Hpi.
  assert (Hs : sqrt (0 * 0 + -10 * -10) = 10).
  { rewrite sqrt_vertical, Rabs_left by lra. lra. }
  assert (Hd : targetDistance sx sy t = sy - y t).
  { unfold targetDistance. rewrite Hx.
    replace ((sx - sx) * (sx - sx)) with (0 * 0) by ring.
    rewrite sqrt_vertical, Rabs_left by lra. lra. }
  assert (Ha : angleDiffTo sx sy (JsMath.atan2 (-10) 0) t = 0).
  { unfold angleDiffTo, JsMath.atan2. rewrite Hx.
    replace (sx - sx) with 0 by ring.
    rewrite !(ltb_false 0 0) by lra.
    rewrite (ltb_false 0 (-10)), (ltb_true (-10) 0) by lra.
    rewrite (ltb_false 0 (y t - sy)), (ltb_true (y t - sy) 0) by lra.
    replace (- (PI / 2) - - (PI / 2)) with 0 by ring.
    rewrite Rabs_R0, ltb_false by lra. reflexivity. }
  assert (Hcand : candidate c sx sy (JsMath.atan2 (-10) 0) t).
  { split; [exact Hc |]. split; [rewrite Hd; lra |].
    rewrite Ha. unfold ASSIST_CONE_ANGLE. lra. }
  destruct (aim_search c sx sy 0 (-10) [t]) as [[Hnone _] | (b & Hb & E)].
  { exfalso. apply (Hnone t); [left; reflexivity | exact Hcand]. }
  assert (Eb : b = t).
  { destruct Hb as (l1 & l2 & El & _).
    assert (Hin : In b [t]) by (rewrite El; apply in_elt).
    destruct Hin as [<- | []]. reflexivity. }
  subst b.
  rewrite (proj1 (aim_taken c sx sy 0 (-10) [t] t ltac:(rewrite Hs; lra)
                    ltac:(rewrite Hd; lra) E)).
  unfold blendToward, ASSIST_STRENGTH. fold (targetDistance sx sy t).
  rewrite Hs, Hd, Hx.
  replace (0 + ((sx - sx) / (sy - y t) * 10 - 0) * 0.3) with 0 by (field; lra).
  replace (-10 + ((y t - sy) / (sy - y t) * 10 - -10) * 0.3) with (-10) by (field; lra).
  rewrite Hs. f_equal; field.
Qed.

Lemma scenario_shooter :
  shooterX (mkDimensions 400 800) = 200 /\ shooterY (mkDimensions 400 800) = 680.
Proof.
  unfold shooterX, shooterY, GAME_CONFIG.CONTROLS_HEIGHT. cbn [width height]. split; lra.
Qed.

Lemma scenario_rawVelocity : rawVelocity (mkDimensions 400 800) 200 300 = (0, -10).
Proof.
  unfold rawVelocity. destruct scenario_shooter as [-> ->].
  replace (200 - 200) with 0 by ring.
  rewrite sqrt_vertical, Rabs_left by lra.
  unfold GAME_CONFIG.PROJECTILE_SPEED. f_equal; field.
Qed.


(** The shot of the scenario: a click on the target at time 1000 puts a RED
    projectile at (200, 680) with velocity (0, -10) into the first slot. *)
Lemma scenario_shot :
  let w1 := exec (shoot (props := exampleProps MEDIUM) 1000 200 300) scenarioWorld in
  projectilePool (gameState w1) !! 0%nat = Some (scenarioShot 680)
  /\ targets (gameState w1) = [targetAt STATIONARY RED 200 300]
  /\ score (gameState w1) = 0
  /\ streak (gameState w1) = 0%Z
  /\ level (gameState w1) = 1%Z.
Proof.
  intros w1.
  assert (Hcan : canShoot 1000 200 300 scenarioWorld).
  { destruct scenario_shooter as [Hx Hy].
    split; [discriminate |]. split; [cbn; lra |]. split; [reflexivity |].
    split; [reflexivity |]. split; [cbn; lra |]. split; [cbn; lra |].
    split; [unfold GAME_CONFIG.CONTROLS_HEIGHT; cbn; lra |].
    change (dimensions scenarioWorld) with (mkDimensions 400 800).
    rewrite Hx, Hy. replace (200 - 200) with 0 by ring.
    rewrite sqrt_vertical, Rabs_left; lra. }
  destruct (shoot_fires (props := exampleProps MEDIUM) 1000 200 300 scenarioWorld Hcan)
    as (Hp & _ & _ & Ht & Hsc & Hst & Hl & _).
  fold w1 in Hp, Ht, Hsc, Hst, Hl.
  split; [| split; [exact Ht | split; [exact Hsc | split; [exact Hst | exact Hl]]]].
  rewrite Hp.
  change (dimensions scenarioWorld) with (mkDimensions 400 800).
  rewrite scenario_rawVelocity. destruct scenario_shooter as [-> ->].
  change (targets (gameState scenarioWorld)) with [targetAt STATIONARY RED 200 300].
  change (currentColor (gameState scenarioWorld)) with RED.
  cbn [fst snd].
  rewrite (aim_straight_up RED 200 680 (targetAt STATIONARY RED 200 300))
    by (reflexivity || (cbn; lra)).
  reflexivity.
Qed.

(** * Further properties of the code *)

(** ** Collisions between targets *)

Lemma getMass_pos (t : Target) : 0 < getMass t.
Proof. unfold getMass. repeat destruct (decide _); lra. Qed.

Lemma invMass_movable (t : Target) :
  type t <> STATIONARY -> movable t = true /\ invMass t = 1 / getMass t /\ 0 < invMass t.
Proof.
  intros Hm. pose proof (getMass_pos t) as Hp. unfold movable, invMass.
  rewrite (bool_decide_eq_false_2 _ Hm), (decide_False _ _ Hm).
  split; [reflexivity |]. split; [reflexivity |].
  apply Rdiv_lt_0_compat; lra.
Qed.

Lemma invMass_stationary (t : Target) :
  type t = STATIONARY -> movable t = false /\ invMass t = 0.
Proof.
  intros Hs. unfold movable, invMass.
  rewrite (bool_decide_eq_true_2 _ Hs), (decide_True _ _ Hs). split; reflexivity.
Qed.

Lemma invMass_nonneg (t : Target) : 0 <= invMass t.
Proof.
  destruct (decide (type t = STATIONARY)) as [Hs | Hm].
  - rewrite (proj2 (invMass_stationary t Hs)). lra.
  - left. apply (invMass_movable t Hm).
Qed.

Lemma centreDistance_sqr (t1 t2 : Target) :
  centreDistance t1 t2 * centreDistance t1 t2
  = (x t2 - x t1) * (x t2 - x t1) + (y t2 - y t1) * (y t2 - y t1).
Proof. unfold centreDistance. apply sqrt_sqrt, sumsq_nonneg. Qed.

(** The fields of the two targets after a resolved collision, in closed
    form: [push] is the length of the position correction per unit of
    inverse mass, [J] the impulse. *)
Lemma resolvePair_fields (t1 t2 : Target) :
  colliding t1 t2 ->
  let d := centreDistance t1 t2 in
  let nx := (x t2 - x t1) / d in
  let ny := (y t2 - y t1) / d in
  let total := invMass t1 + invMass t2 in
  let push := (radius t1 + radius t2 - d) * 0.8 / total in
  let van := closingSpeed t1 t2 t1 t2 in
  let J := if JsMath.ltb van 0 then - (1 + 0.9) * van / total else 0 in
  let r := resolvePair t1 t2 in
  (x r.1 = x t1 - nx * push * invMass t1 /\ y r.1 = y t1 - ny * push * invMass t1)
  /\ (x r.2 = x t2 + nx * push * invMass t2 /\ y r.2 = y t2 + ny * push * invMass t2)
  /\ (vx r.1 = vx t1 - J * nx * invMass t1 /\ vy r.1 = vy t1 - J * ny * invMass t1)
  /\ (vx r.2 = vx t2 + J * nx * invMass t2 /\ vy r.2 = vy t2 + J * ny * invMass t2).
Proof.
  intros (Hov & Hd & Hmov) d nx ny total push van J r.
  pose proof (centreDistance_sqr t1 t2) as Hsq. fold d in Hov, Hd, Hsq.
  pose proof (invMass_nonneg t1) as Hn1. pose proof (invMass_nonneg t2) as Hn2.
  assert (Htot : 0 < total).
  { unfold total. destruct Hmov as [Hm | Hm];
      pose proof (proj2 (proj2 (invMass_movable _ Hm))); lra. }
  subst r. unfold resolvePair.
  fold (centreDistance t1 t2). fold d. rewrite <- Hsq.
  rewrite (ltb_true (d * d)) by nra.
  rewrite (ltb_false d 0.1) by exact Hd.
  fold total. rewrite (ltb_true 0 total) by exact Htot.
  fold nx ny.
  change ((vx t2 - vx t1) * nx + (vy t2 - vy t1) * ny) with van.
  assert (Hd0 : d <> 0) by lra. assert (Ht0 : total <> 0) by lra.
  assert (E : forall t, movable t = false -> invMass t = 0).
  { intros t Ht. unfold movable in Ht. apply negb_false_iff, bool_decide_eq_true_1 in Ht.
    apply (invMass_stationary t Ht). }
  assert (K : forall a b t, movable (set_y a (set_x b t)) = movable t) by reflexivity.
  subst J.
  destruct (movable t1) eqn:M1; destruct (movable t2) eqn:M2;
    rewrite ?(E t1 M1), ?(E t2 M2) in *;
    try (exfalso; unfold total in Htot; rewrite ?(E t1 M1), ?(E t2 M2) in Htot; lra);
    destruct (JsMath.ltb van 0);
    rewrite ?K, ?M1, ?M2; cbn [fst snd x y vx vy set_x set_y set_vx set_vy];
    unfold push; repeat split; field; assumption.
Qed.



(** X1: A resolved collision corrects 80% of the overlap: afterwards the
    centres are apart by the old distance plus 0.8 times the old overlap,
    whatever the masses, and also when one of the two is STATIONARY. *)
Theorem resolvePair_corrects_overlap (t1 t2 : Target) :
  colliding t1 t2 ->
  let r := resolvePair t1 t2 in
  centreDistance r.1 r.2
  = centreDistance t1 t2 + 0.8 * (radius t1 + radius t2 - centreDistance t1 t2).
Proof.
  intros Hc r.
  destruct (resolvePair_fields t1 t2 Hc) as ((X1 & Y1) & (X2 & Y2) & _).
  destruct Hc as (Hov & Hd & Hmov).
  pose proof (centreDistance_sqr t1 t2) as Hsq.
  pose proof (invMass_nonneg t1) as Hn1. pose proof (invMass_nonneg t2) as Hn2.
  assert (Htot : 0 < invMass t1 + invMass t2).
  { destruct Hmov as [Hm | Hm]; pose proof (proj2 (proj2 (invMass_movable _ Hm))); lra. }
  fold r in X1, Y1, X2, Y2. unfold centreDistance at 1. rewrite X1, Y1, X2, Y2.
  set (d := centreDistance t1 t2) in *.
  set (ov := radius t1 + radius t2 - d) in *.
  set (k := d + 0.8 * ov).
  assert (Hk : 0 <= k) by (unfold k, ov; lra).
  match goal with |- sqrt ?v = _ => replace v with (k * k) end.
  - apply sqrt_square. exact Hk.
  - transitivity ((k / d) * (k / d) * (d * d)); [field; lra |].
    rewrite Hsq. unfold k. field. lra.
Qed.

(** X2: A collision between two targets that can both be moved keeps their
    momentum, with the masses 100 of a boss, 3 of a TOUGH target and 1 of the
    others. *)
Theorem resolvePair_keeps_momentum (t1 t2 : Target) :
  type t1 <> STATIONARY -> type t2 <> STATIONARY ->
  let r := resolvePair t1 t2 in
  momentum r.1 r.2 = momentum t1 t2.
Proof.
  intros M1 M2 r.
  destruct (type_resolvePair t1 t2) as [T1 T2]. fold r in T1, T2.
  assert (G1 : getMass r.1 = getMass t1) by (unfold getMass; rewrite T1; reflexivity).
  assert (G2 : getMass r.2 = getMass t2) by (unfold getMass; rewrite T2; reflexivity).
  unfold momentum. rewrite G1, G2.
  pose proof (getMass_pos t1) as P1. pose proof (getMass_pos t2) as P2.
  destruct (invMass_movable t1 M1) as (Mv1 & I1 & _).
  destruct (invMass_movable t2 M2) as (Mv2 & I2 & _).
  assert (K : forall a b t, movable (set_y a (set_x b t)) = movable t) by reflexivity.
  subst r. unfold resolvePair. fold (centreDistance t1 t2).
  destruct (JsMath.ltb _ (_ * _)); [| reflexivity].
  destruct (JsMath.ltb (centreDistance t1 t2) 0.1) eqn:Hd; [reflexivity |].
  apply ltb_nspec in Hd.
  destruct (JsMath.ltb 0 (invMass t1 + invMass t2)) eqn:Ht; [| reflexivity].
  apply ltb_spec in Ht.
  rewrite Mv1, Mv2.
  destruct (JsMath.ltb _ 0); rewrite ?K, ?Mv1, ?Mv2;
    cbn [fst snd vx vy set_x set_y set_vx set_vy]; [| reflexivity].
  revert Ht. rewrite I1, I2. intros Ht.
  f_equal; field; repeat split; lra.
Qed.


Lemma resolvePair_fixed (t1 t2 : Target) :
  (type t1 = STATIONARY -> (resolvePair t1 t2).1 = t1)
  /\ (type t2 = STATIONARY -> (resolvePair t1 t2).2 = t2).
Proof.
  assert (K : forall a b t, movable (set_y a (set_x b t)) = movable t) by reflexivity.
  split; intros Hs; destruct (invMass_stationary _ Hs) as [Hm _];
    unfold resolvePair;
    repeat match goal with
           | |- context [JsMath.ltb ?a ?b] => destruct (JsMath.ltb a b)
           end;
    rewrite ?Hm; try reflexivity;
    destruct (movable _) eqn:Ho; rewrite ?K, ?Hm, ?Ho; reflexivity.
Qed.


(** ** Walls *)

Lemma wallConstraint_id (width ph : R) (t : Target) :
  insideWalls width ph t -> wallConstraint width ph t = t.
Proof.
  intros [[Hx1 Hx2] Hy]. unfold wallConstraint.
  rewrite (ltb_false (x t - radius t) 0), (ltb_false width (x t + radius t)) by lra.
  destruct (decide (type t = SINE_WAVE)) as [Hs | Hs].
  { rewrite (bool_decide_eq_true_2 _ Hs). reflexivity. }
  destruct (decide (type t = BOSS)) as [Hb | Hb].
  { rewrite (bool_decide_eq_true_2 _ Hb), andb_false_r. reflexivity. }
  rewrite (bool_decide_eq_false_2 _ Hs), (bool_decide_eq_false_2 _ Hb). cbn [negb andb].
  destruct (Hy Hs Hb) as [Hy1 Hy2].
  rewrite (ltb_false (y t - radius t) 0), (ltb_false ph (y t + radius t)) by lra.
  reflexivity.
Qed.

(** X5: In an arena at least as wide and as high as the target, the wall
    constraint puts the target inside the walls (SINE_WAVE targets and the
    boss horizontally only), and a target that is inside is left as it is; so
    applying the constraint twice is the same as applying it once. *)
Theorem wallConstraint_inside (width ph : R) (t : Target) :
  2 * radius t <= width -> 2 * radius t <= ph ->
  let t' := wallConstraint width ph t in
  insideWalls width ph t'
  /\ radius t' = radius t
  /\ wallConstraint width ph t' = t'.
Proof.
  intros Hw Hh t'.
  assert (Hin : insideWalls width ph t' /\ radius t' = radius t).
  { subst t'. unfold wallConstraint, insideWalls.
    repeat match goal with
           | |- context [JsMath.ltb ?a ?b] =>
               let E := fresh "E" in
               destruct (JsMath.ltb a b) eqn:E;
               [apply ltb_spec in E | apply ltb_nspec in E];
               cbn [x y radius type set_x set_y set_vx set_vy] in *
           | |- context [bool_decide ?P] =>
               let E := fresh "E" in
               destruct (bool_decide P) eqn:E;
               [apply bool_decide_eq_true_1 in E | apply bool_decide_eq_false_1 in E];
               cbn [negb andb x y radius type set_x set_y set_vx set_vy] in *
           end;
    (split; [split; [lra | intros; first [contradiction | lra]] | reflexivity]). }
  destruct Hin as [Hin Hr]. split; [exact Hin |]. split; [exact Hr |].
  apply wallConstraint_id. exact Hin.
Qed.

(** ** STATIONARY targets under the collision physics *)

Lemma collidePair_keeps (i j k : nat) (ts : list Target) (t : Target) :
  ts !! k = Some t -> type t = STATIONARY -> collidePair i j ts !! k = Some t.
Proof.
  intros Hk Hs. unfold collidePair.
  destruct (ts !! i) as [t1 |] eqn:Hi; [| exact Hk].
  destruct (ts !! j) as [t2 |] eqn:Hj; [| exact Hk].
  destruct (resolvePair_fixed t1 t2) as [S1 S2].
  destruct (resolvePair t1 t2) as [t1' t2']. cbn [fst snd] in S1, S2.
  destruct (decide (k = j)) as [-> | Hkj].
  - assert (t2 = t) by congruence. subst t2.
    rewrite list_lookup_insert_eq; [rewrite (S2 Hs); reflexivity |].
    rewrite length_insert. apply lookup_lt_Some in Hj. exact Hj.
  - rewrite list_lookup_insert_ne by congruence.
    destruct (decide (k = i)) as [-> | Hki].
    + assert (t1 = t) by congruence. subst t1.
      rewrite list_lookup_insert_eq; [rewrite (S1 Hs); reflexivity |].
      apply lookup_lt_Some in Hi. exact Hi.
    + rewrite list_lookup_insert_ne by congruence. exact Hk.
Qed.

Lemma fold_keeps {I} (f : list Target -> I -> list Target) (l : list I)
    (k : nat) (t : Target) :
  (forall ts i, ts !! k = Some t -> f ts i !! k = Some t) ->
  forall ts, ts !! k = Some t -> fold_left f l ts !! k = Some t.
Proof.
  intros Hf. induction l as [| i l IH]; intros ts Hk; cbn; [exact Hk |].
  apply IH, Hf, Hk.
Qed.

Lemma collideAll_keeps (k : nat) (ts : list Target) (t : Target) :
  ts !! k = Some t -> type t = STATIONARY -> collideAll ts !! k = Some t.
Proof.
  intros Hk Hs. unfold collideAll.
  apply fold_keeps; [| exact Hk]. intros ts' i Hk'.
  apply fold_keeps; [| exact Hk']. intros ts'' j Hk''.
  apply collidePair_keeps; assumption.
Qed.


Lemma physicsStep_keeps (width ph : R) (k : nat) (ts : list Target) (t : Target) :
  ts !! k = Some t -> type t = STATIONARY -> insideWalls width ph t ->
  physicsStep width ph ts !! k = Some t.
Proof.
  intros Hk Hs Hin. unfold physicsStep.
  change (map (wallConstraint width ph) (collideAll ts))
    with (wallConstraint width ph <$> collideAll ts).
  rewrite list_lookup_fmap, (collideAll_keeps k ts t Hk Hs). cbn.
  rewrite (wallConstraint_id width ph t Hin). reflexivity.
Qed.

(** X6: The collision physics of a tick, both of its passes, leaves a
    STATIONARY target that is inside the walls exactly as it is, whatever
    runs into it. *)
Theorem collisionPhysics_stationary (width ph : R) (w : World) (k : nat) (t : Target) :
  targets (gameState w) !! k = Some t ->
  type t = STATIONARY ->
  insideWalls width ph t ->
  targets (gameState (exec (collisionPhysics width ph) w)) !! k = Some t.
Proof.
  intros Hk Hs Hin.
  change (targets (gameState (exec (collisionPhysics width ph) w)))
    with (physicsStep width ph (physicsStep width ph (targets (gameState w)))).
  apply physicsStep_keeps; [| exact Hs | exact Hin].
  apply physicsStep_keeps; assumption.
Qed.


(** ** The further properties at concrete inputs *)

Lemma pair_colliding : colliding leftTarget rightTarget.
Proof.
  assert (E : centreDistance leftTarget rightTarget = 50).
  { unfold centreDistance. cbn [x y leftTarget rightTarget targetAt].
    replace ((150 - 100) * (150 - 100) + (300 - 300) * (300 - 300)) with (50 * 50) by ring.
    apply sqrt_square. lra. }
  unfold colliding. rewrite E. cbn [radius leftTarget rightTarget targetAt].
  unfold GAME_CONFIG.TARGET_RADIUS. split; [lra |]. split; [lra |]. left. discriminate.
Qed.

Lemma resolvePair_corrects_overlap_witness :
  colliding leftTarget rightTarget
  /\ centreDistance (resolvePair leftTarget rightTarget).1 (resolvePair leftTarget rightTarget).2
     = centreDistance leftTarget rightTarget
       + 0.8 * (radius leftTarget + radius rightTarget
                - centreDistance leftTarget rightTarget).
Proof.
  split; [exact pair_colliding |].
  exact (resolvePair_corrects_overlap leftTarget rightTarget pair_colliding).
Defined.

Lemma resolvePair_keeps_momentum_witness :
  momentum (resolvePair leftTarget rightTarget).1 (resolvePair leftTarget rightTarget).2
  = momentum leftTarget rightTarget.
Proof.
  apply (resolvePair_keeps_momentum leftTarget rightTarget); discriminate.
Defined.


Lemma wallConstraint_inside_witness :
  insideWalls 400 700 (wallConstraint 400 700 (targetAt NORMAL RED (-5) 10)).
Proof.
  apply (wallConstraint_inside 400 700 (targetAt NORMAL RED (-5) 10));
    cbn [radius targetAt]; unfold GAME_CONFIG.TARGET_RADIUS; lra.
Defined.

Lemma scenario_target_inside :
  insideWalls 400 700 (targetAt STATIONARY RED 200 300).
Proof.
  unfold insideWalls. cbn [x y radius type targetAt]. unfold GAME_CONFIG.TARGET_RADIUS.
  split; [lra |]. intros _ _. lra.
Qed.

Lemma collisionPhysics_stationary_witness :
  targets (gameState (exec (collisionPhysics 400 700) scenarioWorld)) !! 0%nat
  = Some (targetAt STATIONARY RED 200 300).
Proof.
  apply (collisionPhysics_stationary 400 700 scenarioWorld 0 (targetAt STATIONARY RED 200 300));
    [reflexivity | reflexivity | exact scenario_target_inside].
Defined.

Lemma shoot_blocked_witness :
  exec (shoot (props := exampleProps MEDIUM) 100 200 300) scenarioWorld = scenarioWorld
  /\ exec (shoot (props := exampleProps MEDIUM) 1000 200 680) scenarioWorld
     = set_pulseTimers [150] (set_shooterPulse true scenarioWorld).
Proof.
  split.
  - apply (proj1 (shoot_blocked (props := exampleProps MEDIUM) 100 200 300 scenarioWorld)).
    right. left. cbn [lastShotTime scenarioWorld arenaWorld set_gameState set_dimensions
                      initialWorld]. lra.
  - apply (proj2 (shoot_blocked (props := exampleProps MEDIUM) 1000 200 680 scenarioWorld)).
    + discriminate.
    + cbn. lra.
    + reflexivity.
    + reflexivity.
    + cbn. lra.
    + cbn. lra.
    + unfold GAME_CONFIG.CONTROLS_HEIGHT. cbn. lra.
    + change (dimensions scenarioWorld) with (mkDimensions 400 800).
      destruct scenario_shooter as [-> ->].
      replace (200 - 200) with 0 by ring. replace (680 - 680) with 0 by ring.
      rewrite sqrt_vertical, Rabs_R0. lra.
Defined.

Lemma reachable_flags_witness :
  isGameOver (gameState (run (props := exampleProps MEDIUM) [ColorSelect BLUE]
                             (initialWorld (props := exampleProps MEDIUM)))) = false.
Proof.
  apply (reachable_flags (props := exampleProps MEDIUM)).
  exists [ColorSelect BLUE]. reflexivity.
Defined.

Lemma ending_freezes_witness :
  score (gameState (exec (handle (props := exampleProps MEDIUM) (Shoot 1000 200 300))
                         endingWorld))
  = score (gameState endingWorld).
Proof.
  apply (ending_freezes (props := exampleProps MEDIUM) (Shoot 1000 200 300) endingWorld).
  reflexivity.
Defined.


Lemma scenario_canShoot :
  canShoot 1000 200 300 scenarioWorld.
Proof.
  destruct scenario_shooter as [Hx Hy].
  split; [discriminate |]. split; [cbn; lra |]. split; [reflexivity |].
  split; [reflexivity |]. split; [cbn; lra |]. split; [cbn; lra |].
  split; [unfold GAME_CONFIG.CONTROLS_HEIGHT; cbn; lra |].
  change (dimensions scenarioWorld) with (mkDimensions 400 800).
  rewrite Hx, Hy. replace (200 - 200) with 0 by ring.
  rewrite sqrt_vertical, Rabs_left; lra.
Qed.

Lemma shot_is_fired_witness :
  shotsFired (sessionStats (exec (shoot (props := exampleProps MEDIUM) 1000 200 300)
                                 scenarioWorld))
  = (shotsFired (sessionStats scenarioWorld) + 1)%Z.
Proof.
  apply (shot_is_fired (props := exampleProps MEDIUM) 1000 200 300 scenarioWorld
           scenario_canShoot).
Defined.

Lemma matching_hit_scores_witness :
  let target := targetAt NORMAL RED 200 300 in
  let w := arenaWorld MEDIUM [target] in
  streak (gameState (exec (resolveHit (props := exampleProps MEDIUM)
                                      (shotAt RED 200 320) 0 target) w))
  = (streak (gameState w) + 1)%Z.
Proof.
  intros target w.
  apply (matching_hit_scores (props := exampleProps MEDIUM) (shotAt RED 200 320) 0 target w);
    [reflexivity | discriminate | discriminate].
Defined.

Lemma armour_hit_witness :
  let target := set_health 3 (targetAt TOUGH RED 200 300) in
  let w := arenaWorld MEDIUM [target] in
  targets (gameState (exec (resolveHit (props := exampleProps MEDIUM)
                                       (shotAt RED 200 320) 0 target) w))
  = <[0%nat := set_health (health target - 1) target]> (targets (gameState w)).
Proof.
  intros target w.
  apply (armour_hit (props := exampleProps MEDIUM) (shotAt RED 200 320) 0 target w);
    [reflexivity | left; reflexivity | cbn; lra].
Defined.

Lemma scenario_first_step_misses :
  let w := exec (shoot (props := exampleProps MEDIUM) 1000 200 300) scenarioWorld in
  let moved :=
    set_pj_y (pj_y (scenarioShot 680) + pj_vy (scenarioShot 680) * 1)
             (set_pj_x (pj_x (scenarioShot 680) + pj_vx (scenarioShot 680) * 1)
                       (scenarioShot 680)) in
  forall j t, targets (gameState w) !! j = Some t -> inHitRange moved t = false.
Proof.
  intros w moved j t Hj.
  destruct scenario_shot as (_ & Ht & _). fold w in Ht. rewrite Ht in Hj.
  destruct j as [| j]; [| destruct j; discriminate Hj].
  injection Hj as <-.
  unfold inHitRange, hitDistance. apply ltb_false.
  cbn [pj_x pj_y pj_vx pj_vy set_pj_x set_pj_y moved scenarioShot x y radius targetAt].
  unfold GAME_CONFIG.TARGET_RADIUS.
  apply Rle_trans with 100; [lra |]. apply sqrt_le_bound; [lra |].
  assert (H : 0 <= (200 + 0 * 1 - 200) * (200 + 0 * 1 - 200)) by apply Rle_0_sqr.
  nra.
Qed.

Lemma projectile_flies_witness :
  let w := exec (shoot (props := exampleProps MEDIUM) 1000 200 300) scenarioWorld in
  exists pool cur n slot0,
    exec (projectileStep (props := exampleProps MEDIUM) 1 400 800 0) w
    = withParticles pool cur n
        (set_gameState
           (set_projectilePool (<[0%nat := slot0]> (projectilePool (gameState w)))
                               (gameState w)) w).
Proof.
  intros w.
  destruct (proj2 (projectile_flies (props := exampleProps MEDIUM) 1 400 800 0 w
                     (scenarioShot 680) (proj1 scenario_shot))
                  eq_refl scenario_first_step_misses)
    as (pool & cur & n & E).
  exists pool, cur, n. eexists. exact E.
Defined.


Lemma blue_is_hit :
  let blue := targetAt NORMAL BLUE 200 300 in
  findHit (shotAt RED 200 320) (targets (gameState (arenaWorld MEDIUM [blue])))
          (length (targets (gameState (arenaWorld MEDIUM [blue])))) = Some 0%nat.
Proof.
  intros blue.
  apply findHit_complete with (t := blue).
  - cbn. lia.
  - reflexivity.
  - apply inHitRange_vertical. replace (320 - 300) with 20 by lra.
    rewrite Rabs_pos_eq; lra.
  - intros j t' Hj. cbn in Hj. lia.
Qed.

Lemma two_mismatches_two_handoffs_witness :
  let blue := targetAt NORMAL BLUE 200 300 in
  let shot := shotAt RED 200 320 in
  let w := arenaWorld MEDIUM [blue] in
  handoffTimers
    (exec (hitOrLeave (props := exampleProps MEDIUM) shot 0 400 800
           >> hitOrLeave (props := exampleProps MEDIUM) shot 1 400 800) w)
  = handoffTimers w ++ [1000; 1000].
Proof.
  intros blue shot w.
  apply (two_mismatches_two_handoffs (props := exampleProps MEDIUM)
           shot shot 0 1 400 800 w 0 0 blue blue);
    first [exact blue_is_hit | reflexivity | discriminate].
Defined.

Lemma fresh_boss_withstands_hit_witness :
  exists kept boss,
    targets (gameState (exec (bossTrigger (props := exampleProps MEDIUM) 400) bossDueWorld))
    = kept ++ [boss]
    /\ type boss = BOSS
    /\ 10 <= health boss.
Proof.
  destruct (fresh_boss_withstands_hit (props := exampleProps MEDIUM) 400 bossDueWorld
              (shotAt RED 200 320))
    as (kept & boss & T & Ty & _ & _ & _ & _ & H & _).
  - reflexivity.
  - unfold pointsForNextLevel, GAME_CONFIG.POINTS_PER_LEVEL. cbn. lra.
  - cbn. lia.
  - exists kept, boss. split; [exact T |]. split; [exact Ty | exact H].
Defined.


Lemma progress_bar_and_trigger_witness :
  levelProgress (gameState scenarioWorld) = 100
  <-> pointsForNextLevel (gameState scenarioWorld)
      <= scoreSinceLastBoss (gameState scenarioWorld).
Proof.
  apply (progress_bar_and_trigger (props := exampleProps MEDIUM) 400 scenarioWorld).
  cbn. lia.
Defined.

Lemma achievement_bar_full_iff_condition_witness :
  progress firstAchievement INITIAL_STATS <= 100.
Proof.
  apply (achievement_bar_full_iff_condition firstAchievement INITIAL_STATS).
  left. reflexivity.
Defined.

Lemma hydrate_defs (ids : list string) :
  Forall (fun ach => In (ach_def ach) ACHIEVEMENT_DEFINITIONS) (hydrate ids).
Proof.
  unfold hydrate. apply Forall_forall. intros ach Hin.
  apply list_elem_of_In, in_map_iff in Hin. destruct Hin as (def & <- & Hin). exact Hin.
Qed.

Lemma locked_bar_not_full_witness :
  let ach := mkAchievement firstAchievement false in
  progress (ach_def ach)
           (app_stats (handleGameOver 0 (initialStats (props := exampleProps MEDIUM)) freshApp))
  < 100.
Proof.
  intros ach.
  apply (locked_bar_not_full 0 (initialStats (props := exampleProps MEDIUM)) freshApp ach
           (hydrate_defs [])).
  - left. reflexivity.
  - reflexivity.
Defined.




(** * The scenario and the mismatch, frame by frame *)

(** ** A frame with one target at rest and one projectile in flight *)

Section Flight.
Context `{props : GameProps}.

Lemma moveTarget_resting (tf time : R) (t : Target) : resting t -> moveTarget tf time t = t.
Proof.
  intros (Hx & Hy & Hr & _ & _ & Hs).
  destruct t as [i0 x0 y0 vx0 vy0 c0 r0 rot0 rs0 ty0 sh0 h0 mh0 cs0 iy0 to0 st0].
  cbn in *. subst. unfold moveTarget. cbn.
  destruct ty0; try (exfalso; apply Hs; reflexivity);
    unfold set_rotation, set_y, set_x; cbn; f_equal; ring.
Qed.

Lemma animate_phases (t : R) (w : World) :
  lastTime w <> 0 ->
  isGameOver (gameState w) = false ->
  isEnding (gameState w) = false ->
  tutorialStep w = 0%Z ->
  width (dimensions w) <> 0 ->
  height (dimensions w) <> 0 ->
  let dt := t - lastTime w in
  let tf := timeFactorOf dt in
  let W := width (dimensions w) in
  let H := height (dimensions w) in
  let ph := H - GAME_CONFIG.CONTROLS_HEIGHT in
  exec (animate t) w
  = exec (projectileUpdate tf W H)
      (exec (collisionPhysics W ph)
         (exec (physicsAndLogic dt tf ph)
            (exec (spawning dt W ph)
               (exec (shakeTick dt)
                  (exec (modState (fun s => set_time (time s + dt) s))
                     (exec (updateParticles tf) (set_lastTime t w))))))).
Proof.
  intros Hl Hg He Ht Hw Hh dt tf W H ph. unfold animate.
  rewrite exec_bind. cbn [getW fst]. change (exec getW w) with w.
  rewrite (eqb_false _ _ Hl). cbn [when].
  rewrite exec_bind. change (exec (ret tt) w) with w. cbv beta.
  rewrite exec_bind. cbn [getW fst]. change (exec getW w) with w.
  rewrite exec_bind. rewrite Hg, He. cbn [andb negb].
  change (exec (modify (set_lastTime t)) w) with (set_lastTime t w).
  rewrite Ht. cbn [Z.ltb Z.compare negb when].
  rewrite (eqb_false _ _ Hw), (eqb_false _ _ Hh). cbn [orb].
  repeat (rewrite exec_bind; cbv beta).
  reflexivity.
Qed.


Lemma spawning_quiet (dt width ph : R) (w : World) :
  bossActive (gameState w) = false ->
  scoreSinceLastBoss (gameState w) <= pointsForNextLevel (gameState w) ->
  spawnTimer w + dt <= nextSpawnDelay (gameState w) ->
  exec (spawning dt width ph) w = set_spawnTimer (spawnTimer w + dt) w.
Proof.
  intros Hb Hs Hd. unfold spawning. rewrite exec_bind.
  unfold exec at 2. rewrite bossTrigger_idle by (right; exact Hs). cbn [snd fst].
  unfold ordinarySpawn. rewrite exec_bind.
  change (exec (modify (fun w0 => set_spawnTimer (spawnTimer w0 + dt) w0)) w)
    with (set_spawnTimer (spawnTimer w + dt) w).
  cbv beta. rewrite exec_bind. cbn [getW fst].
  change (exec getW ?W) with W.
  cbn [gameState set_spawnTimer spawnTimer]. rewrite Hb.
  rewrite ltb_false by exact Hd. reflexivity.
Qed.

Lemma physicsAndLogic_resting (dt tf ph : R) (w : World) (target : Target) :
  targets (gameState w) = [target] ->
  resting target ->
  exists sm ms,
    exec (physicsAndLogic dt tf ph) w
    = set_gameState (set_speedMultiplier sm (set_lastScoreMilestone ms (gameState w))) w.
Proof.
  intros Ht Hrest. unfold physicsAndLogic. rewrite exec_bind.
  match goal with |- context [exec (modState ?f) w] =>
    change (exec (modState f) w) with (set_gameState (f (gameState w)) w);
    set (s1 := f (gameState w))
  end.
  cbv beta. rewrite exec_bind. cbn [getW fst]. change (exec getW ?W) with W.
  assert (Ht1 : targets s1 = [target]) by (subst s1; cbn; exact Ht).
  cbn [gameState set_gameState]. rewrite Ht1. cbn [length].
  unfold forN, forFrom. rewrite exec_bind. change (exec (ret tt) ?W) with W.
  unfold targetLogic. rewrite exec_bind. cbn [getW fst]. change (exec getW ?W) with W.
  cbn [gameState set_gameState]. rewrite Ht1. cbn [lookup list_lookup].
  destruct Hrest as (Hx & Hy & Hr & Hb & Hc & Hs).
  assert (Hm : forall time, moveTarget tf time target = target).
  { intros time. apply moveTarget_resting. repeat split; assumption. }
  assert (E : match type target with
              | COLOR_SHIFT => colorShiftAbility dt target
              | BOSS =>
                  let* target0 := colorShiftAbility dt (bossConstraints ph target) in
                  let* target1 := summonAbility dt target0 in
                  ret (enrage target1)
              | _ => ret target
              end = ret target).
  { destruct (type target); try reflexivity; exfalso; auto. }
  rewrite E. rewrite exec_bind. change (exec (ret target) ?W) with W.
  cbn [ret fst]. rewrite exec_bind. cbn [getW fst]. change (exec getW ?W) with W.
  rewrite Hm.
  match goal with |- context [exec (modState ?f) ?W] =>
    change (exec (modState f) W) with (set_gameState (f (gameState W)) W)
  end.
  cbn [gameState set_gameState]. rewrite Ht1. cbn [insert list_insert].
  exists (speedMultiplier s1), (lastScoreMilestone s1). subst s1. clear Ht1.
  destruct w as [g ? ? ? ? ? ? ? ? ? ?]. destruct g. cbn in Ht |- *. subst.
  reflexivity.
Qed.

Lemma collisionPhysics_single (width ph : R) (w : World) (target : Target) :
  targets (gameState w) = [target] ->
  insideWalls width ph target ->
  exec (collisionPhysics width ph) w = w.
Proof.
  intros Ht Hin.
  change (exec (collisionPhysics width ph) w)
    with (set_gameState
            (set_targets (physicsStep width ph (physicsStep width ph (targets (gameState w))))
                         (gameState w)) w).
  rewrite Ht.
  assert (E : physicsStep width ph [target] = [target]).
  { unfold physicsStep, collideAll. cbn. rewrite (wallConstraint_id width ph target Hin).
    reflexivity. }
  rewrite !E.
  destruct w as [g ? ? ? ? ? ? ? ? ? ?]. destruct g. cbn in Ht |- *. subst. reflexivity.
Qed.

(** The projectile loop when the projectile of slot 0 is the only one in
    flight: it moves, may leave a particle of its trail, and is scanned. *)
Lemma projectileUpdate_single (tf width height : R) (w : World) (proj : Projectile) :
  projectilePool (gameState w) !! 0%nat = Some proj ->
  pj_active proj = true ->
  (forall i p, i <> 0%nat -> projectilePool (gameState w) !! i = Some p ->
               pj_active p = false) ->
  exists pool cur n,
    length pool = length (particlePool (gameState w))
    /\ exec (projectileUpdate tf width height) w
       = exec (hitOrLeave (movedBy tf proj) 0 width height)
           (withParticles pool cur n
              (set_gameState
                 (set_projectilePool (<[0%nat := movedBy tf proj]> (projectilePool (gameState w)))
                                     (gameState w)) w)).
Proof.
  intros H0 Ha Hothers.
  unfold projectileUpdate. rewrite exec_bind. cbn [getW fst]. change (exec getW w) with w.
  assert (Hlen : (0 < length (projectilePool (gameState w)))%nat)
    by (apply lookup_lt_Some in H0; exact H0).
  destruct (length (projectilePool (gameState w))) as [| n] eqn:En; [lia |].
  unfold forN. cbn [forFrom]. rewrite exec_bind.
  unfold projectileStep at 2. rewrite exec_bind. cbn [getW fst]. change (exec getW w) with w.
  rewrite H0, Ha. cbn [negb].
  fold (movedBy tf proj).
  repeat (rewrite exec_bind; cbv beta).
  match goal with |- context [exec (modState ?f) w] =>
    change (exec (modState f) w) with (set_gameState (f (gameState w)) w);
    set (w0 := set_gameState (f (gameState w)) w)
  end.
  destruct (visualOnly_random w0) as (a1 & p1 & c1 & n1 & E1 & L1 & _).
  unfold exec at 4. rewrite E1. cbn [fst snd].
  match goal with |- context [exec (when ?b ?m) ?W] =>
    destruct (visualOnly_when b m (visualOnly_spawnParticle _) W)
      as ([] & p2 & c2 & n2 & E2 & L2 & _);
    unfold exec at 3; rewrite E2; cbn [snd]
  end.
  rewrite withParticles_twice.
  exists p2, c2, n2. split.
  { rewrite L2. cbn. rewrite L1. reflexivity. }
  apply forFrom_idle. intros i p Hi Hp.
  apply (Hothers i p); [lia |].
  match type of Hp with projectilePool (gameState (exec ?m ?W)) !! _ = _ =>
    destruct (hitOrLeave_slots (movedBy tf proj) 0 width height W) as [E | E];
    rewrite E in Hp
  end.
  - cbn in Hp. rewrite list_lookup_insert_ne in Hp by lia. exact Hp.
  - rewrite list_lookup_alter_ne in Hp by lia.
    cbn in Hp. rewrite list_lookup_insert_ne in Hp by lia. exact Hp.
Qed.




(** A quiet frame comes down to the scan of the projectile of slot 0. *)
Lemma quiet_frame (t : R) (target : Target) (proj : Projectile) (w : World) :
  quietFrame t target proj w ->
  exists wm,
    exec (animate t) w
    = exec (hitOrLeave (movedBy (timeFactorOf (t - lastTime w)) proj) 0
              (width (dimensions w)) (height (dimensions w))) wm
    /\ scanBegins t w wm
    /\ length (particlePool (gameState wm)) = length (particlePool (gameState w)).
Proof.
  intros (Q1 & Q2 & Q3 & Q4 & Q5 & Q6 & Q7 & Q8 & Q9 & Q10 & Q11 & Q12 & Q13 & Q14 & Q15).
  rewrite (animate_phases t w Q6 Q2 Q3 Q1 Q4 Q5). cbv zeta.
  set (dt := t - lastTime w). set (tf := timeFactorOf dt).
  set (W := width (dimensions w)). set (H := height (dimensions w)).
  set (w4 := exec (shakeTick dt)
               (exec (modState (fun s => set_time (time s + dt) s))
                  (exec (updateParticles tf) (set_lastTime t w)))).
  rewrite (spawning_quiet dt W (H - GAME_CONFIG.CONTROLS_HEIGHT) w4 Q7 Q8 Q9).
  set (w5 := set_spawnTimer (spawnTimer w4 + dt) w4).
  destruct (physicsAndLogic_resting dt tf (H - GAME_CONFIG.CONTROLS_HEIGHT) w5 target Q10 Q11)
    as (sm & ms & E6).
  rewrite E6.
  set (w6 := set_gameState (set_speedMultiplier sm (set_lastScoreMilestone ms (gameState w5)))
                           w5).
  rewrite (collisionPhysics_single W (H - GAME_CONFIG.CONTROLS_HEIGHT) w6 target Q10 Q12).
  destruct (projectileUpdate_single tf W H w6 proj Q13 Q14 Q15) as (pool & cur & n & L & E7).
  rewrite E7.
  eexists. split; [reflexivity |]. split.
  - split; [exists proj; split; [exact Q13 | reflexivity] |].
    repeat split; reflexivity.
  - cbn. rewrite L. cbn. rewrite length_map. reflexivity.
Qed.



End Flight.

(** ** The scenario of the specification, frame by frame *)



Lemma timeFactor_frame : timeFactorOf 16.667 = 1.
Proof.
  unfold timeFactorOf. replace (16.667 / 16.667) with 1 by (field; lra).
  apply Rmin_left. lra.
Qed.








Lemma deactivate_isEnding (slot : nat) (w : World) :
  isEnding (gameState (exec (deactivate slot) w)) = isEnding (gameState w).
Proof. reflexivity. Qed.





(** ** A mismatch, frame and handoff *)

Lemma shotAt_moved (c : ColorType) (px py : R) :
  movedBy 1 (shotAt c px py) = shotAt c px (py - 10).
Proof. unfold movedBy, shotAt, set_pj_x, set_pj_y. cbn. f_equal; ring. Qed.

Lemma mismatchWorld_quiet :
  quietFrame 1016.667 (targetAt NORMAL BLUE 200 300) (shotAt RED 200 345) mismatchWorld.
Proof.
  unfold quietFrame.
  split; [reflexivity |]. split; [reflexivity |]. split; [reflexivity |].
  split; [cbn; lra |]. split; [cbn; lra |]. split; [cbn; lra |]. split; [reflexivity |].
  split; [unfold pointsForNextLevel, GAME_CONFIG.POINTS_PER_LEVEL; cbn; lra |].
  split; [cbn; lra |]. split; [reflexivity |].
  split; [repeat split; try reflexivity; discriminate |].
  split.
  { unfold insideWalls, GAME_CONFIG.CONTROLS_HEIGHT. cbn [x y radius type targetAt].
    unfold GAME_CONFIG.TARGET_RADIUS. cbn. split; [lra |]. intros _ _. lra. }
  split; [reflexivity |]. split; [reflexivity |].
  intros i p Hi Hlk.
  change (projectilePool (gameState mismatchWorld))
    with (<[0%nat := shotAt RED 200 345]>
            (initialProjectile <$> seq 0 50)) in Hlk.
  rewrite list_lookup_insert_ne in Hlk by congruence.
  rewrite list_lookup_fmap in Hlk.
  destruct (seq 0 50 !! i) as [j |]; [| discriminate]. cbn in Hlk.
  injection Hlk as <-. reflexivity.
Qed.

(** The frame after time 1000 takes the projectile to (200, 335), within
    hit range of the BLUE target: the session is ending. *)
Lemma mismatchWorld_ends :
  isEnding (gameState (exec (animate (props := exampleProps MEDIUM) 1016.667) mismatchWorld))
  = true.
Proof.
  destruct (quiet_frame (props := exampleProps MEDIUM) _ _ _ _ mismatchWorld_quiet)
    as (wm & E & SB & _).
  rewrite E. clear E.
  change (lastTime mismatchWorld) with 1000.
  replace (1016.667 - 1000) with 16.667 by lra.
  rewrite timeFactor_frame, shotAt_moved.
  change (width (dimensions mismatchWorld)) with 400.
  change (height (dimensions mismatchWorld)) with 800.
  destruct SB as (_ & S2 & _).
  set (blue := targetAt NORMAL BLUE 200 300).
  set (shot := shotAt RED 200 (345 - 10)).
  assert (Ht : targets (gameState wm) = [blue]) by (rewrite S2; reflexivity).
  assert (Hr : inHitRange shot blue = true).
  { apply inHitRange_vertical. replace (345 - 10 - 300) with 35 by lra.
    rewrite Rabs_pos_eq; lra. }
  assert (Hfind : findHit shot (targets (gameState wm)) (length (targets (gameState wm)))
                  = Some 0%nat).
  { rewrite Ht. cbn [length findHit lookup list_lookup]. rewrite Hr. reflexivity. }
  assert (Hi : targets (gameState wm) !! 0%nat = Some blue) by (rewrite Ht; reflexivity).
  rewrite (hitOrLeave_hit (props := exampleProps MEDIUM) shot 0 400 800 wm 0 blue Hfind Hi).
  destruct (hit_mismatch (props := exampleProps MEDIUM) shot 0 blue wm) as (_ & He & _);
    [discriminate |].
  rewrite deactivate_isEnding. exact He.
Qed.

Lemma mismatch_handoff_merges_witness :
  let w1 := exec (animate (props := exampleProps MEDIUM) 1016.667) mismatchWorld in
  let wf := run (props := exampleProps MEDIUM) [Animate 1033; Shoot 5000 200 300] w1 in
  let a' := handleGameOver (onGameOverArgs wf).1 (onGameOverArgs wf).2 freshApp in
  isEnding (gameState mismatchWorld) = false
  /\ isEnding (gameState w1) = true
  /\ (1 <= targetsMissed (sessionStats w1))%Z
  /\ onGameOverArgs wf = (JsMath.floor (score (gameState w1)), sessionStats w1)
  /\ gamesPlayed (app_stats a') = (gamesPlayed (app_stats freshApp) + 1)%Z
  /\ app_gameState a' = GAME_OVER.
Proof.
  intros w1 wf a'.
  assert (Hinv : HandoffInv mismatchWorld).
  { unfold HandoffInv. cbn. split; [reflexivity |]. split; [lia |].
    split; [discriminate | lia]. }
  destruct (mismatch_handoff_merges (props := exampleProps MEDIUM) mismatchWorld 1016.667
              [Animate 1033; Shoot 5000 200 300] freshApp
              (or_intror Hinv) eq_refl mismatchWorld_ends)
    as (_ & M & _ & A & _ & _ & _ & G & _ & S).
  split; [reflexivity |]. split; [exact mismatchWorld_ends |].
  split; [exact M |]. split; [exact A |]. split; [exact G | exact S].
Defined.

(** * The music sequencer *)

Section Sequencer.
Import Sound.

Lemma secondsPer16th_pos : 0 < secondsPer16th.
Proof. unfold secondsPer16th, tempo. lra. Qed.

Lemma nextNote_fields (b : Z) (t : R) (m : MusicManager) :
  audioCtx m = true ->
  (0 <= current16thNote m < 16)%Z ->
  let m1 := nextNote (scheduleNote b t m) in
  isPlaying m1 = isPlaying m /\ timerID m1 = timerID m /\ audioCtx m1 = true
  /\ pending m1 = pending m /\ timeouts m1 = timeouts m
  /\ notes m1 = notes m ++ [(b, t)]
  /\ nextNoteTime m1 = nextNoteTime m + secondsPer16th
  /\ current16thNote m1 = ((current16thNote m + 1) mod 16)%Z
  /\ (0 <= current16thNote m1 < 16)%Z.
Proof.
  intros Ha Hb m1. subst m1. unfold nextNote, scheduleNote. rewrite Ha. cbn.
  destruct (Z.eqb_spec (current16thNote m + 1) 16) as [E | E]; cbn.
  - rewrite E. repeat split; try reflexivity; try assumption; lia.
  - rewrite Z.mod_small by lia. repeat split; try reflexivity; try assumption; lia.
Qed.

Lemma scheduleLoop_frame (ct : R) (m : MusicManager) :
  audioCtx m = true ->
  (0 <= current16thNote m < 16)%Z ->
  let m' := scheduleLoop ct m in
  isPlaying m' = isPlaying m /\ timerID m' = timerID m /\ audioCtx m' = true
  /\ pending m' = pending m /\ timeouts m' = timeouts m
  /\ (0 <= current16thNote m' < 16)%Z.
Proof.
  cbv zeta. revert m.
  apply (scheduleLoop_ind ct (fun m m' =>
    audioCtx m = true -> (0 <= current16thNote m < 16)%Z ->
    isPlaying m' = isPlaying m /\ timerID m' = timerID m /\ audioCtx m' = true
    /\ pending m' = pending m /\ timeouts m' = timeouts m
    /\ (0 <= current16thNote m' < 16)%Z)).
  - intros m _ IH Ha Hb.
    destruct (nextNote_fields (current16thNote m) (nextNoteTime m) m Ha Hb)
      as (P1 & P2 & P3 & P4 & P5 & _ & _ & _ & P9).
    destruct (IH P3 P9) as (Q1 & Q2 & Q3 & Q4 & Q5 & Q6).
    rewrite Q1, Q2, Q4, Q5, P1, P2, P4, P5. tauto.
  - intros m _ Ha Hb. tauto.
Qed.

Lemma scheduleLoop_notes (ct : R) (m : MusicManager) :
  audioCtx m = true ->
  (0 <= current16thNote m < 16)%Z ->
  let m' := scheduleLoop ct m in
  exists k : nat,
    notes m' = notes m ++ map (noteAfter m) (seq 0 k)
    /\ nextNoteTime m' = nextNoteTime m + INR k * secondsPer16th
    /\ current16thNote m' = ((current16thNote m + Z.of_nat k) mod 16)%Z
    /\ (forall i, (i < k)%nat ->
          nextNoteTime m + INR i * secondsPer16th < ct + scheduleAheadTime)
    /\ ct + scheduleAheadTime <= nextNoteTime m'.
Proof.
  cbv zeta. revert m.
  apply (scheduleLoop_ind ct (fun m m' =>
    audioCtx m = true -> (0 <= current16thNote m < 16)%Z ->
    exists k : nat,
      notes m' = notes m ++ map (noteAfter m) (seq 0 k)
      /\ nextNoteTime m' = nextNoteTime m + INR k * secondsPer16th
      /\ current16thNote m' = ((current16thNote m + Z.of_nat k) mod 16)%Z
      /\ (forall i, (i < k)%nat ->
            nextNoteTime m + INR i * secondsPer16th < ct + scheduleAheadTime)
      /\ ct + scheduleAheadTime <= nextNoteTime m')).
  - intros m Ht IH Ha Hb.
    destruct (nextNote_fields (current16thNote m) (nextNoteTime m) m Ha Hb)
      as (_ & _ & P3 & _ & _ & P6 & P7 & P8 & P9).
    destruct (IH P3 P9) as (k & Q1 & Q2 & Q3 & Q4 & Q5).
    assert (Hn : forall i, noteAfter (nextNote (scheduleNote (current16thNote m)
                                                  (nextNoteTime m) m)) i
                           = noteAfter m (S i)).
    { intros i. unfold noteAfter. rewrite P7, P8, S_INR, Nat2Z.inj_succ.
      f_equal; [rewrite Zplus_mod_idemp_l; f_equal; lia | ring]. }
    exists (S k). split; [| split; [| split; [| split]]].
    + rewrite Q1, P6, <- app_assoc. f_equal. cbn [seq map app].
      f_equal.
      * unfold noteAfter. cbn [Z.of_nat INR]. rewrite Z.add_0_r, Z.mod_small by lia.
        f_equal. ring.
      * rewrite <- seq_shift, map_map. apply map_ext. exact Hn.
    + rewrite Q2, P7, S_INR. ring.
    + rewrite Q3, P8, Zplus_mod_idemp_l, Nat2Z.inj_succ. f_equal. lia.
    + intros [| i] Hi.
      * unfold JsMath.ltb in Ht. destruct (Rlt_dec _ _); [| discriminate].
        cbn [INR]. lra.
      * specialize (Q4 i ltac:(lia)). rewrite P7 in Q4. rewrite S_INR. lra.
    + exact Q5.
  - intros m Ht Ha Hb. exists 0%nat. cbn [seq map INR Z.of_nat].
    rewrite app_nil_r, Z.add_0_r, Z.mod_small by lia.
    split; [reflexivity |]. split; [ring |]. split; [reflexivity |].
    split; [intros i Hi; lia |].
    unfold JsMath.ltb in Ht. destruct (Rlt_dec _ _); [discriminate | lra].
Qed.

(** X4: One run of the scheduler, however late its timer fired, catches up
    with the clock: it schedules the notes that are due, each one sixteenth
    after the one before and on the next of the sixteen beats, stops at the
    first note that is not due within the next 0.1 s, and arms one timer. *)
Theorem scheduler_catches_up (ct : R) (m : Sound.MusicManager) :
  Sound.isPlaying m = true ->
  Sound.audioCtx m = true ->
  (0 <= Sound.current16thNote m < 16)%Z ->
  let m' := Sound.scheduler ct m in
  exists k : nat,
    Sound.notes m' = Sound.notes m ++ map (Sound.noteAfter m) (seq 0 k)
    /\ Sound.nextNoteTime m' = Sound.nextNoteTime m + INR k * Sound.secondsPer16th
    /\ Sound.current16thNote m' = ((Sound.current16thNote m + Z.of_nat k) mod 16)%Z
    /\ (forall i, (i < k)%nat ->
          Sound.nextNoteTime m + INR i * Sound.secondsPer16th
          < ct + Sound.scheduleAheadTime)
    /\ ct + Sound.scheduleAheadTime <= Sound.nextNoteTime m'
    /\ Sound.timerID m' = Some (S (Sound.timeouts m))
    /\ Sound.pending m' = Sound.pending m ++ [S (Sound.timeouts m)].
Proof.
  intros Hp Ha Hb m'. subst m'. unfold scheduler. rewrite Hp, Ha. cbn [negb orb].
  destruct (scheduleLoop_notes ct m Ha Hb) as (k & Q1 & Q2 & Q3 & Q4 & Q5).
  destruct (scheduleLoop_frame ct m Ha Hb) as (_ & _ & _ & F4 & F5 & _).
  exists k. unfold setTimeout. cbn. rewrite F4, F5. tauto.
Qed.

Lemma increasing_snoc (l : list (Z * R)) (a : Z * R) :
  increasing l -> (forall b, In b l -> snd b < snd a) -> increasing (l ++ [a]).
Proof.
  intros Hl Ha i j x y Hij Hi Hj.
  assert (Hjl : (j < length (l ++ [a]))%nat) by (apply lookup_lt_is_Some; eauto).
  rewrite length_app in Hjl. cbn in Hjl.
  rewrite lookup_app_l in Hi by lia.
  destruct (decide (j < length l)%nat) as [Hlt | Hge].
  - rewrite lookup_app_l in Hj by lia. exact (Hl i j x y Hij Hi Hj).
  - rewrite lookup_app_r in Hj by lia.
    replace (j - length l)%nat with 0%nat in Hj by lia. cbn in Hj.
    injection Hj as <-. apply Ha. apply list_elem_of_In.
    apply (list_elem_of_lookup_2 _ i). exact Hi.
Qed.

Lemma scheduleLoop_sorted (ct : R) (m : MusicManager) :
  audioCtx m = true ->
  (0 <= current16thNote m < 16)%Z ->
  increasing (notes m) ->
  (forall a, In a (notes m) -> snd a < nextNoteTime m) ->
  (forall a, In a (notes m) -> snd a < ct + scheduleAheadTime) ->
  let m' := scheduleLoop ct m in
  increasing (notes m')
  /\ (forall a, In a (notes m') -> snd a < nextNoteTime m')
  /\ (forall a, In a (notes m') -> snd a < ct + scheduleAheadTime).
Proof.
  cbv zeta. revert m.
  apply (scheduleLoop_ind ct (fun m m' =>
    audioCtx m = true -> (0 <= current16thNote m < 16)%Z ->
    increasing (notes m) ->
    (forall a, In a (notes m) -> snd a < nextNoteTime m) ->
    (forall a, In a (notes m) -> snd a < ct + scheduleAheadTime) ->
    increasing (notes m')
    /\ (forall a, In a (notes m') -> snd a < nextNoteTime m')
    /\ (forall a, In a (notes m') -> snd a < ct + scheduleAheadTime))).
  - intros m Ht IH Ha Hb Hinc Hnext Hdue.
    destruct (nextNote_fields (current16thNote m) (nextNoteTime m) m Ha Hb)
      as (_ & _ & P3 & _ & _ & P6 & P7 & _ & P9).
    unfold JsMath.ltb in Ht. destruct (Rlt_dec _ _) as [Hlt |]; [| discriminate].
    pose proof secondsPer16th_pos as Hs.
    apply (IH P3 P9); rewrite P6.
    + apply increasing_snoc; [exact Hinc | exact Hnext].
    + intros a Hin. rewrite P7. apply in_app_or in Hin. destruct Hin as [Hin | [<- | []]].
      * specialize (Hnext a Hin). lra.
      * cbn [snd]. lra.
    + intros a Hin. apply in_app_or in Hin. destruct Hin as [Hin | [<- | []]].
      * exact (Hdue a Hin).
      * exact Hlt.
  - intros m _ _ _ Hinc Hnext Hdue. tauto.
Qed.

Lemma MusicInv_later (now ct : R) (m : MusicManager) :
  now <= ct -> MusicInv now m -> MusicInv ct m.
Proof.
  intros Hle (I1 & I2 & I3 & I4 & I5 & I6).
  repeat split; try assumption; try tauto.
  intros a Hin. specialize (I6 a Hin). lra.
Qed.

Lemma scheduler_inv (ct : R) (m : MusicManager) :
  isPlaying m = true ->
  audioCtx m = true ->
  pending m = [] ->
  (0 <= current16thNote m < 16)%Z ->
  increasing (notes m) ->
  (forall a, In a (notes m) -> snd a < nextNoteTime m) ->
  (forall a, In a (notes m) -> snd a < ct + scheduleAheadTime) ->
  MusicInv ct (scheduler ct m).
Proof.
  intros Hp Ha Hpe Hb Hinc Hnext Hdue.
  destruct (scheduleLoop_frame ct m Ha Hb) as (F1 & _ & F3 & F4 & F5 & F6).
  destruct (scheduleLoop_sorted ct m Ha Hb Hinc Hnext Hdue) as (S1 & S2 & S3).
  unfold scheduler. rewrite Hp, Ha. cbn [negb orb]. unfold setTimeout, MusicInv. cbn.
  rewrite F1, F4, F5, Hp, Hpe.
  split; [exact F6 |]. split; [discriminate |].
  split; [intros _; split; [exact F3 | eexists; split; reflexivity] |].
  tauto.
Qed.

Lemma call_inv (Ctx : bool) (now ct : R) (c : Call) (m : MusicManager) :
  now <= ct -> MusicInv now m -> MusicInv ct (call Ctx ct c m).
Proof.
  intros Hle Hinv. pose proof (MusicInv_later now ct m Hle Hinv) as Hct.
  pose proof Hct as (I1 & I2 & I3 & I4 & I5 & I6).
  destruct c as [isMuted | | h |]; cbn [call].
  - unfold playMusic.
    destruct isMuted; cbn [orb]; [exact Hct |].
    destruct (isPlaying m) eqn:Hp; [exact Hct |].
    assert (Hm1 : MusicInv ct (initAudio Ctx m)
                  /\ isPlaying (initAudio Ctx m) = false
                  /\ pending (initAudio Ctx m) = []).
    { unfold initAudio. destruct (audioCtx m), Ctx; cbn [negb];
        (split; [| split; [exact Hp | exact (I2 eq_refl)]]);
        unfold MusicInv; cbn; rewrite ?Hp; repeat split; try tauto; try discriminate. }
    destruct Hm1 as (Hinv1 & Hp1 & Hpe1).
    pose proof Hinv1 as (J1 & J2 & J3 & J4 & J5 & J6).
    destruct (audioCtx (initAudio Ctx m)) eqn:Ha1; cbn [negb]; [| exact Hinv1].
    apply scheduler_inv; cbn; try tauto; lia.
  - unfold stopMusic. cbn [timerID set_isPlaying].
    destruct (timerID m) as [h |] eqn:Ht.
    + unfold MusicInv. cbn. split; [exact I1 |]. split; [| split; [discriminate | tauto]].
      intros _. destruct (isPlaying m) eqn:Hp.
      * destruct (I3 eq_refl) as (_ & h' & -> & Hh). rewrite ?Ht in Hh. injection Hh as ->.
        rewrite filter_cons, decide_False by (intros H; apply H; reflexivity).
        reflexivity.
      * rewrite (I2 eq_refl). reflexivity.
    + unfold MusicInv. cbn. split; [exact I1 |]. split; [| split; [discriminate | tauto]].
      intros _. destruct (isPlaying m) eqn:Hp.
      * destruct (I3 eq_refl) as (_ & h' & _ & Hh). rewrite ?Ht in Hh. discriminate.
      * exact (I2 eq_refl).
  - destruct (bool_decide (h ∈ pending m)) eqn:Hin; [| exact Hct].
    apply bool_decide_eq_true in Hin.
    destruct (isPlaying m) eqn:Hp;
      [| rewrite (I2 eq_refl) in Hin; apply elem_of_nil in Hin; destruct Hin].
    destruct (I3 eq_refl) as (Ha & h' & Hpe & Hh).
    rewrite Hpe in Hin. apply list_elem_of_singleton in Hin. subst h'.
    apply scheduler_inv; cbn; try tauto.
    rewrite Hpe, filter_cons, decide_False by (intros H; apply H; reflexivity).
    reflexivity.
  - unfold initAudio. destruct (audioCtx m) eqn:Ha; cbn [negb]; [exact Hct |].
    destruct Ctx; [| exact Hct].
    unfold MusicInv; cbn. split; [exact I1 |]. split; [exact I2 |].
    split; [| tauto]. intros Hp. destruct (I3 Hp) as (Hf & _). discriminate Hf.
Qed.

Lemma play_inv (Ctx : bool) (calls : list (R * Call)) :
  forall (now : R) (m : MusicManager),
    MusicInv now m -> clockFrom now calls -> exists now', MusicInv now' (play Ctx calls m).
Proof.
  induction calls as [| [t c] rest IH]; intros now m Hinv Hclock.
  - exists now. exact Hinv.
  - destruct Hclock as [Hle Hrest]. cbn [play fold_left fst snd].
    exact (IH t (call Ctx t c m) (call_inv Ctx now t c m Hle Hinv) Hrest).
Qed.

(** X10: Whatever the application and the browser call, and in whatever order,
    as long as the clock does not go back: the beat stays within the sixteen
    steps of the patterns, at most one timer of the scheduler is pending and
    none once the music is stopped, and the notes handed to the audio
    context have strictly increasing start times, also across a stop and a
    restart. *)
Theorem music_stays_in_step (Ctx : bool) (calls : list (R * Sound.Call)) :
  Sound.clockFrom 0 calls ->
  let m := Sound.play Ctx calls Sound.initialMusic in
  (0 <= Sound.current16thNote m < 16)%Z
  /\ (Sound.isPlaying m = false -> Sound.pending m = [])
  /\ (Sound.isPlaying m = true ->
        exists h, Sound.pending m = [h] /\ Sound.timerID m = Some h)
  /\ Sound.increasing (Sound.notes m).
Proof.
  intros Hclock m. subst m.
  assert (H0 : MusicInv 0 initialMusic).
  { unfold MusicInv, initialMusic; cbn. repeat split; try lia; try discriminate;
      try (intros a []). }
  destruct (play_inv Ctx calls 0 initialMusic H0 Hclock)
    as (now' & I1 & I2 & I3 & I4 & _).
  split; [exact I1 |]. split; [exact I2 |]. split; [| exact I4].
  intros Hp. exact (proj2 (I3 Hp)).
Qed.

End Sequencer.

Lemma scheduler_catches_up_witness :
  exists k : nat,
    Sound.nextNoteTime
      (Sound.scheduler 1 (Sound.set_audioCtx true (Sound.set_isPlaying true Sound.initialMusic)))
    = 0 + INR k * Sound.secondsPer16th.
Proof.
  destruct (scheduler_catches_up 1
              (Sound.set_audioCtx true (Sound.set_isPlaying true Sound.initialMusic))
              eq_refl eq_refl ltac:(cbn; lia)) as (k & _ & H & _).
  exists k. exact H.
Defined.

Lemma music_stays_in_step_witness :
  Sound.increasing
    (Sound.notes
       (Sound.play true
          [(0, Sound.PlayMusic false); (0.5, Sound.Timeout 1%nat); (0.6, Sound.StopMusic);
           (0.7, Sound.PlayMusic false); (1, Sound.Timeout 3%nat)]
          Sound.initialMusic)).
Proof.
  refine (proj2 (proj2 (proj2 (music_stays_in_step true _ _)))).
  cbn. repeat split; lra.
Defined.
